(** * PyKV: the storage engine of [app/async_lru.py] and [app/async_store.py]

    A shallow embedding of the LRU cache with TTL expiry, the write-ahead
    log, recovery and compaction, and the namespace-scoped key space, with
    the bookkeeping of the performance monitor of [app/performance.py].
    [app/simple_store.py] holds the same store with synchronous file access.

    Modelling conventions.
    - Wall-clock instants ([time.time()]) are exact rationals, in seconds;
      every function that reads the clock takes the reading [now] as an
      argument, one reading per operation.
    - A Python [dict] is a [gmap]; iteration order is not modelled.
    - The intrusive doubly-linked list between the two sentinels is the list
      of the keys of its nodes, [head.next] first.  A node is identified by
      its key; the node's mutable fields live in the cache dictionary.
    - [asyncio.Lock] is modelled by a boolean; acquiring a lock that is
      already held never returns, which is the outcome [Deadlock].
    - The TTL of a request is an integer of any size.  [put] adds it to the
      clock reading, a float; an integer that converts to no float makes
      the addition raise [OverflowError], which is the outcome [Raised].
      The rounding of floats is not modelled.
    - A run is a sequence of client operations, clock advances and sweeps
      of the cache's background cleanup task, each executed atomically. *)

From Stdlib Require Import ZArith QArith Lqa Lia Ascii.
From stdpp Require Import base option list gmap strings fin_maps.

Local Open Scope string_scope.
Local Open Scope list_scope.
Local Open Scope Z_scope.

(** ** Outcomes of awaiting a coroutine

    A coroutine returns, or never returns, or raises an exception that
    propagates to its caller.  An exception carries no state: what the
    objects hold after it is not modelled. *)

Inductive exception : Type :=
| OverflowError.

Inductive outcome (A : Type) : Type :=
| Done (a : A)
| Deadlock
| Raised (e : exception).
Arguments Done {A} a.
Arguments Deadlock {A}.
Arguments Raised {A} e.

#[global] Instance outcome_bind : MBind outcome := λ A B k m,
  match m with
  | Done a => k a
  | Deadlock => Deadlock
  | Raised e => Raised e
  end.

#[global] Instance outcome_ret : MRet outcome := λ A a, Done a.

(** Strict comparison of two instants, as a boolean. *)
Definition Qltb (a b : Q) : bool := negb (Qle_bool b a).

(** Python truthiness of an optional number: [None] and [0] are falsy. *)
Definition truthy (x : option Q) : bool :=
  match x with
  | Some q => negb (Qeq_bool q 0)
  | None => false
  end.

(** [time.time() + ttl] with an [int] for [ttl] converts the integer to a
    float first.  The conversion raises [OverflowError] when the integer
    rounds to no finite float, which is the case from [2 ** 1024 - 2 ** 970]
    on, in magnitude. *)
Definition converts (ttl : option Z) : bool :=
  match ttl with
  | Some z => Z.abs z <? 2 ^ 1024 - 2 ^ 970
  | None => true
  end.

(** ** [AsyncNode] *)

Record AsyncNode : Type := mkNode {
  value : string;
  expires_at : option Q;
  access_time : Q
}.

(** [self.expires_at = time.time() + ttl if ttl else None] *)
Definition expiry (now : Q) (ttl : option Q) : option Q :=
  match ttl with
  | Some t => if truthy ttl then Some (now + t)%Q else None
  | None => None
  end.

Definition AsyncNode_init (now : Q) (v : string) (ttl : option Q) : AsyncNode :=
  {| value := v; expires_at := expiry now ttl; access_time := now |}.

(** ** [AsyncDoublyLinkedList] *)

Module AsyncDoublyLinkedList.

Record t : Type := mk {
  nodes : list string;
  lock : bool
}.

Definition init : t := {| nodes := []; lock := false |}.

Definition acquire (d : t) : outcome t :=
  if lock d then Deadlock else Done {| nodes := nodes d; lock := true |}.

Definition release (d : t) : t := {| nodes := nodes d; lock := false |}.

Definition add_to_front (node : string) (d : t) : outcome t :=
  d ← acquire d;
  Done (release {| nodes := node :: nodes d; lock := lock d |}).

Definition remove_node (node : string) (d : t) : outcome t :=
  d ← acquire d;
  Done (release {| nodes := filter (λ k, k ≠ node) (nodes d); lock := lock d |}).

(** [remove_from_end] awaits [remove_node] while it still holds [self.lock]. *)
Definition remove_from_end (d : t) : outcome (option string * t) :=
  d ← acquire d;
  match last (nodes d) with
  | None => Done (None, release d)
  | Some lru =>
      d ← remove_node lru d;
      Done (Some lru, release d)
  end.

Definition move_to_front (node : string) (d : t) : outcome t :=
  d ← remove_node node d;
  add_to_front node d.

End AsyncDoublyLinkedList.

(** ** [AsyncLRUCache] *)

Module AsyncLRUCache.

Record t : Type := mk {
  capacity : Z;
  cache : gmap string AsyncNode;
  dll : AsyncDoublyLinkedList.t;
  lock : bool
}.

Definition init (capacity : Z) : t :=
  {| capacity := capacity; cache := ∅; dll := AsyncDoublyLinkedList.init;
     lock := false |}.

Definition acquire (c : t) : outcome t :=
  if lock c then Deadlock
  else Done {| capacity := capacity c; cache := cache c; dll := dll c; lock := true |}.

Definition release (c : t) : t :=
  {| capacity := capacity c; cache := cache c; dll := dll c; lock := false |}.

Definition with_cache (m : gmap string AsyncNode) (c : t) : t :=
  {| capacity := capacity c; cache := m; dll := dll c; lock := lock c |}.

Definition with_dll (d : AsyncDoublyLinkedList.t) (c : t) : t :=
  {| capacity := capacity c; cache := cache c; dll := d; lock := lock c |}.

(** [node.expires_at is not None and time.time() > node.expires_at] *)
Definition _is_expired (now : Q) (node : AsyncNode) : bool :=
  match expires_at node with
  | Some e => Qltb e now
  | None => false
  end.

Definition _remove_node_internal (key : string) (c : t) : outcome t :=
  d ← AsyncDoublyLinkedList.remove_node key (dll c);
  Done (with_cache (base.delete key (cache c)) (with_dll d c)).

Definition get (now : Q) (key : string) (c : t) : outcome (option string * t) :=
  c ← acquire c;
  match cache c !! key with
  | None => Done (None, release c)
  | Some node =>
      if _is_expired now node then
        c ← _remove_node_internal key c;
        Done (None, release c)
      else
        d ← AsyncDoublyLinkedList.move_to_front key (dll c);
        let node := {| value := value node; expires_at := expires_at node;
                       access_time := now |} in
        Done (Some (value node), release (with_cache (<[key := node]> (cache c)) (with_dll d c)))
  end.

Definition get_raw (now : Q) (key : string) (c : t)
  : outcome (option (string * option Q) * t) :=
  c ← acquire c;
  match cache c !! key with
  | None => Done (None, release c)
  | Some node =>
      if _is_expired now node then
        c ← _remove_node_internal key c;
        Done (None, release c)
      else Done (Some (value node, expires_at node), release c)
  end.

Definition put (now : Q) (key value : string) (ttl : option Q) (c : t) : outcome t :=
  c ← acquire c;
  match cache c !! key with
  | Some _ =>
      let node := {| value := value; expires_at := expiry now ttl;
                     access_time := now |} in
      d ← AsyncDoublyLinkedList.move_to_front key (dll c);
      Done (release (with_cache (<[key := node]> (cache c)) (with_dll d c)))
  | None =>
      c ← (if bool_decide (capacity c ≤ Z.of_nat (size (cache c))) then
             '(lru, d) ← AsyncDoublyLinkedList.remove_from_end (dll c);
             match lru with
             | Some k => Done (with_cache (base.delete k (cache c)) (with_dll d c))
             | None => Done (with_dll d c)
             end
           else Done c);
      d ← AsyncDoublyLinkedList.add_to_front key (dll c);
      Done (release (with_cache (<[key := AsyncNode_init now value ttl]> (cache c))
                                (with_dll d c)))
  end.

(** [put] called with an integer TTL that does not convert to a float: the
    body of [put] up to the addition [time.time() + ttl], which raises.  For
    a key of the dictionary the addition follows the assignment of
    [node.value]; for a new key it is in [AsyncNode.__init__], after the
    eviction. *)
Definition put_overflow (key : string) (c : t) : outcome t :=
  c ← acquire c;
  match cache c !! key with
  | Some _ => Raised OverflowError
  | None =>
      c ← (if bool_decide (capacity c ≤ Z.of_nat (size (cache c))) then
             '(lru, d) ← AsyncDoublyLinkedList.remove_from_end (dll c);
             match lru with
             | Some k => Done (with_cache (base.delete k (cache c)) (with_dll d c))
             | None => Done (with_dll d c)
             end
           else Done c);
      Raised OverflowError
  end.

Definition delete (key : string) (c : t) : outcome (bool * t) :=
  c ← acquire c;
  match cache c !! key with
  | None => Done (false, release c)
  | Some _ =>
      c ← _remove_node_internal key c;
      Done (true, release c)
  end.

(** The deletions at the end of [_remove_expired_items]. *)
Fixpoint delete_each (keys : list string) (c : t) : outcome t :=
  match keys with
  | [] => Done c
  | key :: rest => '(_, c) ← delete key c; delete_each rest c
  end.

(** [node.expires_at and current_time > node.expires_at] *)
Definition sweepable (now : Q) (node : AsyncNode) : bool :=
  match expires_at node with
  | Some e => truthy (Some e) && Qltb e now
  | None => false
  end.

(** One sweep of the background task [_cleanup_expired]. *)
Definition _remove_expired_items (now : Q) (c : t) : outcome t :=
  c ← acquire c;
  let expired_keys :=
    (filter (λ kn, sweepable now kn.2 = true) (map_to_list (cache c))).*1 in
  delete_each expired_keys (release c).

Definition size (c : t) : outcome (nat * t) :=
  c ← acquire c;
  Done (base.size (cache c), release c).

Definition get_all_keys (c : t) : outcome (list string * t) :=
  c ← acquire c;
  Done (elements (dom (cache c)), release c).

(** [clear] empties the dictionary and installs a new list, whose lock is
    free. *)
Definition clear (c : t) : outcome t :=
  c ← acquire c;
  Done (release (with_dll AsyncDoublyLinkedList.init (with_cache ∅ c))).

End AsyncLRUCache.

(** ** Write-ahead log records

    One record per line of the log file.  [_log_operation] writes the six
    fields [timestamp], [action], [key], [value], [ttl] and [namespace]; a
    [DEL] record always carries a null [value] and a null [ttl]. *)

Inductive log_entry : Type :=
| SET (timestamp : Q) (key value : string) (ttl : option Z) (namespace : option string)
| DEL (timestamp : Q) (key : string) (namespace : option string).

Definition is_SET (e : log_entry) : bool :=
  match e with SET _ _ _ _ _ => true | DEL _ _ _ => false end.

Definition is_DEL (e : log_entry) : bool :=
  match e with SET _ _ _ _ _ => false | DEL _ _ _ => true end.

(** ** Statistics *)

Record Stats : Type := mkStats {
  cache_hits : Z;
  cache_misses : Z;
  evictions : Z;
  log_size : Z;
  last_compaction : option Q;
  start_time : Q
}.

Record NamespaceStats : Type := mkNamespaceStats {
  ns_cache_hits : Z;
  ns_cache_misses : Z;
  total_keys : Z
}.

(** The dictionary that [get_stats] returns; a key that the branch taken
    does not set is absent. *)
Record StatsReport : Type := mkStatsReport {
  report_total_keys : nat;
  report_cache_hits : Z;
  report_cache_misses : Z;
  report_evictions : Z;
  report_log_size : Z;
  report_last_compaction : option Q;
  report_uptime_seconds : Q;
  report_namespace : option string;
  report_namespace_stats : option NamespaceStats;
  report_namespaces : option (gmap string NamespaceStats)
}.

(** ** Strings *)

(** [full_key.split(":", 1)], or [None] when [":" not in full_key]. *)
Fixpoint split_colon (s : string) : option (string * string) :=
  match s with
  | EmptyString => None
  | String c rest =>
      if Ascii.eqb c ":"%char then Some (EmptyString, rest)
      else match split_colon rest with
           | Some (a, b) => Some (String c a, b)
           | None => None
           end
  end.

(** Python truthiness of an optional string: [None] and [""] are falsy. *)
Definition truthy_str (s : option string) : bool :=
  match s with
  | Some EmptyString => false
  | Some _ => true
  | None => false
  end.

(** Python truthiness of an optional integer. *)
Definition truthy_int (x : option Z) : bool :=
  match x with
  | Some z => negb (z =? 0)
  | None => false
  end.

(** [int(x)] on a number: truncation towards zero. *)
Definition int_of (x : Q) : Z := Z.quot (Qnum x) (Zpos (Qden x)).

(** [sorted] on a list of strings. *)
Fixpoint insert_sorted (s : string) (l : list string) : list string :=
  match l with
  | [] => [s]
  | x :: rest => if String.leb s x then s :: l else x :: insert_sorted s rest
  end.

Definition sorted (l : list string) : list string := foldr insert_sorted [] l.

(** ** [AsyncKeyValueStore] *)

Module AsyncKeyValueStore.

(** [log_file] is the content of the file at the configured path, [None]
    when no file exists there. *)
Record t : Type := mk {
  cache : AsyncLRUCache.t;
  log_file : option (list log_entry);
  stats : Stats;
  namespace_stats : gmap string NamespaceStats;
  lock : bool
}.

Definition init (now : Q) (capacity : Z) (log : option (list log_entry)) : t :=
  {| cache := AsyncLRUCache.init capacity;
     log_file := log;
     stats := {| cache_hits := 0; cache_misses := 0; evictions := 0; log_size := 0;
                 last_compaction := None; start_time := now |};
     namespace_stats := ∅;
     lock := false |}.

Definition acquire (st : t) : outcome t :=
  if lock st then Deadlock
  else Done {| cache := cache st; log_file := log_file st; stats := stats st;
               namespace_stats := namespace_stats st; lock := true |}.

Definition release (st : t) : t :=
  {| cache := cache st; log_file := log_file st; stats := stats st;
     namespace_stats := namespace_stats st; lock := false |}.

Definition with_cache (c : AsyncLRUCache.t) (st : t) : t :=
  {| cache := c; log_file := log_file st; stats := stats st;
     namespace_stats := namespace_stats st; lock := lock st |}.

Definition with_namespace_stats (m : gmap string NamespaceStats) (st : t) : t :=
  {| cache := cache st; log_file := log_file st; stats := stats st;
     namespace_stats := m; lock := lock st |}.

Definition with_stats (s : Stats) (st : t) : t :=
  {| cache := cache st; log_file := log_file st; stats := s;
     namespace_stats := namespace_stats st; lock := lock st |}.

Definition _make_namespaced_key (namespace : option string) (key : string) : string :=
  match namespace with
  | Some ns => if truthy_str namespace then ns +:+ ":" +:+ key else key
  | None => key
  end.

Definition _parse_namespaced_key (full_key : string) : option string * string :=
  match split_colon full_key with
  | Some (ns, key) => (Some ns, key)
  | None => (None, full_key)
  end.

(** [ns = namespace or "default"] *)
Definition ns_label (namespace : option string) : string :=
  match namespace with
  | Some ns => if truthy_str namespace then ns else "default"
  | None => "default"
  end.

Definition _init_namespace_stats (namespace : option string) (st : t) : t :=
  let ns := ns_label namespace in
  match namespace_stats st !! ns with
  | Some _ => st
  | None =>
      with_namespace_stats
        (<[ns := {| ns_cache_hits := 0; ns_cache_misses := 0; total_keys := 0 |}]>
           (namespace_stats st)) st
  end.

(** Opening the file in mode ["a"] creates it when it does not exist. *)
Definition _log_operation (entry : log_entry) (st : t) : t :=
  {| cache := cache st;
     log_file := Some (default [] (log_file st) ++ [entry]);
     stats := {| cache_hits := cache_hits (stats st);
                 cache_misses := cache_misses (stats st);
                 evictions := evictions (stats st);
                 log_size := log_size (stats st) + 1;
                 last_compaction := last_compaction (stats st);
                 start_time := start_time (stats st) |};
     namespace_stats := namespace_stats st;
     lock := lock st |}.

Definition size (namespace : option string) (st : t) : outcome (nat * t) :=
  match namespace with
  | None =>
      '(n, c) ← AsyncLRUCache.size (cache st);
      Done (n, with_cache c st)
  | Some ns =>
      '(all_keys, c) ← AsyncLRUCache.get_all_keys (cache st);
      let prefix := ns +:+ ":" in
      Done (length (filter (λ key, String.prefix prefix key = true) all_keys),
            with_cache c st)
  end.

Definition set_total_keys (n : nat) (s : NamespaceStats) : NamespaceStats :=
  {| ns_cache_hits := ns_cache_hits s; ns_cache_misses := ns_cache_misses s;
     total_keys := Z.of_nat n |}.

Definition set (now : Q) (key value : string) (ttl : option Z)
    (namespace : option string) (st : t) : outcome t :=
  let full_key := _make_namespaced_key namespace key in
  st ← acquire st;
  c ← (if converts ttl
       then AsyncLRUCache.put now full_key value (inject_Z <$> ttl) (cache st)
       else AsyncLRUCache.put_overflow full_key (cache st));
  let st := _log_operation (SET now key value ttl namespace) (with_cache c st) in
  let st := _init_namespace_stats namespace st in
  let ns := ns_label namespace in
  '(n, st) ← size namespace st;
  Done (release (with_namespace_stats
                   (alter (set_total_keys n) ns (namespace_stats st)) st)).

Definition count_hit (s : Stats) : Stats :=
  {| cache_hits := cache_hits s + 1; cache_misses := cache_misses s;
     evictions := evictions s; log_size := log_size s;
     last_compaction := last_compaction s; start_time := start_time s |}.

Definition count_miss (s : Stats) : Stats :=
  {| cache_hits := cache_hits s; cache_misses := cache_misses s + 1;
     evictions := evictions s; log_size := log_size s;
     last_compaction := last_compaction s; start_time := start_time s |}.

Definition ns_count_hit (s : NamespaceStats) : NamespaceStats :=
  {| ns_cache_hits := ns_cache_hits s + 1; ns_cache_misses := ns_cache_misses s;
     total_keys := total_keys s |}.

Definition ns_count_miss (s : NamespaceStats) : NamespaceStats :=
  {| ns_cache_hits := ns_cache_hits s; ns_cache_misses := ns_cache_misses s + 1;
     total_keys := total_keys s |}.

Definition get (now : Q) (key : string) (namespace : option string) (st : t)
  : outcome (option string * t) :=
  let full_key := _make_namespaced_key namespace key in
  st ← acquire st;
  '(value, c) ← AsyncLRUCache.get now full_key (cache st);
  let st := _init_namespace_stats namespace (with_cache c st) in
  let ns := ns_label namespace in
  match value with
  | Some _ =>
      Done (value, release (with_namespace_stats
                              (alter ns_count_hit ns (namespace_stats st))
                              (with_stats (count_hit (stats st)) st)))
  | None =>
      Done (value, release (with_namespace_stats
                              (alter ns_count_miss ns (namespace_stats st))
                              (with_stats (count_miss (stats st)) st)))
  end.

Definition delete (now : Q) (key : string) (namespace : option string) (st : t)
  : outcome (bool * t) :=
  let full_key := _make_namespaced_key namespace key in
  st ← acquire st;
  '(deleted, c) ← AsyncLRUCache.delete full_key (cache st);
  let st := with_cache c st in
  if (deleted : bool) then
    let st := _log_operation (DEL now key namespace) st in
    let st := _init_namespace_stats namespace st in
    let ns := ns_label namespace in
    '(n, st) ← size namespace st;
    Done (deleted, release (with_namespace_stats
                              (alter (set_total_keys n) ns (namespace_stats st)) st))
  else Done (deleted, release st).

(** One iteration of the loop of [list_namespaces]. *)
Definition add_namespace (namespaces : gset string) (key : string) : gset string :=
  match _parse_namespaced_key key with
  | (Some ns, _) => if truthy_str (Some ns) then {[ ns ]} ∪ namespaces else namespaces
  | (None, _) => namespaces
  end.

Definition list_namespaces (st : t) : outcome (list string * t) :=
  '(all_keys, c) ← AsyncLRUCache.get_all_keys (cache st);
  let namespaces := foldl add_namespace ∅ all_keys in
  Done (sorted (elements namespaces), with_cache c st).

(** The body of the loop of [_recover] for one well-formed record.  The
    records are those the store wrote: a [SET] that [set] logged, after [put]
    had converted its TTL, or one that [compact_log] wrote, whose TTL is the
    [int] of a float; so the TTL of a record converts in [ttl - elapsed]. *)
Definition replay (now : Q) (entry : log_entry) (c : AsyncLRUCache.t)
  : outcome AsyncLRUCache.t :=
  match entry with
  | SET timestamp key value ttl namespace =>
      let full_key := _make_namespaced_key namespace key in
      match ttl with
      | Some t =>
          if truthy_int ttl then
            let elapsed := (now - timestamp)%Q in
            let remaining_ttl := (inject_Z t - elapsed)%Q in
            if Qle_bool remaining_ttl 0 then Done c
            else AsyncLRUCache.put now full_key value (Some remaining_ttl) c
          else AsyncLRUCache.put now full_key value None c
      | None => AsyncLRUCache.put now full_key value None c
      end
  | DEL _ key namespace =>
      let full_key := _make_namespaced_key namespace key in
      '(_, c) ← AsyncLRUCache.delete full_key c;
      Done c
  end.

Fixpoint replay_all (now : Q) (entries : list log_entry) (c : AsyncLRUCache.t)
  : outcome AsyncLRUCache.t :=
  match entries with
  | [] => Done c
  | entry :: rest => c ← replay now entry c; replay_all now rest c
  end.

Definition _recover (now : Q) (st : t) : outcome t :=
  match log_file st with
  | None => Done st
  | Some entries =>
      c ← replay_all now entries (cache st);
      Done (with_cache c st)
  end.

Definition initialize (now : Q) (st : t) : outcome t := _recover now st.

(** The first loop of [compact_log]: [current_state], in iteration order. *)
Fixpoint snapshot (now : Q) (cache_keys : list string) (c : AsyncLRUCache.t)
  : outcome (list (string * (string * option Q)) * AsyncLRUCache.t) :=
  match cache_keys with
  | [] => Done ([], c)
  | full_key :: rest =>
      '(value, c) ← AsyncLRUCache.get_raw now full_key c;
      '(current_state, c) ← snapshot now rest c;
      Done (match value with
            | Some v => (full_key, v) :: current_state
            | None => current_state
            end, c)
  end.

(** The body of the second loop of [compact_log]: the record written for
    one item of [current_state], if any. *)
Definition compacted_entry (now : Q) (item : string * (string * option Q))
  : option log_entry :=
  let '(full_key, (value, expires_at)) := item in
  let '(namespace, key) := _parse_namespaced_key full_key in
  match expires_at with
  | Some e =>
      if truthy expires_at then
        let ttl := Z.max 0 (int_of (e - now)%Q) in
        if ttl <=? 0 then None
        else Some (SET now key value (Some ttl) namespace)
      else Some (SET now key value None namespace)
  | None => Some (SET now key value None namespace)
  end.

Definition compact_log (now : Q) (st : t) : outcome t :=
  match log_file st with
  | None => Done st
  | Some _ =>
      st ← acquire st;
      '(cache_keys, c) ← AsyncLRUCache.get_all_keys (cache st);
      '(current_state, c) ← snapshot now cache_keys c;
      let entries := omap (compacted_entry now) current_state in
      Done (release
              {| cache := c;
                 log_file := Some entries;
                 stats := {| cache_hits := cache_hits (stats st);
                             cache_misses := cache_misses (stats st);
                             evictions := evictions (stats st);
                             log_size := Z.of_nat (length entries);
                             last_compaction := Some now;
                             start_time := start_time (stats st) |};
                 namespace_stats := namespace_stats st;
                 lock := lock st |})
  end.

(** The loop of [clear_namespace]: every key with the prefix is deleted from
    the cache and counted, and one [DEL] record is logged for it, under the
    key that [_parse_namespaced_key] splits off its full key. *)
Fixpoint clear_keys (now : Q) (namespace : string) (all_keys : list string)
    (deleted_count : nat) (st : t) : outcome (nat * t) :=
  match all_keys with
  | [] => Done (deleted_count, st)
  | full_key :: rest =>
      if String.prefix (namespace +:+ ":") full_key then
        '(_, c) ← AsyncLRUCache.delete full_key (cache st);
        let '(_, key) := _parse_namespaced_key full_key in
        let st := _log_operation (DEL now key (Some namespace)) (with_cache c st) in
        clear_keys now namespace rest (S deleted_count) st
      else clear_keys now namespace rest deleted_count st
  end.

(** [clear_namespace] does not take the store's lock. *)
Definition clear_namespace (now : Q) (namespace : string) (st : t)
  : outcome (nat * t) :=
  '(all_keys, c) ← AsyncLRUCache.get_all_keys (cache st);
  '(deleted_count, st) ← clear_keys now namespace all_keys 0 (with_cache c st);
  match namespace_stats st !! namespace with
  | Some _ =>
      Done (deleted_count,
            with_namespace_stats
              (alter (set_total_keys 0) namespace (namespace_stats st)) st)
  | None => Done (deleted_count, st)
  end.

(** [get_stats] does not take the store's lock either.  With a namespace
    it creates the namespace's bucket before it reads it. *)
Definition get_stats (now : Q) (namespace : option string) (st : t)
  : outcome (StatsReport * t) :=
  '(cache_size, c) ← AsyncLRUCache.size (cache st);
  let st := with_cache c st in
  let uptime := (now - start_time (stats st))%Q in
  if truthy_str namespace then
    let base := stats st in
    let st := _init_namespace_stats namespace st in
    let ns := ns_label namespace in
    let bucket := namespace_stats st !! ns in
    '(n, st) ← size namespace st;
    Done ({| report_total_keys := n;
             report_cache_hits := cache_hits base;
             report_cache_misses := cache_misses base;
             report_evictions := evictions base;
             report_log_size := log_size base;
             report_last_compaction := last_compaction base;
             report_uptime_seconds := uptime;
             report_namespace := namespace;
             report_namespace_stats := bucket;
             report_namespaces := None |}, st)
  else
    Done ({| report_total_keys := cache_size;
             report_cache_hits := cache_hits (stats st);
             report_cache_misses := cache_misses (stats st);
             report_evictions := evictions (stats st);
             report_log_size := log_size (stats st);
             report_last_compaction := last_compaction (stats st);
             report_uptime_seconds := uptime;
             report_namespace := None;
             report_namespace_stats := None;
             report_namespaces := Some (namespace_stats st) |}, st).

End AsyncKeyValueStore.

(** ** [PerformanceMonitor] ([app/performance.py])

    The decorator [timed_operation] wraps [set], [get] and [delete] of the
    store: when the wrapped call returns, or raises, [OperationTimer] records
    one metric.  The monitor has a lock of its own and touches nothing of the
    store. *)

Module OperationMetrics.

Record t : Type := mk {
  operation_type : string;
  start_time : Q;
  end_time : Q;
  success : bool;
  error_message : option string
}.

Definition duration (m : t) : Q := (end_time m - start_time m)%Q.

End OperationMetrics.

(** [deque(maxlen=n).append(x)]: the item is added on the right, and when
    the deque is then longer than [maxlen] the leftmost item is discarded. *)
Definition deque_append {A : Type} (maxlen : nat) (d : list A) (x : A) : list A :=
  let d := d ++ [x] in
  if (maxlen <? length d)%nat then drop 1 d else d.

(** [counts[key] += 1] on a [defaultdict(int)]. *)
Definition increment (key : string) (counts : gmap string Z) : gmap string Z :=
  <[key := default 0 (counts !! key) + 1]> counts.

Module PerformanceMonitor.

Record t : Type := mk {
  max_history : nat;
  metrics : list OperationMetrics.t;
  operation_counts : gmap string Z;
  error_counts : gmap string Z;
  start_time : Q;
  lock : bool
}.

Definition init (now : Q) (max_history : nat) : t :=
  {| max_history := max_history; metrics := []; operation_counts := ∅;
     error_counts := ∅; start_time := now; lock := false |}.

Definition acquire (p : t) : outcome t :=
  if lock p then Deadlock
  else Done {| max_history := max_history p; metrics := metrics p;
               operation_counts := operation_counts p;
               error_counts := error_counts p; start_time := start_time p;
               lock := true |}.

Definition release (p : t) : t :=
  {| max_history := max_history p; metrics := metrics p;
     operation_counts := operation_counts p; error_counts := error_counts p;
     start_time := start_time p; lock := false |}.

Definition record_operation (now : Q) (operation_type : string) (duration : Q)
    (success : bool) (error_message : option string) (p : t) : outcome t :=
  p ← acquire p;
  let metric :=
    {| OperationMetrics.operation_type := operation_type;
       OperationMetrics.start_time := (now - duration)%Q;
       OperationMetrics.end_time := now;
       OperationMetrics.success := success;
       OperationMetrics.error_message := error_message |} in
  Done (release
          {| max_history := max_history p;
             metrics := deque_append (max_history p) (metrics p) metric;
             operation_counts := increment operation_type (operation_counts p);
             error_counts :=
               if negb success then increment operation_type (error_counts p)
               else error_counts p;
             start_time := start_time p;
             lock := lock p |}).

End PerformanceMonitor.

(** One call of [record_operation]: the clock reading and the arguments. *)
Record recording : Type := mkRecording {
  at_instant : Q;
  of_type : string;
  took : Q;
  succeeded : bool;
  message : option string
}.

(** The monitor after a sequence of calls of [record_operation]. *)
Fixpoint record_all (calls : list recording) (p : PerformanceMonitor.t)
  : outcome PerformanceMonitor.t :=
  match calls with
  | [] => Done p
  | c :: rest =>
      p ← PerformanceMonitor.record_operation (at_instant c) (of_type c) (took c)
            (succeeded c) (message c) p;
      record_all rest p
  end.

(** ** Runs: a store, the wall clock, a client issuing operations, and
    the cache's background sweep of expired entries ([Cleanup]) *)

Inductive op : Type :=
| OpSet (key value : string) (ttl : option Z) (namespace : option string)
| OpGet (key : string) (namespace : option string)
| OpDelete (key : string) (namespace : option string)
| Tick (seconds : Q)
| Cleanup.

Record world : Type := mkWorld {
  clock : Q;
  store : AsyncKeyValueStore.t
}.

Definition step (o : op) (w : world) : outcome world :=
  match o with
  | OpSet key value ttl namespace =>
      st ← AsyncKeyValueStore.set (clock w) key value ttl namespace (store w);
      Done {| clock := clock w; store := st |}
  | OpGet key namespace =>
      '(_, st) ← AsyncKeyValueStore.get (clock w) key namespace (store w);
      Done {| clock := clock w; store := st |}
  | OpDelete key namespace =>
      '(_, st) ← AsyncKeyValueStore.delete (clock w) key namespace (store w);
      Done {| clock := clock w; store := st |}
  | Tick seconds =>
      Done {| clock := (clock w + seconds)%Q; store := store w |}
  | Cleanup =>
      c ← AsyncLRUCache._remove_expired_items (clock w)
             (AsyncKeyValueStore.cache (store w));
      Done {| clock := clock w; store := AsyncKeyValueStore.with_cache c (store w) |}
  end.

Fixpoint run (ops : list op) (w : world) : outcome world :=
  match ops with
  | [] => Done w
  | o :: rest => w ← step o w; run rest w
  end.

(** A store constructed at instant [now] where no log file exists yet. *)
Definition fresh (capacity : Z) (now : Q) : world :=
  {| clock := now; store := AsyncKeyValueStore.init now capacity None |}.

(** Shutdown followed by a new process: a new store object is constructed
    over the log file left behind and [initialize] replays it. *)
Definition restart (now : Q) (capacity : Z) (st : AsyncKeyValueStore.t)
  : outcome AsyncKeyValueStore.t :=
  AsyncKeyValueStore.initialize now
    (AsyncKeyValueStore.init now capacity (AsyncKeyValueStore.log_file st)).

(** * Vocabulary of the statements

    Closed forms of the operations on stores whose locks are free, the
    invariants, and the sample data used to exercise the statements. *)

(** A list whose lock is free. *)
Abbreviation dll_of l := (AsyncDoublyLinkedList.mk l false).

(** [touch k l]: [k] moved (or added) to the front of [l]. *)
Definition touch (k : string) (l : list string) : list string :=
  k :: filter (λ x, x ≠ k) l.

(** A cache whose lock and whose list's lock are free. *)
Abbreviation cache_of cap m l := (AsyncLRUCache.mk cap m (dll_of l) false).

(** A node after a hit at instant [now]. *)
Definition touched (now : Q) (node : AsyncNode) : AsyncNode :=
  {| value := value node; expires_at := expires_at node; access_time := now |}.

(** The dictionary and the list order that [put] leaves behind. *)
Definition put_result (now : Q) (k v : string) (ttl : option Q) (cap : Z)
    (m : gmap string AsyncNode) (l : list string)
  : outcome (gmap string AsyncNode * list string) :=
  match m !! k with
  | Some _ => Done (<[k := AsyncNode_init now v ttl]> m, touch k l)
  | None =>
      if bool_decide (cap ≤ Z.of_nat (size m)) then
        match l with
        | [] => Done (<[k := AsyncNode_init now v ttl]> m, [k])
        | _ :: _ => Deadlock
        end
      else Done (<[k := AsyncNode_init now v ttl]> m, k :: l)
  end.

(** What [put] does with an integer TTL that does not convert: it raises,
    unless the key is new and the cache full and not empty, where the
    eviction comes first and never returns. *)
Definition overflow_result (k : string) (cap : Z) (m : gmap string AsyncNode)
    (l : list string) : outcome (gmap string AsyncNode * list string) :=
  match m !! k with
  | Some _ => Raised OverflowError
  | None =>
      if bool_decide (cap ≤ Z.of_nat (size m)) then
        match l with
        | [] => Raised OverflowError
        | _ :: _ => Deadlock
        end
      else Raised OverflowError
  end.

(** The dictionary and the list order that [set] leaves behind in the
    cache. *)
Definition set_result (now : Q) (k v : string) (ttl : option Z) (cap : Z)
    (m : gmap string AsyncNode) (l : list string)
  : outcome (gmap string AsyncNode * list string) :=
  if converts ttl then put_result now k v (inject_Z <$> ttl) cap m l
  else overflow_result k cap m l.

(** A store whose lock is free. *)
Abbreviation store_of c log s nss := (AsyncKeyValueStore.mk c log s nss false).

(** The bucket that [_init_namespace_stats] creates. *)
Definition zero_ns : NamespaceStats :=
  {| ns_cache_hits := 0; ns_cache_misses := 0; total_keys := 0 |}.

(** The per-namespace table after [_init_namespace_stats]. *)
Definition init_ns (label : string) (nss : gmap string NamespaceStats)
  : gmap string NamespaceStats :=
  match nss !! label with
  | Some _ => nss
  | None => <[label := zero_ns]> nss
  end.

(** The number [size(namespace)] returns. *)
Definition key_count (namespace : option string) (m : gmap string AsyncNode) : nat :=
  match namespace with
  | None => size m
  | Some ns =>
      length (filter (λ key, String.prefix (ns +:+ ":") key = true) (elements (dom m)))
  end.

(** The statistics after [_log_operation]. *)
Definition logged (s : Stats) : Stats :=
  {| cache_hits := cache_hits s; cache_misses := cache_misses s;
     evictions := evictions s; log_size := log_size s + 1;
     last_compaction := last_compaction s; start_time := start_time s |}.

(** The log file after [_log_operation]. *)
Definition appended (log : option (list log_entry)) (e : log_entry)
  : option (list log_entry) :=
  Some (default [] log ++ [e]).

(** What [get] on the cache returns and leaves behind. *)
Definition get_result (now : Q) (k : string) (m : gmap string AsyncNode)
    (l : list string) : option string * gmap string AsyncNode * list string :=
  match m !! k with
  | None => (None, m, l)
  | Some node =>
      if AsyncLRUCache._is_expired now node
      then (None, base.delete k m, filter (λ x, x ≠ k) l)
      else (Some (value node), <[k := touched now node]> m, touch k l)
  end.

(** Between two operations no coroutine holds any of the three locks. *)
Definition quiescent (st : AsyncKeyValueStore.t) : Prop :=
  AsyncKeyValueStore.lock st = false ∧
  AsyncLRUCache.lock (AsyncKeyValueStore.cache st) = false ∧
  AsyncDoublyLinkedList.lock (AsyncLRUCache.dll (AsyncKeyValueStore.cache st)) = false.

(** Accessors used in the statements below. *)
Definition entries (st : AsyncKeyValueStore.t) : gmap string AsyncNode :=
  AsyncLRUCache.cache (AsyncKeyValueStore.cache st).

Definition lru_order (st : AsyncKeyValueStore.t) : list string :=
  AsyncDoublyLinkedList.nodes (AsyncLRUCache.dll (AsyncKeyValueStore.cache st)).

Definition wal (st : AsyncKeyValueStore.t) : list log_entry :=
  default [] (AsyncKeyValueStore.log_file st).

Definition hits (st : AsyncKeyValueStore.t) : Z :=
  cache_hits (AsyncKeyValueStore.stats st).

Definition misses (st : AsyncKeyValueStore.t) : Z :=
  cache_misses (AsyncKeyValueStore.stats st).

(** A namespace that has no bucket yet has counted nothing. *)
Definition ns_hits (label : string) (st : AsyncKeyValueStore.t) : Z :=
  from_option ns_cache_hits 0 (AsyncKeyValueStore.namespace_stats st !! label).

Definition ns_misses (label : string) (st : AsyncKeyValueStore.t) : Z :=
  from_option ns_cache_misses 0 (AsyncKeyValueStore.namespace_stats st !! label).

(** A store with one live entry, used to exercise the statements. *)
Definition sample_store : AsyncKeyValueStore.t :=
  store_of (cache_of 2 {[ "a" := {| value := "1"; expires_at := Some 10%Q;
                                     access_time := 0%Q |} ]} ["a"])
    (Some [SET 0 "a" "1" (Some 10) None])
    {| cache_hits := 0; cache_misses := 0; evictions := 0; log_size := 1;
       last_compaction := None; start_time := 0%Q |}
    {[ "default" := {| ns_cache_hits := 0; ns_cache_misses := 0; total_keys := 1 |} ]}.

(** The dictionary and the linked list hold the same keys, each once. *)
Definition consistent (m : gmap string AsyncNode) (l : list string) : Prop :=
  NoDup l ∧ ∀ k, k ∈ l ↔ is_Some (m !! k).

(** What holds of a store of capacity [cap] between two operations of a
    run. *)
Record invariant (cap : Z) (st : AsyncKeyValueStore.t) : Prop := mkInvariant {
  inv_quiescent : quiescent st;
  inv_capacity : AsyncLRUCache.capacity (AsyncKeyValueStore.cache st) = cap;
  inv_consistent : consistent (entries st) (lru_order st);
  inv_bound : Z.of_nat (size (entries st)) ≤ Z.max cap 1
}.

(** A run that expires, sweeps and deletes. *)
Definition sample_ops : list op :=
  [OpSet "a" "1" None None; OpSet "b" "2" (Some 1) None; OpGet "a" None;
   Tick 2; Cleanup; OpSet "c" "3" (Some 5) (Some "app"); OpDelete "b" None].

(** Scenario S1 of the specification, up to the insertion of the third key. *)
Definition s1_prefix : list op :=
  [OpSet "a" "1" None None; OpSet "b" "2" None None; OpGet "a" None].

(** The namespace an argument denotes: the empty string is falsy and so
    denotes the default namespace, like an absent argument. *)
Definition denoted (namespace : option string) : option string :=
  if truthy_str namespace then namespace else None.

(** The answer of [get], when it returns. *)
Definition answer (o : outcome (option string * AsyncKeyValueStore.t))
  : outcome (option string) :=
  '(r, _) ← o; Done r.

(** A log record with its namespace argument replaced by the namespace the
    argument denotes. *)
Definition normalised (e : log_entry) : log_entry :=
  match e with
  | SET ts key v ttl ns => SET ts key v ttl (denoted ns)
  | DEL ts key ns => DEL ts key (denoted ns)
  end.

(** The hit and miss counters of a bucket. *)
Definition counters (s : NamespaceStats) : Z * Z :=
  (ns_cache_hits s, ns_cache_misses s).

(** Two stores that differ at most in the spelling of the default namespace
    in their log records and in the [total_keys] gauges. *)
Definition agree (a b : AsyncKeyValueStore.t) : Prop :=
  AsyncKeyValueStore.cache a = AsyncKeyValueStore.cache b ∧
  AsyncKeyValueStore.stats a = AsyncKeyValueStore.stats b ∧
  AsyncKeyValueStore.lock a = AsyncKeyValueStore.lock b ∧
  (is_Some (AsyncKeyValueStore.log_file a) ↔ is_Some (AsyncKeyValueStore.log_file b)) ∧
  normalised <$> wal a = normalised <$> wal b ∧
  counters <$> AsyncKeyValueStore.namespace_stats a =
    counters <$> AsyncKeyValueStore.namespace_stats b.

(** Two awaited results that both return, related by [R], or both never
    return, or both raise the same exception. *)
Definition both {A : Type} (R : A → A → Prop) (x y : outcome A) : Prop :=
  match x, y with
  | Done a, Done b => R a b
  | Deadlock, Deadlock => True
  | Raised e, Raised e' => e = e'
  | _, _ => False
  end.

(** [o] is a [set] of the entry under [full_key]. *)
Definition sets_key (full_key : string) (o : op) : bool :=
  match o with
  | OpSet key _ _ namespace =>
      bool_decide (AsyncKeyValueStore._make_namespaced_key namespace key = full_key)
  | _ => false
  end.

(** The entry under [full_key], if there is one, expires at instant [e]. *)
Definition expires_by (full_key : string) (e : Q) (st : AsyncKeyValueStore.t) : Prop :=
  ∀ node, entries st !! full_key = Some node → expires_at node = Some e.

(** The [ttl] field compaction writes for an entry: the whole seconds left,
    when the entry has an expiry. *)
Definition ttl_left (now : Q) (node : AsyncNode) : option Z :=
  match expires_at node with
  | Some e => if truthy (Some e) then Some (Z.max 0 (int_of (e - now)%Q)) else None
  | None => None
  end.

(** An entry outlasts compaction when it has no expiry or at least one whole
    second left. *)
Definition lasts (now : Q) (node : AsyncNode) : bool :=
  match ttl_left now node with
  | Some t => 1 <=? t
  | None => true
  end.

(** The record compaction writes for an entry. *)
Definition record_of (now : Q) (full_key : string) (node : AsyncNode) : log_entry :=
  let '(namespace, key) := AsyncKeyValueStore._parse_namespaced_key full_key in
  SET now key (value node) (ttl_left now node) namespace.

(** [e] is the [SET] record of the entry [node] under [full_key], written
    at instant [now]: a record that recovery replays under [full_key], with
    the value of the entry and, as TTL, the whole seconds that the entry has
    left. *)
Definition records (now : Q) (e : log_entry) (full_key : string)
    (node : AsyncNode) : Prop :=
  match e with
  | SET timestamp key v ttl namespace =>
      timestamp = now ∧
      AsyncKeyValueStore._make_namespaced_key namespace key = full_key ∧
      v = value node ∧
      ttl = ttl_left now node
  | DEL _ _ _ => False
  end.

(** The entry under [k], when compaction writes a record for it. *)
Definition kept_item (now : Q) (m : gmap string AsyncNode) (k : string)
  : option (string * AsyncNode) :=
  match m !! k with
  | Some node =>
      if AsyncLRUCache._is_expired now node then None
      else if lasts now node then Some (k, node) else None
  | None => None
  end.

(** The item of [current_state] that the first loop reads for one key. *)
Definition snapshot_item (now : Q) (m : gmap string AsyncNode) (k : string)
  : option (string * (string * option Q)) :=
  match m !! k with
  | Some node =>
      if AsyncLRUCache._is_expired now node then None
      else Some (k, (value node, expires_at node))
  | None => None
  end.

(** The dictionary after [get_raw] has been called on the keys [ks]. *)
Definition purge (now : Q) (ks : list string) (m : gmap string AsyncNode)
  : gmap string AsyncNode :=
  filter (λ kn, ¬ (kn.1 ∈ ks ∧ AsyncLRUCache._is_expired now kn.2 = true)) m.

(** The records that the second loop writes, for a dictionary [m]. *)
Definition compacted (now : Q) (m : gmap string AsyncNode) : list log_entry :=
  omap (AsyncKeyValueStore.compacted_entry now)
       (omap (snapshot_item now m) (elements (dom m))).

(** The dictionary and the list order that replaying one record leaves. *)
Definition replay_result (now : Q) (entry : log_entry) (cap : Z)
    (m : gmap string AsyncNode) (l : list string)
  : outcome (gmap string AsyncNode * list string) :=
  match entry with
  | SET timestamp key v ttl namespace =>
      let full_key := AsyncKeyValueStore._make_namespaced_key namespace key in
      match ttl with
      | Some t =>
          if truthy_int ttl then
            let remaining_ttl := (inject_Z t - (now - timestamp))%Q in
            if Qle_bool remaining_ttl 0 then Done (m, l)
            else put_result now full_key v (Some remaining_ttl) cap m l
          else put_result now full_key v None cap m l
      | None => put_result now full_key v None cap m l
      end
  | DEL _ key namespace =>
      let full_key := AsyncKeyValueStore._make_namespaced_key namespace key in
      match m !! full_key with
      | Some _ => Done (base.delete full_key m, filter (λ x, x ≠ full_key) l)
      | None => Done (m, l)
      end
  end.

(** The dictionary and the list order that replaying a log leaves. *)
Fixpoint replay_all_result (now : Q) (entries : list log_entry) (cap : Z)
    (m : gmap string AsyncNode) (l : list string)
  : outcome (gmap string AsyncNode * list string) :=
  match entries with
  | [] => Done (m, l)
  | entry :: rest =>
      '(m', l') ← replay_result now entry cap m l;
      replay_all_result now rest cap m' l'
  end.

(** Two expiries that denote the same instant, or are both absent. *)
Definition same_expiry (a b : option Q) : Prop :=
  match a, b with
  | Some x, Some y => (x == y)%Q
  | None, None => True
  | _, _ => False
  end.

(** An entry has time left at instant [tr]: it has no expiry, or its expiry
    lies strictly after [tr]. *)
Definition time_left (tr : Q) (node : AsyncNode) : Prop :=
  match expires_at node with
  | Some e => (tr < e)%Q
  | None => True
  end.

(** [mr] holds every entry of [m] that has time left at [tr], with the same
    value and the same expiry. *)
Definition restores (tr : Q) (m mr : gmap string AsyncNode) : Prop :=
  ∀ k node, m !! k = Some node → time_left tr node →
    ∃ node', mr !! k = Some node' ∧ value node' = value node ∧
             same_expiry (expires_at node') (expires_at node).

(** Along a run, whatever replaying the log so far yields restores the
    entries of the running store. *)
Definition replay_restores (tr : Q) (cap' : Z) (st : AsyncKeyValueStore.t) : Prop :=
  ∀ mr lr,
    replay_all_result tr (wal st) cap' ∅ [] = Done (mr, lr) →
    restores tr (entries st) mr.

(** A [set] of [full_key] needs no eviction: the key is in the cache, or
    the cache holds fewer entries than [cap], or it is empty. *)
Definition has_room (full_key : string) (cap : Z) (st : AsyncKeyValueStore.t)
  : Prop :=
  is_Some (entries st !! full_key) ∨
  Z.of_nat (size (entries st)) < cap ∨
  size (entries st) = 0%nat.

(** The TTL of the operation, if it has one, converts to a float. *)
Definition ttl_converts (o : op) : bool :=
  match o with
  | OpSet _ _ ttl _ => converts ttl
  | _ => true
  end.

(** The full key that an operation sets, if it is a [set]. *)
Definition set_key (o : op) : option string :=
  match o with
  | OpSet key _ _ namespace =>
      Some (AsyncKeyValueStore._make_namespaced_key namespace key)
  | _ => None
  end.

(** The set of these keys. *)
Definition set_keys (ops : list op) : gset string := list_to_set (omap set_key ops).

(** The full key that a log record sets, if it is a [SET]. *)
Definition logged_key (e : log_entry) : option string :=
  match e with
  | SET _ key _ _ namespace =>
      Some (AsyncKeyValueStore._make_namespaced_key namespace key)
  | DEL _ _ _ => None
  end.

(** The set of these keys. *)
Definition logged_keys (es : list log_entry) : gset string :=
  list_to_set (omap logged_key es).

(** A quiescent store of capacity [cap] whose entries and whose log name
    keys of [K] only. *)
Definition within (K : gset string) (cap : Z) (st : AsyncKeyValueStore.t) : Prop :=
  quiescent st ∧
  AsyncLRUCache.capacity (AsyncKeyValueStore.cache st) = cap ∧
  dom (entries st) ⊆ K ∧
  logged_keys (wal st) ⊆ K.

(** A run over four full keys, with an overwrite, a delete, an expiry and a
    sweep. *)
Definition round_trip_ops : list op :=
  [OpSet "a" "1" None None; OpSet "b" "2" (Some 10) None; OpGet "a" None;
   OpDelete "b" None; Tick 1; OpSet "c" "3" (Some 60) (Some "app");
   OpSet "d" "5" (Some 1) None; Tick 2; Cleanup; OpSet "a" "4" None None].

(** The full key that a client operation addresses. *)
Definition op_key (o : op) : option string :=
  match o with
  | OpSet key _ _ namespace | OpGet key namespace | OpDelete key namespace =>
      Some (AsyncKeyValueStore._make_namespaced_key namespace key)
  | Tick _ | Cleanup => None
  end.

(** [o] is a [set] or a [delete] of the entry under [full_key]. *)
Definition writes_key (full_key : string) (o : op) : bool :=
  match o with
  | OpSet key _ _ namespace | OpDelete key namespace =>
      bool_decide (AsyncKeyValueStore._make_namespaced_key namespace key = full_key)
  | _ => false
  end.

(** The clock does not run backwards in [o]. *)
Definition forward (o : op) : bool :=
  match o with
  | Tick seconds => Qle_bool 0 seconds
  | _ => true
  end.

(** The entry under [full_key] holds [v] with expiry [ex], or that expiry
    has passed. *)
Definition kept_or_past (full_key v : string) (ex : option Q) (w : world) : Prop :=
  (∃ node, entries (store w) !! full_key = Some node ∧
           value node = v ∧ expires_at node = ex) ∨
  (∃ e, ex = Some e ∧ (e < clock w)%Q).

Definition is_OpSet (o : op) : bool :=
  match o with OpSet _ _ _ _ => true | _ => false end.

Definition is_OpGet (o : op) : bool :=
  match o with OpGet _ _ => true | _ => false end.

Definition is_OpDelete (o : op) : bool :=
  match o with OpDelete _ _ => true | _ => false end.

(** [o] is a [get] whose statistics go to the bucket [label]. *)
Definition is_OpGet_under (label : string) (o : op) : bool :=
  match o with
  | OpGet _ namespace => bool_decide (AsyncKeyValueStore.ns_label namespace = label)
  | _ => false
  end.

(** The number of operations of a run that satisfy [P]. *)
Definition count_ops (P : op → bool) (ops : list op) : nat :=
  length (filter (λ o, P o = true) ops).

(** Each string of the list is at most its successor, in the order of
    [String.leb]. *)
Fixpoint ascending (l : list string) : bool :=
  match l with
  | x :: rest =>
      match rest with
      | y :: _ => String.leb x y && ascending rest
      | [] => true
      end
  | [] => true
  end.

(** A run that stores keys under two namespaces and under none. *)
Definition namespaced_ops : list op :=
  [OpSet "x" "1" None (Some "db"); OpSet "y" "2" None (Some "app");
   OpSet "plain" "3" None None; OpSet "z" "4" None (Some "app")].

(** The full keys that [clear_namespace] deletes: the keys of the dictionary
    that start with the namespace and a colon. *)
Definition cleared (namespace : string) (m : gmap string AsyncNode) : list string :=
  filter (λ k, String.prefix (namespace +:+ ":") k = true) (elements (dom m)).

(** The [DEL] record that [clear_namespace] logs for one full key. *)
Definition clear_record (now : Q) (namespace full_key : string) : log_entry :=
  DEL now (AsyncKeyValueStore._parse_namespaced_key full_key).2 (Some namespace).

(** The full key that replaying a log record deletes, if it is a [DEL]. *)
Definition deleted_key (e : log_entry) : option string :=
  match e with
  | DEL _ key namespace =>
      Some (AsyncKeyValueStore._make_namespaced_key namespace key)
  | SET _ _ _ _ _ => None
  end.

(** A run that stores two keys under a namespace whose name holds a colon. *)
Definition nested_ops : list op :=
  [OpSet "k" "1" None (Some "a:b"); OpSet "j" "2" None None].

(** The entry that recovery at instant [tr] creates from a [SET] record,
    with its full key, when it does not skip the record. *)
Definition recovered (tr : Q) (e : log_entry) : option (string * AsyncNode) :=
  match e with
  | SET timestamp key v ttl namespace =>
      let full_key := AsyncKeyValueStore._make_namespaced_key namespace key in
      match ttl with
      | Some t =>
          if truthy_int ttl then
            let remaining_ttl := (inject_Z t - (tr - timestamp))%Q in
            if Qle_bool remaining_ttl 0 then None
            else Some (full_key, AsyncNode_init tr v (Some remaining_ttl))
          else Some (full_key, AsyncNode_init tr v None)
      | None => Some (full_key, AsyncNode_init tr v None)
      end
  | DEL _ _ _ => None
  end.

(** The dictionary after recovery has replayed one [SET] record. *)
Definition add_recovered (tr : Q) (m : gmap string AsyncNode) (e : log_entry)
  : gmap string AsyncNode :=
  match recovered tr e with
  | Some (k, node) => <[k := node]> m
  | None => m
  end.


(** The metric that [record_operation] builds for one call. *)
Definition metric_of (c : recording) : OperationMetrics.t :=
  {| OperationMetrics.operation_type := of_type c;
     OperationMetrics.start_time := (at_instant c - took c)%Q;
     OperationMetrics.end_time := at_instant c;
     OperationMetrics.success := succeeded c;
     OperationMetrics.error_message := message c |}.

(** The number of calls of a given operation type, and of the failed ones
    among them. *)
Definition calls_of (op : string) (calls : list recording) : nat :=
  length (filter (λ c, of_type c = op) calls).

Definition failures_of (op : string) (calls : list recording) : nat :=
  length (filter (λ c, of_type c = op ∧ succeeded c = false) calls).

(** Six calls, two of them failed. *)
Definition sample_calls : list recording :=
  [mkRecording 1 "set" (1 # 10) true None; mkRecording 2 "get" (1 # 10) true None;
   mkRecording 3 "get" (1 # 5) false (Some "boom"); mkRecording 4 "set" (1 # 10) true None;
   mkRecording 5 "delete" (1 # 10) false (Some ""); mkRecording 6 "get" (1 # 10) true None].

(** * Properties *)

(** ** Outcomes and comparisons *)

Lemma bind_Done {A B : Type} (a : A) (k : A → outcome B) : Done a ≫= k = k a.
Proof. reflexivity. Qed.

Lemma bind_Deadlock {A B : Type} (k : A → outcome B) : Deadlock ≫= k = Deadlock.
Proof. reflexivity. Qed.

Lemma bind_Done_inv {A B : Type} (m : outcome A) (k : A → outcome B) (b : B) :
  m ≫= k = Done b → ∃ a, m = Done a ∧ k a = Done b.
Proof. destruct m as [a| |]; [eauto | discriminate..]. Qed.

Lemma Qltb_lt (a b : Q) : Qltb a b = true ↔ (a < b)%Q.
Proof.
  unfold Qltb. rewrite negb_true_iff, <- not_true_iff_false, Qle_bool_iff.
  split; [apply Qnot_le_lt | apply Qlt_not_le].
Qed.

Lemma Qltb_ge (a b : Q) : Qltb a b = false ↔ (b <= a)%Q.
Proof. unfold Qltb. rewrite negb_false_iff. apply Qle_bool_iff. Qed.

Lemma Qeq_bool_false (a b : Q) : Qeq_bool a b = false ↔ ¬ (a == b)%Q.
Proof. rewrite <- not_true_iff_false, Qeq_bool_iff. reflexivity. Qed.

(** ** The linked list, when its lock is free *)

Lemma add_to_front_free k l :
  AsyncDoublyLinkedList.add_to_front k (dll_of l) = Done (dll_of (k :: l)).
Proof. reflexivity. Qed.

Lemma remove_node_free k l :
  AsyncDoublyLinkedList.remove_node k (dll_of l) = Done (dll_of (filter (λ x, x ≠ k) l)).
Proof. reflexivity. Qed.

Lemma move_to_front_free k l :
  AsyncDoublyLinkedList.move_to_front k (dll_of l) = Done (dll_of (touch k l)).
Proof. reflexivity. Qed.

Lemma remove_node_held k l :
  AsyncDoublyLinkedList.remove_node k (AsyncDoublyLinkedList.mk l true) = Deadlock.
Proof. reflexivity. Qed.

Lemma remove_from_end_empty :
  AsyncDoublyLinkedList.remove_from_end (dll_of []) = Done (None, dll_of []).
Proof. reflexivity. Qed.

(** The non-reentrant lock: on a non-empty list [remove_from_end] waits for
    the lock it holds itself. *)
Lemma remove_from_end_nonempty l :
  l ≠ [] → AsyncDoublyLinkedList.remove_from_end (dll_of l) = Deadlock.
Proof.
  intros Hl. unfold AsyncDoublyLinkedList.remove_from_end. simpl.
  destruct (last l) as [lru|] eqn:E.
  - reflexivity.
  - apply last_None in E. contradiction.
Qed.

(** ** The cache, when its locks are free *)

Lemma lru_get_free now k cap m l :
  AsyncLRUCache.get now k (cache_of cap m l) =
  match m !! k with
  | None => Done (None, cache_of cap m l)
  | Some node =>
      if AsyncLRUCache._is_expired now node
      then Done (None, cache_of cap (base.delete k m) (filter (λ x, x ≠ k) l))
      else Done (Some (value node),
                 cache_of cap (<[k := touched now node]> m) (touch k l))
  end.
Proof.
  unfold AsyncLRUCache.get. simpl.
  destruct (m !! k) as [node|]; [|reflexivity].
  destruct (AsyncLRUCache._is_expired now node); reflexivity.
Qed.

Lemma lru_get_raw_free now k cap m l :
  AsyncLRUCache.get_raw now k (cache_of cap m l) =
  match m !! k with
  | None => Done (None, cache_of cap m l)
  | Some node =>
      if AsyncLRUCache._is_expired now node
      then Done (None, cache_of cap (base.delete k m) (filter (λ x, x ≠ k) l))
      else Done (Some (value node, expires_at node), cache_of cap m l)
  end.
Proof.
  unfold AsyncLRUCache.get_raw. simpl.
  destruct (m !! k) as [node|]; [|reflexivity].
  destruct (AsyncLRUCache._is_expired now node); reflexivity.
Qed.

Lemma lru_delete_free k cap m l :
  AsyncLRUCache.delete k (cache_of cap m l) =
  match m !! k with
  | None => Done (false, cache_of cap m l)
  | Some _ => Done (true, cache_of cap (base.delete k m) (filter (λ x, x ≠ k) l))
  end.
Proof.
  unfold AsyncLRUCache.delete. simpl.
  destruct (m !! k); reflexivity.
Qed.

Lemma lru_put_free now k v ttl cap m l :
  AsyncLRUCache.put now k v ttl (cache_of cap m l) =
  match m !! k with
  | Some _ =>
      Done (cache_of cap (<[k := AsyncNode_init now v ttl]> m) (touch k l))
  | None =>
      if bool_decide (cap ≤ Z.of_nat (size m)) then
        match l with
        | [] => Done (cache_of cap (<[k := AsyncNode_init now v ttl]> m) [k])
        | _ :: _ => Deadlock
        end
      else Done (cache_of cap (<[k := AsyncNode_init now v ttl]> m) (k :: l))
  end.
Proof.
  unfold AsyncLRUCache.put. simpl.
  destruct (m !! k); [reflexivity|].
  destruct (bool_decide (cap ≤ Z.of_nat (size m))); [|reflexivity].
  destruct l as [|x l]; [reflexivity|].
  simpl. rewrite remove_from_end_nonempty by discriminate. reflexivity.
Qed.

Lemma lru_size_free cap m l :
  AsyncLRUCache.size (cache_of cap m l) = Done (size m, cache_of cap m l).
Proof. reflexivity. Qed.

Lemma lru_get_all_keys_free cap m l :
  AsyncLRUCache.get_all_keys (cache_of cap m l) =
  Done (elements (dom m), cache_of cap m l).
Proof. reflexivity. Qed.

Lemma lru_put_result now k v ttl cap m l :
  AsyncLRUCache.put now k v ttl (cache_of cap m l) =
  '(m', l') ← put_result now k v ttl cap m l; Done (cache_of cap m' l').
Proof.
  rewrite lru_put_free. unfold put_result.
  destruct (m !! k); [reflexivity|].
  destruct (bool_decide _); [|reflexivity].
  destruct l; reflexivity.
Qed.

Lemma put_result_lookup_ne now k v ttl cap m l m' l' k' :
  put_result now k v ttl cap m l = Done (m', l') →
  k' ≠ k → m' !! k' = m !! k'.
Proof.
  unfold put_result. intros H Hne.
  destruct (m !! k).
  - injection H as <- <-. by rewrite lookup_insert_ne.
  - destruct (bool_decide _); [destruct l; [|done]|];
      injection H as <- <-; by rewrite lookup_insert_ne.
Qed.

Lemma put_result_lookup now k v ttl cap m l m' l' :
  put_result now k v ttl cap m l = Done (m', l') →
  m' !! k = Some (AsyncNode_init now v ttl).
Proof.
  unfold put_result. intros H.
  destruct (m !! k).
  - injection H as <- <-. by rewrite lookup_insert_eq.
  - destruct (bool_decide _); [destruct l; [|done]|];
      injection H as <- <-; by rewrite lookup_insert_eq.
Qed.

(** ** The store, when its locks are free *)

Lemma store_size_free namespace cap m l log s nss :
  AsyncKeyValueStore.size namespace (store_of (cache_of cap m l) log s nss) =
  Done (key_count namespace m, store_of (cache_of cap m l) log s nss).
Proof. destruct namespace; reflexivity. Qed.

Lemma init_namespace_stats_free namespace c log s nss :
  AsyncKeyValueStore._init_namespace_stats namespace (AsyncKeyValueStore.mk c log s nss true) =
  AsyncKeyValueStore.mk c log s (init_ns (AsyncKeyValueStore.ns_label namespace) nss) true.
Proof.
  unfold AsyncKeyValueStore._init_namespace_stats, init_ns. simpl.
  destruct (nss !! _); reflexivity.
Qed.

Lemma lru_put_overflow_free k cap m l :
  AsyncLRUCache.put_overflow k (cache_of cap m l) =
  '(m', l') ← overflow_result k cap m l; Done (cache_of cap m' l').
Proof.
  unfold AsyncLRUCache.put_overflow, overflow_result. simpl.
  destruct (m !! k); [reflexivity|].
  destruct (bool_decide _); [|reflexivity].
  destruct l as [|x l]; [reflexivity|].
  simpl. rewrite remove_from_end_nonempty by done. reflexivity.
Qed.

Lemma overflow_result_Done k cap m l x : overflow_result k cap m l ≠ Done x.
Proof.
  unfold overflow_result. destruct (m !! k); [done|].
  destruct (bool_decide _); [|done]. by destruct l.
Qed.

Lemma store_set_free now key v ttl namespace cap m l log s nss :
  AsyncKeyValueStore.set now key v ttl namespace (store_of (cache_of cap m l) log s nss) =
  '(m', l') ← set_result now (AsyncKeyValueStore._make_namespaced_key namespace key) v
                ttl cap m l;
  Done (store_of (cache_of cap m' l')
          (appended log (SET now key v ttl namespace))
          (logged s)
          (alter (AsyncKeyValueStore.set_total_keys (key_count namespace m'))
             (AsyncKeyValueStore.ns_label namespace)
             (init_ns (AsyncKeyValueStore.ns_label namespace) nss))).
Proof.
  unfold AsyncKeyValueStore.set, set_result. simpl.
  destruct (converts ttl).
  - rewrite lru_put_result.
    destruct (put_result _ _ _ _ _ _ _) as [[m' l']| |]; [|reflexivity..].
    simpl. unfold AsyncKeyValueStore._log_operation. simpl.
    rewrite init_namespace_stats_free.
    destruct namespace; reflexivity.
  - rewrite lru_put_overflow_free.
    destruct (overflow_result _ _ _ _) as [x| |] eqn:E; [|reflexivity..].
    by apply overflow_result_Done in E.
Qed.

(** A [set] that returns had a TTL that converts. *)
Ltac set_returns H :=
  unfold set_result in H;
  let Hc := fresh "Hconv" in
  destruct (converts _) eqn:Hc;
  [| exfalso; repeat (apply bind_Done_inv in H as (? & H & _));
     by apply overflow_result_Done in H].

Lemma lru_get_result now k cap m l :
  AsyncLRUCache.get now k (cache_of cap m l) =
  let '(r, m', l') := get_result now k m l in Done (r, cache_of cap m' l').
Proof.
  rewrite lru_get_free. unfold get_result.
  destruct (m !! k) as [node|]; [|reflexivity].
  destruct (AsyncLRUCache._is_expired now node); reflexivity.
Qed.

Lemma store_get_free now key namespace cap m l log s nss :
  AsyncKeyValueStore.get now key namespace (store_of (cache_of cap m l) log s nss) =
  let '(r, m', l') :=
    get_result now (AsyncKeyValueStore._make_namespaced_key namespace key) m l in
  let label := AsyncKeyValueStore.ns_label namespace in
  Done (r, store_of (cache_of cap m' l') log
             (if bool_decide (is_Some r) then AsyncKeyValueStore.count_hit s
              else AsyncKeyValueStore.count_miss s)
             (alter (if bool_decide (is_Some r) then AsyncKeyValueStore.ns_count_hit
                     else AsyncKeyValueStore.ns_count_miss)
                label (init_ns label nss))).
Proof.
  unfold AsyncKeyValueStore.get. simpl.
  rewrite lru_get_result.
  destruct (get_result _ _ _ _) as [[r m'] l']. simpl.
  unfold AsyncKeyValueStore.with_cache. simpl.
  rewrite init_namespace_stats_free.
  destruct r; reflexivity.
Qed.

Lemma store_delete_free now key namespace cap m l log s nss :
  AsyncKeyValueStore.delete now key namespace (store_of (cache_of cap m l) log s nss) =
  let full_key := AsyncKeyValueStore._make_namespaced_key namespace key in
  let label := AsyncKeyValueStore.ns_label namespace in
  match m !! full_key with
  | None => Done (false, store_of (cache_of cap m l) log s nss)
  | Some _ =>
      let m' := base.delete full_key m in
      Done (true, store_of (cache_of cap m' (filter (λ x, x ≠ full_key) l))
                    (appended log (DEL now key namespace))
                    (logged s)
                    (alter (AsyncKeyValueStore.set_total_keys (key_count namespace m'))
                       label (init_ns label nss)))
  end.
Proof.
  unfold AsyncKeyValueStore.delete. simpl.
  rewrite lru_delete_free.
  destruct (m !! _); [|reflexivity].
  simpl. unfold AsyncKeyValueStore._log_operation. simpl.
  rewrite init_namespace_stats_free.
  destruct namespace; reflexivity.
Qed.

(** From here on the operations are used through the equations above. *)
Arguments AsyncKeyValueStore.size : simpl never.
Arguments AsyncKeyValueStore.set : simpl never.
Arguments AsyncKeyValueStore.get : simpl never.
Arguments AsyncKeyValueStore.delete : simpl never.
Arguments AsyncKeyValueStore.compact_log : simpl never.
Arguments AsyncKeyValueStore._make_namespaced_key : simpl never.
Arguments AsyncKeyValueStore.ns_label : simpl never.

(** ** Quiescent stores *)

Lemma quiescent_store_of cap m l log s nss :
  quiescent (store_of (cache_of cap m l) log s nss).
Proof. repeat split. Qed.

Lemma quiescent_inv st :
  quiescent st →
  ∃ cap m l log s nss, st = store_of (cache_of cap m l) log s nss.
Proof.
  destruct st as [[cap m [l lk2] lk1] log s nss lk].
  intros (H1 & H2 & H3). simpl in *. subst. by exists cap, m, l, log, s, nss.
Qed.

Ltac open_store st H :=
  let cap := fresh "cap" in
  let m := fresh "m" in
  let l := fresh "l" in
  let log := fresh "log" in
  let s := fresh "s" in
  let nss := fresh "nss" in
  destruct (quiescent_inv st H) as (cap & m & l & log & s & nss & ->); clear H.

Lemma init_ns_lookup label nss :
  init_ns label nss !! label = Some (default zero_ns (nss !! label)).
Proof.
  unfold init_ns. destruct (nss !! label) eqn:E; simpl.
  - by rewrite E.
  - by rewrite lookup_insert_eq.
Qed.

Lemma init_ns_lookup_ne label label' nss :
  label ≠ label' → init_ns label nss !! label' = nss !! label'.
Proof.
  intros Hne. unfold init_ns. destruct (nss !! label); [done|].
  by rewrite lookup_insert_ne.
Qed.

Lemma touch_head k l : head (touch k l) = Some k.
Proof. reflexivity. Qed.

Lemma not_elem_of_filter_ne (k : string) (l : list string) :
  ¬ (k ∈ filter (λ x, x ≠ k) l).
Proof. rewrite list_elem_of_filter. tauto. Qed.


Lemma sample_store_lookup :
  entries sample_store !! AsyncKeyValueStore._make_namespaced_key None "a" =
  Some {| value := "1"; expires_at := Some 10%Q; access_time := 0%Q |}.
Proof. vm_compute. reflexivity. Qed.


(** C7.  [delete] on a quiescent store: when the full key is present it
    returns true and appends exactly one [DEL] record to the log, after
    which the key is gone, a second [delete] returns false and a [get]
    answers absent; when the full key is absent it returns false and leaves
    the store, and so the log, as it was. *)
Theorem delete_semantics (now : Q) (key : string) (namespace : option string)
    (st : AsyncKeyValueStore.t) :
  quiescent st →
  let full_key := AsyncKeyValueStore._make_namespaced_key namespace key in
  match entries st !! full_key with
  | Some _ =>
      ∃ st',
        AsyncKeyValueStore.delete now key namespace st = Done (true, st') ∧
        quiescent st' ∧
        AsyncKeyValueStore.log_file st' = Some (wal st ++ [DEL now key namespace]) ∧
        entries st' !! full_key = None ∧
        (∀ now', AsyncKeyValueStore.delete now' key namespace st' = Done (false, st')) ∧
        (∀ now', ∃ st'',
            AsyncKeyValueStore.get now' key namespace st' = Done (None, st'') ∧
            wal st'' = wal st')
  | None =>
      AsyncKeyValueStore.delete now key namespace st = Done (false, st)
  end.
Proof.
  intros Hq full_key. open_store st Hq.
  rewrite store_delete_free. fold full_key.
  unfold entries, wal. simpl.
  destruct (m !! full_key) as [node|] eqn:Hm; [|reflexivity].
  eexists. split; [reflexivity|]. simpl.
  split; [apply quiescent_store_of|]. split; [reflexivity|].
  split; [apply lookup_delete_eq|]. split.
  - intros now'. rewrite store_delete_free. fold full_key. simpl.
    by rewrite lookup_delete_eq.
  - intros now'. rewrite store_get_free. fold full_key. unfold get_result.
    rewrite lookup_delete_eq. simpl. eexists. split; reflexivity.
Qed.

Lemma delete_semantics_witness :
  quiescent sample_store ∧
  ∃ st', AsyncKeyValueStore.delete 1 "a" None sample_store = Done (true, st') ∧
         wal st' = [SET 0 "a" "1" (Some 10) None; DEL 1 "a" None] ∧
         AsyncKeyValueStore.delete 2 "a" None st' = Done (false, st').
Proof.
  assert (Hq : quiescent sample_store) by (repeat split).
  split; [exact Hq|].
  pose proof (delete_semantics 1 "a" None sample_store Hq) as H.
  cbv zeta in H. rewrite sample_store_lookup in H.
  destruct H as (st' & Hdel & _ & Hlog & _ & Hagain & _).
  exists st'. split; [exact Hdel|]. split; [|apply Hagain].
  unfold wal at 1. rewrite Hlog. reflexivity.
Defined.

(** ** The representation invariant *)

Lemma consistent_empty : consistent ∅ [].
Proof.
  split; [constructor|]. intros k. rewrite lookup_empty, elem_of_nil.
  split; [tauto | by intros [? ?]].
Qed.

Lemma consistent_length m l : consistent m l → length l = size m.
Proof.
  intros [Hnd Hin].
  rewrite <- size_dom.
  change (size (dom m)) with (length (elements (dom m))).
  apply Permutation_length, NoDup_Permutation; [done | apply NoDup_elements |].
  intros k. by rewrite Hin, elem_of_elements, elem_of_dom.
Qed.

Lemma consistent_nil m : consistent m [] → size m = 0%nat.
Proof. intros H. by rewrite <- (consistent_length m []). Qed.

Lemma consistent_insert_new k node m l :
  m !! k = None → consistent m l → consistent (<[k := node]> m) (k :: l).
Proof.
  intros Hk [Hnd Hin]. split.
  - constructor; [|done]. rewrite Hin, Hk. by intros [? ?].
  - intros k'. rewrite elem_of_cons, Hin, lookup_insert.
    case_decide; subst; [split; eauto | naive_solver].
Qed.

Lemma NoDup_touch k (l : list string) : NoDup l → NoDup (touch k l).
Proof.
  intros Hnd. constructor; [apply not_elem_of_filter_ne | by apply NoDup_filter].
Qed.

Lemma elem_of_touch k k' (l : list string) : k' ∈ touch k l ↔ k' = k ∨ k' ∈ l.
Proof.
  unfold touch. rewrite elem_of_cons, list_elem_of_filter.
  destruct (decide (k' = k)); naive_solver.
Qed.

Lemma consistent_touch k node m l :
  consistent m l → consistent (<[k := node]> m) (touch k l).
Proof.
  intros [Hnd Hin]. split; [by apply NoDup_touch|].
  intros k'. rewrite elem_of_touch, Hin, lookup_insert.
  case_decide; subst; [split; eauto | naive_solver].
Qed.

Lemma consistent_delete k m l :
  consistent m l → consistent (base.delete k m) (filter (λ x, x ≠ k) l).
Proof.
  intros [Hnd Hin]. split; [by apply NoDup_filter|].
  intros k'. rewrite list_elem_of_filter, Hin, lookup_delete.
  case_decide; subst; [|naive_solver].
  split; [naive_solver | by intros [? ?]].
Qed.

Lemma delete_each_free ks cap m l :
  ∃ m' l',
    AsyncLRUCache.delete_each ks (cache_of cap m l) = Done (cache_of cap m' l') ∧
    m' ⊆ m ∧ (consistent m l → consistent m' l').
Proof.
  revert m l. induction ks as [|k ks IH]; intros m l; simpl.
  - by exists m, l.
  - rewrite lru_delete_free. destruct (m !! k) eqn:Hk; simpl.
    + destruct (IH (base.delete k m) (filter (λ x, x ≠ k) l))
        as (m' & l' & -> & Hsub & Hc).
      exists m', l'. split; [done|]. split.
      * etrans; [done | apply delete_subseteq].
      * intros H. by apply Hc, consistent_delete.
    + apply IH.
Qed.

(** A sweep only removes entries. *)
Lemma remove_expired_items_free now cap m l :
  ∃ m' l',
    AsyncLRUCache._remove_expired_items now (cache_of cap m l) =
      Done (cache_of cap m' l') ∧
    m' ⊆ m ∧ (consistent m l → consistent m' l').
Proof. apply delete_each_free. Qed.

Arguments AsyncLRUCache._remove_expired_items : simpl never.

Lemma put_result_consistent now k v ttl cap m l m' l' :
  put_result now k v ttl cap m l = Done (m', l') →
  consistent m l → consistent m' l'.
Proof.
  unfold put_result. intros H Hc.
  destruct (m !! k) eqn:Hk.
  - injection H as <- <-. by apply consistent_touch.
  - destruct (bool_decide _); [destruct l; [|done]|];
      injection H as <- <-; by apply consistent_insert_new.
Qed.

Lemma get_result_consistent now k m l r m' l' :
  get_result now k m l = (r, m', l') →
  consistent m l → consistent m' l'.
Proof.
  unfold get_result. intros H Hc.
  destruct (m !! k) as [node|]; [destruct (AsyncLRUCache._is_expired now node)|];
    injection H as <- <- <-;
    [by apply consistent_delete | by apply consistent_touch | done].
Qed.

(** The size bound that [put] maintains: the capacity, or one entry when the
    capacity is not positive. *)
Lemma put_result_size now k v ttl cap m l m' l' :
  put_result now k v ttl cap m l = Done (m', l') →
  consistent m l →
  Z.of_nat (size m) ≤ Z.max cap 1 → Z.of_nat (size m') ≤ Z.max cap 1.
Proof.
  unfold put_result. intros H Hc Hb.
  destruct (m !! k) eqn:Hk.
  - injection H as <- <-. rewrite map_size_insert_Some; [done | by rewrite Hk].
  - destruct (bool_decide _) eqn:Hfull.
    + destruct l; [|done]. injection H as <- <-.
      rewrite map_size_insert_None by done.
      rewrite (consistent_nil m Hc). lia.
    + injection H as <- <-. apply bool_decide_eq_false in Hfull.
      rewrite map_size_insert_None by done. lia.
Qed.

Lemma get_result_size now k m l r m' l' :
  get_result now k m l = (r, m', l') → (size m' ≤ size m)%nat.
Proof.
  unfold get_result. intros H.
  destruct (m !! k) as [node|] eqn:Hk;
    [destruct (AsyncLRUCache._is_expired now node)|];
    injection H as <- <- <-.
  - rewrite map_size_delete_Some by eauto. lia.
  - rewrite map_size_insert_Some by eauto. lia.
  - lia.
Qed.

Lemma invariant_fresh cap now : invariant cap (store (fresh cap now)).
Proof.
  split; [repeat split | reflexivity | apply consistent_empty |].
  unfold entries. simpl. rewrite map_size_empty. lia.
Qed.

Lemma invariant_step cap o w w' :
  step o w = Done w' → invariant cap (store w) → invariant cap (store w').
Proof.
  destruct w as [now st]. intros Hstep [Hq Hcap Hc Hb].
  simpl in *. open_store st Hq. unfold entries, lru_order in *. simpl in *. subst cap0.
  destruct o as [key v ttl ns|key ns|key ns|d|]; simpl in Hstep.
  - rewrite store_set_free in Hstep. set_returns Hstep.
    destruct (put_result _ _ _ _ _ _ _) as [[m' l']| |] eqn:Hput; [|done..].
    injection Hstep as <-. simpl.
    split; unfold entries, lru_order; simpl;
      eauto using quiescent_store_of, put_result_consistent, put_result_size.
  - rewrite store_get_free in Hstep.
    destruct (get_result _ _ _ _) as [[r m'] l'] eqn:Hget.
    injection Hstep as <-. simpl.
    split; unfold entries, lru_order; simpl;
      eauto using quiescent_store_of, get_result_consistent.
    apply get_result_size in Hget. lia.
  - rewrite store_delete_free in Hstep. simpl in Hstep.
    destruct (m !! _) eqn:Hk; injection Hstep as <-; simpl.
    + split; unfold entries, lru_order; simpl;
        eauto using quiescent_store_of, consistent_delete.
      rewrite map_size_delete_Some by eauto. lia.
    + split; unfold entries, lru_order; simpl; eauto using quiescent_store_of.
  - injection Hstep as <-. simpl.
    split; unfold entries, lru_order; simpl; eauto using quiescent_store_of.
  - destruct (remove_expired_items_free now cap m l) as (m' & l' & Hc' & Hsub & Hcons).
    rewrite Hc' in Hstep. simpl in Hstep. injection Hstep as <-. simpl.
    split; unfold entries, lru_order; simpl; eauto using quiescent_store_of.
    apply map_subseteq_size in Hsub. lia.
Qed.

Lemma invariant_run cap ops w w' :
  run ops w = Done w' → invariant cap (store w) → invariant cap (store w').
Proof.
  revert w. induction ops as [|o ops IH]; intros w Hrun Hinv; simpl in Hrun.
  - by injection Hrun as <-.
  - apply bind_Done_inv in Hrun as (w1 & Hstep & Hrun).
    eauto using invariant_step.
Qed.

(** ** Capacity *)

(** C2, as stated, fails for a capacity that is not positive: with capacity
    0 the first [set] finds nothing to evict and inserts all the same, and
    [size()] then answers 1. *)
Lemma size_exceeds_capacity_zero :
  ∃ w, run [OpSet "a" "1" None None] (fresh 0 0) = Done w ∧
       AsyncKeyValueStore.size None (store w) = Done (1%nat, store w) ∧
       ¬ (Z.of_nat 1 ≤ 0).
Proof. eexists. split; [vm_compute; reflexivity|]. split; [reflexivity | lia]. Qed.

(** C2 (amended).  For every capacity of at least 1 and every sequence of
    [set], [get] and [delete] operations (with any passage of time between
    them) that runs to completion on a fresh store, [size()] then returns a
    number that is at most the capacity. *)
Theorem size_bounded_by_capacity (cap : Z) (now : Q) (ops : list op) (w : world) :
  1 ≤ cap →
  run ops (fresh cap now) = Done w →
  ∃ n, AsyncKeyValueStore.size None (store w) = Done (n, store w) ∧ Z.of_nat n ≤ cap.
Proof.
  intros Hcap Hrun.
  destruct (invariant_run cap ops _ _ Hrun (invariant_fresh cap now))
    as [Hq _ _ Hb].
  destruct w as [t st]. simpl in *.
  open_store st Hq. unfold entries in Hb. simpl in Hb.
  rewrite store_size_free. eexists. split; [reflexivity|]. simpl. lia.
Qed.

Lemma size_bounded_by_capacity_witness :
  1 ≤ 2 ∧
  ∃ w, run sample_ops (fresh 2 0) = Done w ∧
       AsyncKeyValueStore.size None (store w) = Done (2%nat, store w).
Proof.
  split; [lia|].
  eexists. split; [vm_compute; reflexivity|].
  destruct (size_bounded_by_capacity 2 0 sample_ops _ ltac:(lia)
              ltac:(vm_compute; reflexivity)) as (n & Hsize & Hn).
  reflexivity.
Defined.

(** ** Eviction *)

(** C3 (what the code does instead of evicting).  After any completed run
    on a fresh store, a [set] of a key that is not in the cache, issued when
    the cache holds at least [capacity] entries and is not empty, never
    returns: [put] awaits [remove_from_end], which takes the list's lock and,
    still holding it, awaits [remove_node], which waits for that same lock. *)
Theorem set_new_key_at_capacity_deadlocks (cap : Z) (now : Q) (ops : list op)
    (w : world) (key v : string) (ttl : option Z) (namespace : option string) :
  run ops (fresh cap now) = Done w →
  entries (store w) !! AsyncKeyValueStore._make_namespaced_key namespace key = None →
  cap ≤ Z.of_nat (size (entries (store w))) →
  (0 < size (entries (store w)))%nat →
  step (OpSet key v ttl namespace) w = Deadlock.
Proof.
  intros Hrun Hnew Hfull Hne.
  destruct (invariant_run cap ops _ _ Hrun (invariant_fresh cap now))
    as [Hq Hcap Hc _].
  destruct w as [t st]. simpl in *. open_store st Hq.
  unfold entries, lru_order in *. simpl in *. subst cap0.
  rewrite store_set_free. unfold set_result, put_result, overflow_result.
  destruct (converts ttl); rewrite Hnew, bool_decide_eq_true_2 by done;
    (destruct l as [|x l]; [|reflexivity]);
    rewrite (consistent_nil m Hc) in Hne; lia.
Qed.

(** The order that eviction would follow is maintained: a [set] that
    returns leaves its entry at the head of the list, with the value and the
    expiry it was given, and appends one [SET] record to the log. *)
Lemma set_moves_to_head now key v ttl namespace st st' :
  quiescent st →
  AsyncKeyValueStore.set now key v ttl namespace st = Done st' →
  let full_key := AsyncKeyValueStore._make_namespaced_key namespace key in
  head (lru_order st') = Some full_key ∧
  entries st' !! full_key = Some (AsyncNode_init now v (inject_Z <$> ttl)) ∧
  wal st' = wal st ++ [SET now key v ttl namespace].
Proof.
  intros Hq Hset full_key. open_store st Hq.
  rewrite store_set_free in Hset. set_returns Hset. fold full_key in Hset.
  destruct (put_result _ _ _ _ _ _ _) as [[m' l']| |] eqn:Hput; [|done..].
  injection Hset as <-. unfold lru_order, entries, wal. simpl.
  split; [|split; [by eapply put_result_lookup | done]].
  unfold put_result in Hput. destruct (m !! full_key).
  - by injection Hput as _ <-.
  - destruct (bool_decide _); [destruct l; [|done]|]; by injection Hput as _ <-.
Qed.

Lemma set_new_key_at_capacity_deadlocks_witness :
  ∃ w, run s1_prefix (fresh 2 0) = Done w ∧
       entries (store w) !! "c" = None ∧
       2 ≤ Z.of_nat (size (entries (store w))) ∧
       step (OpSet "c" "3" None None) w = Deadlock.
Proof.
  eexists. split; [vm_compute; reflexivity|].
  split; [reflexivity|]. split; [vm_compute; discriminate|].
  apply (set_new_key_at_capacity_deadlocks 2 0 s1_prefix _ "c" "3" None None).
  - vm_compute; reflexivity.
  - reflexivity.
  - vm_compute; discriminate.
  - vm_compute; lia.
Defined.

(** Scenario S1 in full never completes. *)
Example s1_deadlocks :
  run (s1_prefix ++ [OpSet "c" "3" None None]) (fresh 2 0) = Deadlock.
Proof. vm_compute. reflexivity. Qed.

Lemma step_evictions o w w' :
  quiescent (store w) →
  step o w = Done w' →
  evictions (AsyncKeyValueStore.stats (store w')) =
  evictions (AsyncKeyValueStore.stats (store w)).
Proof.
  destruct w as [t st]. simpl. intros Hq Hstep. open_store st Hq.
  destruct o as [key v ttl ns|key ns|key ns|d|]; simpl in Hstep.
  - rewrite store_set_free in Hstep. set_returns Hstep.
    destruct (put_result _ _ _ _ _ _ _) as [[m' l']| |]; [|done..].
    by injection Hstep as <-.
  - rewrite store_get_free in Hstep.
    destruct (get_result _ _ _ _) as [[r m'] l'].
    injection Hstep as <-. simpl. by destruct (bool_decide _).
  - rewrite store_delete_free in Hstep. simpl in Hstep.
    destruct (m !! _); by injection Hstep as <-.
  - by injection Hstep as <-.
  - destruct (remove_expired_items_free t cap m l) as (m' & l' & Hc' & _).
    rewrite Hc' in Hstep. by injection Hstep as <-.
Qed.

(** C9 (what the code does instead of counting).  The [evictions] counter
    is initialised to 0 and no operation ever writes it: after every
    completed run on a fresh store it still reads 0.  (A [set] that would
    have to evict does not complete at all, see C3.) *)
Theorem evictions_never_counted (cap : Z) (now : Q) (ops : list op) (w : world) :
  run ops (fresh cap now) = Done w →
  evictions (AsyncKeyValueStore.stats (store w)) = 0.
Proof.
  intros Hrun.
  enough (∀ w0, invariant cap (store w0) → run ops w0 = Done w →
                evictions (AsyncKeyValueStore.stats (store w)) =
                evictions (AsyncKeyValueStore.stats (store w0))) as H.
  { by rewrite (H _ (invariant_fresh cap now) Hrun). }
  clear Hrun. induction ops as [|o ops IH]; intros w0 Hinv Hrun; simpl in Hrun.
  - by injection Hrun as <-.
  - apply bind_Done_inv in Hrun as (w1 & Hstep & Hrun).
    rewrite (IH w1 (invariant_step _ _ _ _ Hstep Hinv) Hrun).
    apply (step_evictions o); [apply Hinv | done].
Qed.

Lemma evictions_never_counted_witness :
  ∃ w, run sample_ops (fresh 2 0) = Done w ∧
       evictions (AsyncKeyValueStore.stats (store w)) = 0.
Proof.
  eexists. split; [vm_compute; reflexivity|].
  apply (evictions_never_counted 2 0 sample_ops). vm_compute; reflexivity.
Defined.

(** With capacity 1 the second distinct key cannot be stored at all. *)
Example second_key_deadlocks :
  run [OpSet "a" "1" None None; OpSet "b" "2" None None] (fresh 1 0) = Deadlock.
Proof. vm_compute. reflexivity. Qed.

(** ** Namespaces *)

Lemma string_length_app (a b : string) :
  String.length (a +:+ b) = (String.length a + String.length b)%nat.
Proof. induction a as [|c a IH]; simpl; [done | by rewrite IH]. Qed.

Lemma string_app_inv_tail (a b c : string) : a +:+ c = b +:+ c → a = b.
Proof.
  revert b. induction a as [|x a IH]; intros [|y b] H; simpl in *.
  - done.
  - apply (f_equal String.length) in H.
    rewrite !string_length_app in H. simpl in H. lia.
  - apply (f_equal String.length) in H.
    rewrite !string_length_app in H. simpl in H. lia.
  - injection H as -> H. f_equal. by apply IH.
Qed.

Lemma string_app_ne_tail (a c : string) : a ≠ "" → a +:+ c ≠ c.
Proof.
  intros Ha H. apply (string_app_inv_tail a "" c) in H. done.
Qed.

Lemma make_namespaced_key_denoted namespace key :
  AsyncKeyValueStore._make_namespaced_key namespace key =
  match denoted namespace with
  | Some ns => ns +:+ ":" +:+ key
  | None => key
  end.
Proof. by destruct namespace as [[|c ns]|]. Qed.

Lemma denoted_nonempty namespace ns : denoted namespace = Some ns → ns ≠ "".
Proof. destruct namespace as [[|c s]|]; simpl; [done | | done]. by intros [= <-]. Qed.

(** Two different namespaces flatten one key to two different full keys. *)
Lemma make_namespaced_key_ne ns1 ns2 key :
  denoted ns1 ≠ denoted ns2 →
  AsyncKeyValueStore._make_namespaced_key ns1 key ≠
  AsyncKeyValueStore._make_namespaced_key ns2 key.
Proof.
  intros Hne. rewrite !make_namespaced_key_denoted.
  destruct (denoted ns1) as [a|] eqn:E1, (denoted ns2) as [b|] eqn:E2.
  - intros H. apply Hne. f_equal.
    apply (string_app_inv_tail a b (":" +:+ key)). exact H.
  - intros H.
    assert (Hl := f_equal String.length H). rewrite !string_length_app in Hl.
    simpl in Hl. lia.
  - intros H.
    assert (Hl := f_equal String.length H). rewrite !string_length_app in Hl.
    simpl in Hl. lia.
  - done.
Qed.

(** The answer of [get] depends on the entry under the full key only. *)
Lemma get_result_answer now k m l :
  (get_result now k m l).1.1 =
  match m !! k with
  | Some node => if AsyncLRUCache._is_expired now node then None else Some (value node)
  | None => None
  end.
Proof.
  unfold get_result. destruct (m !! k) as [node|]; [|done].
  by destruct (AsyncLRUCache._is_expired now node).
Qed.

Lemma store_get_answer now key namespace cap m l log s nss :
  answer (AsyncKeyValueStore.get now key namespace
            (store_of (cache_of cap m l) log s nss)) =
  Done (match m !! AsyncKeyValueStore._make_namespaced_key namespace key with
        | Some node =>
            if AsyncLRUCache._is_expired now node then None else Some (value node)
        | None => None
        end).
Proof.
  rewrite store_get_free,
    <- (get_result_answer now (AsyncKeyValueStore._make_namespaced_key namespace key) m l).
  by destruct (get_result _ _ _ _) as [[r m'] l'].
Qed.

(** C8, as stated, fails for the pair of the absent namespace and the empty
    string: the two arguments differ and address the same entry. *)
Lemma isolation_fails_for_empty_namespace :
  let st := AsyncKeyValueStore.init 0 2 None in
  (None : option string) ≠ Some "" ∧
  ∃ st',
    AsyncKeyValueStore.set 0 "k" "v" None (Some "") st = Done st' ∧
    answer (AsyncKeyValueStore.get 0 "k" None st) = Done None ∧
    answer (AsyncKeyValueStore.get 0 "k" None st') = Done (Some "v").
Proof.
  split; [discriminate|].
  eexists. split; [vm_compute; reflexivity|]. split; reflexivity.
Qed.

(** C8 (amended).  For every key [k] and every two namespace arguments that
    denote different namespaces (the empty string denoting the default
    namespace, like an absent argument), [k] flattens to two different full
    keys, and a [set(k, v, ns2)] that returns leaves the answer of
    [get(k, ns1)], at any instant, as it was. *)
Theorem namespace_isolation (now now' : Q) (k v : string) (ttl : option Z)
    (ns1 ns2 : option string) (st st' : AsyncKeyValueStore.t) :
  quiescent st →
  denoted ns1 ≠ denoted ns2 →
  AsyncKeyValueStore.set now k v ttl ns2 st = Done st' →
  AsyncKeyValueStore._make_namespaced_key ns1 k ≠
    AsyncKeyValueStore._make_namespaced_key ns2 k ∧
  ∃ r, answer (AsyncKeyValueStore.get now' k ns1 st) = Done r ∧
       answer (AsyncKeyValueStore.get now' k ns1 st') = Done r.
Proof.
  intros Hq Hns Hset.
  pose proof (make_namespaced_key_ne ns1 ns2 k Hns) as Hne.
  split; [exact Hne|].
  open_store st Hq. rewrite store_set_free in Hset. set_returns Hset.
  destruct (put_result _ _ _ _ _ _ _) as [[m' l']| |] eqn:Hput; [|done..].
  injection Hset as <-.
  rewrite !store_get_answer.
  rewrite (put_result_lookup_ne _ _ _ _ _ _ _ _ _ _ Hput Hne).
  eexists. split; reflexivity.
Qed.

Lemma namespace_isolation_witness :
  quiescent sample_store ∧
  denoted (Some "app1") ≠ denoted (Some "app2") ∧
  ∃ st', AsyncKeyValueStore.set 1 "a" "bob" None (Some "app2") sample_store = Done st' ∧
         answer (AsyncKeyValueStore.get 2 "a" (Some "app1") st') = Done None ∧
         answer (AsyncKeyValueStore.get 2 "a" None st') = Done (Some "1").
Proof.
  assert (Hq : quiescent sample_store) by (repeat split).
  assert (Hns : denoted (Some "app1") ≠ denoted (Some "app2")) by discriminate.
  split; [exact Hq|]. split; [exact Hns|].
  eexists. split; [vm_compute; reflexivity|].
  destruct (namespace_isolation 1 2 "a" "bob" None (Some "app1") (Some "app2")
              sample_store _ Hq Hns ltac:(vm_compute; reflexivity))
    as (_ & r & H1 & H2).
  split; [|reflexivity].
  rewrite H2, <- H1. reflexivity.
Defined.

(** *** The empty string as a namespace argument *)

Lemma elem_of_insert_sorted (x s : string) (l : list string) :
  x ∈ insert_sorted s l ↔ x = s ∨ x ∈ l.
Proof.
  induction l as [|y l IH]; simpl.
  - rewrite list_elem_of_singleton, elem_of_nil. tauto.
  - destruct (String.leb s y).
    + by rewrite elem_of_cons.
    + rewrite !elem_of_cons, IH. tauto.
Qed.

Lemma elem_of_sorted (x : string) (l : list string) : x ∈ sorted l ↔ x ∈ l.
Proof.
  induction l as [|y l IH]; simpl; [done|].
  fold (sorted l). rewrite elem_of_insert_sorted, elem_of_cons, IH. tauto.
Qed.

Lemma add_namespace_nonempty (acc : gset string) (key : string) :
  "" ∉ acc → "" ∉ AsyncKeyValueStore.add_namespace acc key.
Proof.
  unfold AsyncKeyValueStore.add_namespace.
  destruct (AsyncKeyValueStore._parse_namespaced_key key) as [[[|c ns]|] k];
    simpl; [done | set_solver | done].
Qed.

Lemma foldl_add_namespace_nonempty (keys : list string) (acc : gset string) :
  "" ∉ acc → "" ∉ foldl AsyncKeyValueStore.add_namespace acc keys.
Proof.
  revert acc. induction keys as [|k keys IH]; intros acc Hacc; simpl; [done|].
  by apply IH, add_namespace_nonempty.
Qed.

Lemma list_namespaces_nonempty st l st' :
  AsyncKeyValueStore.list_namespaces st = Done (l, st') → "" ∉ l.
Proof.
  unfold AsyncKeyValueStore.list_namespaces. intros H.
  apply bind_Done_inv in H as ([keys c] & _ & H). injection H as <- _.
  rewrite elem_of_sorted, elem_of_elements.
  apply foldl_add_namespace_nonempty. set_solver.
Qed.

Lemma counters_set_total_keys n1 n2 label (nss : gmap string NamespaceStats) :
  counters <$> alter (AsyncKeyValueStore.set_total_keys n1) label nss =
  counters <$> alter (AsyncKeyValueStore.set_total_keys n2) label nss.
Proof.
  apply map_eq. intros k. rewrite !lookup_fmap, !lookup_alter.
  case_decide; [|done]. by destruct (nss !! label).
Qed.

(** C10, as stated, fails: [set] with the empty string as namespace does
    not leave the store in the state that [set] without a namespace leaves
    it in.  The [total_keys] gauge of the bucket ["default"] records
    [size("")], the number of keys that start with a colon, and the log
    record carries the empty string. *)
Lemma empty_namespace_differs :
  let st := AsyncKeyValueStore.init 0 2 None in
  ∃ st1 st2,
    AsyncKeyValueStore.set 0 "a" "1" None (Some "") st = Done st1 ∧
    AsyncKeyValueStore.set 0 "a" "1" None None st = Done st2 ∧
    total_keys <$> AsyncKeyValueStore.namespace_stats st1 !! "default" = Some 0 ∧
    total_keys <$> AsyncKeyValueStore.namespace_stats st2 !! "default" = Some 1 ∧
    wal st1 = [SET 0 "a" "1" None (Some "")] ∧
    wal st2 = [SET 0 "a" "1" None None] ∧
    st1 ≠ st2.
Proof.
  eexists _, _. split; [vm_compute; reflexivity|]. split; [vm_compute; reflexivity|].
  repeat split; try reflexivity.
  intros H. apply (f_equal wal) in H. vm_compute in H. discriminate H.
Qed.

(** C10 (amended).  With the empty string as namespace argument, for every
    key, value and TTL: the full key is the bare key and the statistics
    bucket is ["default"], as with an absent namespace; [get] behaves
    identically to [get] with the namespace absent; [set] and [delete]
    return (or fail to return) alike and leave the same cache, so the entry
    is shared with the default namespace, the same counters and a log that
    differs only in spelling the default namespace as the empty string; and
    [list_namespaces] never returns the empty string. *)
Theorem empty_namespace_is_default (now : Q) (key v : string) (ttl : option Z)
    (st : AsyncKeyValueStore.t) :
  quiescent st →
  AsyncKeyValueStore._make_namespaced_key (Some "") key = key ∧
  AsyncKeyValueStore._make_namespaced_key None key = key ∧
  AsyncKeyValueStore.ns_label (Some "") = "default" ∧
  AsyncKeyValueStore.ns_label None = "default" ∧
  AsyncKeyValueStore.get now key (Some "") st = AsyncKeyValueStore.get now key None st ∧
  both agree (AsyncKeyValueStore.set now key v ttl (Some "") st)
             (AsyncKeyValueStore.set now key v ttl None st) ∧
  both (λ a b, a.1 = b.1 ∧ agree a.2 b.2)
       (AsyncKeyValueStore.delete now key (Some "") st)
       (AsyncKeyValueStore.delete now key None st) ∧
  ∀ l st', AsyncKeyValueStore.list_namespaces st = Done (l, st') → "" ∉ l.
Proof.
  intros Hq. do 5 (split; [reflexivity|]).
  split; [|split; [|apply list_namespaces_nonempty]].
  - open_store st Hq. rewrite !store_set_free.
    unfold AsyncKeyValueStore._make_namespaced_key, AsyncKeyValueStore.ns_label.
    simpl.
    destruct (set_result _ _ _ _ _ _ _) as [[m' l']| |]; [|done..].
    simpl. unfold agree, wal. simpl.
    repeat split; eauto.
    + by rewrite !fmap_app.
    + apply counters_set_total_keys.
  - open_store st Hq. rewrite !store_delete_free.
    unfold AsyncKeyValueStore._make_namespaced_key, AsyncKeyValueStore.ns_label.
    simpl.
    destruct (m !! key); simpl; [|by repeat split].
    unfold agree, wal. simpl.
    repeat split; eauto.
    + by rewrite !fmap_app.
    + apply counters_set_total_keys.
Qed.

Lemma empty_namespace_is_default_witness :
  quiescent sample_store ∧
  AsyncKeyValueStore.get 1 "a" (Some "") sample_store =
    AsyncKeyValueStore.get 1 "a" None sample_store ∧
  both agree (AsyncKeyValueStore.set 1 "a" "2" None (Some "") sample_store)
             (AsyncKeyValueStore.set 1 "a" "2" None None sample_store).
Proof.
  assert (Hq : quiescent sample_store) by (repeat split).
  split; [exact Hq|].
  destruct (empty_namespace_is_default 1 "a" "2" None sample_store Hq)
    as (_ & _ & _ & _ & Hget & Hset & _).
  split; [exact Hget | exact Hset].
Defined.

(** ** Time to live *)

Lemma truthy_inject_Z (t : Z) : truthy (Some (inject_Z t)) = negb (t =? 0).
Proof. by destruct t. Qed.

Lemma expiry_inject_Z (now : Q) (t : Z) :
  t ≠ 0 → expiry now (Some (inject_Z t)) = Some (now + inject_Z t)%Q.
Proof.
  intros Ht. unfold expiry. rewrite truthy_inject_Z.
  by destruct (Z.eqb_spec t 0).
Qed.

Lemma expiry_zero (now : Q) : expiry now (Some (inject_Z 0)) = None.
Proof. reflexivity. Qed.

(** Whatever [get] leaves in the dictionary was there before, with the same
    value and the same expiry. *)
Lemma get_result_lookup now k m l r m' l' fk node' :
  get_result now k m l = (r, m', l') →
  m' !! fk = Some node' →
  ∃ node, m !! fk = Some node ∧ value node' = value node ∧
          expires_at node' = expires_at node.
Proof.
  unfold get_result. intros H Hfk.
  destruct (m !! k) as [node|] eqn:Hk;
    [destruct (AsyncLRUCache._is_expired now node)|];
    injection H as <- <- <-.
  - rewrite lookup_delete in Hfk. case_decide; [done|]. eauto.
  - rewrite lookup_insert in Hfk. case_decide; subst.
    + injection Hfk as <-. eauto.
    + eauto.
  - eauto.
Qed.

Lemma step_expires_by full_key e o w w' :
  sets_key full_key o = false →
  step o w = Done w' →
  quiescent (store w) ∧ expires_by full_key e (store w) →
  quiescent (store w') ∧ expires_by full_key e (store w').
Proof.
  destruct w as [t st]. simpl. intros Ho Hstep [Hq He]. open_store st Hq.
  unfold expires_by, entries in *. simpl in *.
  destruct o as [key v ttl ns|key ns|key ns|d|]; simpl in Hstep.
  - rewrite store_set_free in Hstep. set_returns Hstep.
    destruct (put_result _ _ _ _ _ _ _) as [[m' l']| |] eqn:Hput; [|done..].
    injection Hstep as <-. simpl. split; [apply quiescent_store_of|].
    apply bool_decide_eq_false in Ho.
    intros node. rewrite (put_result_lookup_ne _ _ _ _ _ _ _ _ _ _ Hput); [apply He|].
    congruence.
  - rewrite store_get_free in Hstep.
    destruct (get_result _ _ _ _) as [[r m'] l'] eqn:Hget.
    injection Hstep as <-. simpl. split; [apply quiescent_store_of|].
    intros node' Hnode'.
    destruct (get_result_lookup _ _ _ _ _ _ _ _ _ Hget Hnode') as (node & Hn & _ & ->).
    by apply He.
  - rewrite store_delete_free in Hstep. simpl in Hstep.
    destruct (m !! AsyncKeyValueStore._make_namespaced_key ns key) eqn:Hk;
      injection Hstep as <-; simpl;
      (split; [apply quiescent_store_of|]); [|done].
    intros node. rewrite lookup_delete. case_decide; [done | apply He].
  - injection Hstep as <-. by split; [apply quiescent_store_of|].
  - destruct (remove_expired_items_free t cap m l) as (m' & l' & Hc' & Hsub & _).
    rewrite Hc' in Hstep. simpl in Hstep. injection Hstep as <-. simpl.
    split; [apply quiescent_store_of|].
    intros node Hn. apply He. by eapply lookup_weaken.
Qed.

Lemma run_expires_by full_key e ops w w' :
  forallb (λ o, negb (sets_key full_key o)) ops = true →
  run ops w = Done w' →
  quiescent (store w) ∧ expires_by full_key e (store w) →
  quiescent (store w') ∧ expires_by full_key e (store w').
Proof.
  revert w. induction ops as [|o ops IH]; intros w Hops Hrun Hinv; simpl in *.
  - by injection Hrun as <-.
  - apply andb_prop in Hops as [Ho Hops]. apply negb_true_iff in Ho.
    apply bind_Done_inv in Hrun as (w1 & Hstep & Hrun).
    eauto using step_expires_by.
Qed.

(** C4, as stated, fails at the boundary case [t = 0]: a TTL of 0 is falsy
    and the entry is stored without an expiry, so a [get] one second later
    still answers the value. *)
Lemma ttl_zero_does_not_expire :
  ∃ w, run [OpSet "k" "v" (Some 0) None; Tick 1] (fresh 2 0) = Done w ∧
       (0 + inject_Z 0 < clock w)%Q ∧
       answer (AsyncKeyValueStore.get (clock w) "k" None (store w)) = Done (Some "v").
Proof.
  eexists. split; [vm_compute; reflexivity|]. split; reflexivity.
Qed.

(** C4 (amended).  For every key set with a TTL [t] other than 0, and not
    set again since, any [get] of that key issued strictly more than [t]
    seconds after the [set] answers absent, whatever other operations ran in
    between. *)
Theorem ttl_expiry (w w1 w2 : world) (key v : string) (t : Z)
    (namespace : option string) (ops : list op) :
  quiescent (store w) →
  t ≠ 0 →
  step (OpSet key v (Some t) namespace) w = Done w1 →
  forallb (λ o, negb (sets_key
                        (AsyncKeyValueStore._make_namespaced_key namespace key) o))
          ops = true →
  run ops w1 = Done w2 →
  (clock w + inject_Z t < clock w2)%Q →
  answer (AsyncKeyValueStore.get (clock w2) key namespace (store w2)) = Done None.
Proof.
  intros Hq Ht Hset Hops Hrun Hlate.
  set (full_key := AsyncKeyValueStore._make_namespaced_key namespace key) in *.
  assert (quiescent (store w1) ∧
          expires_by full_key (clock w + inject_Z t)%Q (store w1)) as Hinv.
  { destruct w as [now st]. simpl in *. open_store st Hq.
    rewrite store_set_free in Hset. set_returns Hset. fold full_key in Hset.
    destruct (put_result _ _ _ _ _ _ _) as [[m' l']| |] eqn:Hput; [|done..].
    injection Hset as <-. simpl. split; [apply quiescent_store_of|].
    intros node. unfold entries. simpl.
    rewrite (put_result_lookup _ _ _ _ _ _ _ _ _ Hput). intros [= <-].
    simpl. by apply expiry_inject_Z. }
  destruct (run_expires_by _ _ _ _ _ Hops Hrun Hinv) as [Hq2 He].
  destruct w2 as [now2 st2]. simpl in *. open_store st2 Hq2.
  rewrite store_get_answer. fold full_key.
  unfold expires_by, entries in He. simpl in He.
  destruct (m !! full_key) as [node|]; [|done].
  unfold AsyncLRUCache._is_expired. rewrite (He node eq_refl).
  apply Qltb_lt in Hlate. by rewrite Hlate.
Qed.

Lemma ttl_expiry_witness :
  ∃ w1 w2,
    step (OpSet "k" "v" (Some 1) None) (fresh 2 0) = Done w1 ∧
    run [OpGet "k" None; Tick (11 # 10)] w1 = Done w2 ∧
    (clock (fresh 2 0) + inject_Z 1 < clock w2)%Q ∧
    answer (AsyncKeyValueStore.get (clock w2) "k" None (store w2)) = Done None.
Proof.
  eexists _, _. split; [vm_compute; reflexivity|].
  split; [vm_compute; reflexivity|]. split; [reflexivity|].
  eapply (ttl_expiry (fresh 2 0) _ _ "k" "v" 1 None [OpGet "k" None; Tick (11 # 10)]).
  - repeat split.
  - discriminate.
  - vm_compute; reflexivity.
  - reflexivity.
  - vm_compute; reflexivity.
  - reflexivity.
Defined.

(** ** Compaction *)

Lemma split_colon_Some s a b : split_colon s = Some (a, b) → s = a +:+ ":" +:+ b.
Proof.
  revert a. induction s as [|c s IH]; intros a H; simpl in H; [done|].
  destruct (Ascii.eqb_spec c ":"%char) as [->|Hc].
  - by injection H as <- <-.
  - destruct (split_colon s) as [[a' b']|]; [|done].
    injection H as <- <-. by rewrite (IH a' eq_refl) at 1.
Qed.

Lemma parse_namespaced_key_inj k k' :
  AsyncKeyValueStore._parse_namespaced_key k =
  AsyncKeyValueStore._parse_namespaced_key k' → k = k'.
Proof.
  unfold AsyncKeyValueStore._parse_namespaced_key.
  destruct (split_colon k) as [[a b]|] eqn:E, (split_colon k') as [[a' b']|] eqn:E';
    intros H; try discriminate.
  - injection H as <- <-.
    apply split_colon_Some in E, E'. congruence.
  - by injection H.
Qed.

Lemma NoDup_omap_inj {A B : Type} (f : A → option B) (l : list A) :
  (∀ x y b, x ∈ l → y ∈ l → f x = Some b → f y = Some b → x = y) →
  NoDup l → NoDup (omap f l).
Proof.
  induction l as [|x l IH]; intros Hinj Hnd; simpl; [constructor|].
  apply NoDup_cons in Hnd as [Hx Hnd].
  assert (NoDup (omap f l)) as IH'.
  { apply IH; [|done]. intros y z b Hy Hz. apply Hinj; by right. }
  destruct (f x) as [b|] eqn:Hfx; [|done].
  constructor; [|done].
  rewrite list_elem_of_omap. intros (y & Hy & Hfy).
  apply Hx. rewrite (Hinj x y b); [done | by left | by right | done | done].
Qed.

Lemma compacted_entry_record now k node :
  AsyncKeyValueStore.compacted_entry now (k, (value node, expires_at node)) =
  if lasts now node then Some (record_of now k node) else None.
Proof.
  unfold AsyncKeyValueStore.compacted_entry, lasts, record_of, ttl_left.
  destruct (AsyncKeyValueStore._parse_namespaced_key k) as [ns key].
  destruct (expires_at node) as [e|]; [|done].
  destruct (truthy (Some e)); [|done].
  destruct (Z.leb_spec (Z.max 0 (int_of (e - now))) 0),
           (Z.leb_spec 1 (Z.max 0 (int_of (e - now)))); (done || lia).
Qed.

Lemma record_of_inj now k k' node node' :
  record_of now k node = record_of now k' node' → k = k'.
Proof.
  unfold record_of. intros H. apply parse_namespaced_key_inj.
  destruct (AsyncKeyValueStore._parse_namespaced_key k),
           (AsyncKeyValueStore._parse_namespaced_key k').
  by injection H as -> _ _ ->.
Qed.

Lemma purge_lookup now ks m k :
  purge now ks m !! k =
  match m !! k with
  | Some node =>
      if bool_decide (k ∈ ks) && AsyncLRUCache._is_expired now node then None
      else Some node
  | None => None
  end.
Proof.
  unfold purge. destruct (m !! k) as [node|] eqn:Hk.
  - destruct (bool_decide (k ∈ ks) && AsyncLRUCache._is_expired now node) eqn:Hb.
    + apply map_lookup_filter_None. right. intros x Hx Hp.
      assert (x = node) as -> by congruence.
      apply andb_true_iff in Hb as [H1%bool_decide_eq_true H2].
      apply Hp. done.
    + apply map_lookup_filter_Some. split; [done|]. simpl. intros [H1 H2].
      rewrite bool_decide_eq_true_2, H2 in Hb; done.
  - apply map_lookup_filter_None. by left.
Qed.

Lemma snapshot_free now ks cap m l :
  ∃ l', AsyncKeyValueStore.snapshot now ks (cache_of cap m l) =
        Done (omap (snapshot_item now m) ks, cache_of cap (purge now ks m) l').
Proof.
  revert m l. induction ks as [|k ks IH]; intros m l; simpl.
  - exists l. do 3 f_equal. apply map_eq. intros k.
    rewrite purge_lookup. destruct (m !! k); [|done].
    rewrite bool_decide_eq_false_2; [done | apply not_elem_of_nil].
  - rewrite lru_get_raw_free. unfold snapshot_item at 1.
    destruct (m !! k) as [node|] eqn:Hk;
      [destruct (AsyncLRUCache._is_expired now node) eqn:Hexp|]; simpl.
    + destruct (IH (base.delete k m) (filter (λ x, x ≠ k) l)) as (l' & ->). simpl.
      exists l'. f_equal. f_equal.
      * apply list_omap_ext, Forall2_same_length_lookup_2; [done|].
        intros i x y Hx Hy. assert (x = y) as <- by congruence.
        unfold snapshot_item. rewrite lookup_delete.
        case_decide; [subst; by rewrite Hk, Hexp | done].
      * f_equal. apply map_eq. intros k'. rewrite !purge_lookup, lookup_delete.
        case_decide as Hkk.
        -- subst k'. rewrite Hk, Hexp.
           rewrite bool_decide_eq_true_2; [done | by left].
        -- destruct (m !! k') as [node'|]; [|done].
           rewrite (bool_decide_ext (k' ∈ ks) (k' ∈ k :: ks)); [done|].
           rewrite elem_of_cons. naive_solver.
    + destruct (IH m l) as (l' & ->). simpl.
      exists l'. do 3 f_equal. apply map_eq. intros k'. rewrite !purge_lookup.
      destruct (m !! k') as [node'|] eqn:Hk'; [|done].
      destruct (decide (k' = k)) as [->|Hne].
      * assert (node' = node) as -> by congruence. rewrite Hexp.
        by rewrite !andb_false_r.
      * rewrite (bool_decide_ext (k' ∈ ks) (k' ∈ k :: ks)); [done|].
        rewrite elem_of_cons. naive_solver.
    + destruct (IH m l) as (l' & ->). simpl.
      exists l'. do 3 f_equal. apply map_eq. intros k'. rewrite !purge_lookup.
      destruct (m !! k') as [node'|] eqn:Hk'; [|done].
      rewrite (bool_decide_ext (k' ∈ ks) (k' ∈ k :: ks)); [done|].
      rewrite elem_of_cons. split; [tauto|]. intros [->|?]; [congruence | done].
Qed.

Lemma snapshot_item_Some now m k item :
  snapshot_item now m k = Some item ↔
  ∃ node, m !! k = Some node ∧ AsyncLRUCache._is_expired now node = false ∧
          item = (k, (value node, expires_at node)).
Proof.
  unfold snapshot_item. destruct (m !! k) as [node|].
  - destruct (AsyncLRUCache._is_expired now node) eqn:E; split.
    + done.
    + intros (node' & [= <-] & ? & _). congruence.
    + intros [= <-]. eauto.
    + by intros (node' & [= <-] & _ & ->).
  - split; [done | by intros (? & ? & _)].
Qed.

Lemma elem_of_compacted now m e :
  e ∈ compacted now m ↔
  ∃ k node, m !! k = Some node ∧ AsyncLRUCache._is_expired now node = false ∧
            lasts now node = true ∧ e = record_of now k node.
Proof.
  unfold compacted. rewrite list_elem_of_omap. split.
  - intros (item & Hitem & He).
    apply list_elem_of_omap in Hitem as (k & _ & Hk).
    apply snapshot_item_Some in Hk as (node & Hm & Hexp & ->).
    rewrite compacted_entry_record in He.
    destruct (lasts now node) eqn:Hl; [|done]. injection He as <-.
    by exists k, node.
  - intros (k & node & Hm & Hexp & Hl & ->).
    exists (k, (value node, expires_at node)). split.
    + apply list_elem_of_omap. exists k. split.
      * apply elem_of_elements, elem_of_dom. eauto.
      * apply snapshot_item_Some. eauto.
    + by rewrite compacted_entry_record, Hl.
Qed.

Lemma NoDup_compacted now m : NoDup (compacted now m).
Proof.
  unfold compacted. apply NoDup_omap_inj.
  - intros x y e Hx Hy Hex Hey.
    apply list_elem_of_omap in Hx as (k & _ & Hk), Hy as (k' & _ & Hk').
    apply snapshot_item_Some in Hk as (node & Hm & _ & ->).
    apply snapshot_item_Some in Hk' as (node' & Hm' & _ & ->).
    rewrite compacted_entry_record in Hex, Hey.
    destruct (lasts now node); [|done]. destruct (lasts now node'); [|done].
    assert (k = k') as <-.
    { apply (record_of_inj now k k' node node'). congruence. }
    congruence.
  - apply NoDup_omap_inj; [|apply NoDup_elements].
    intros k k' item _ _ Hk Hk'.
    apply snapshot_item_Some in Hk as (node & _ & _ & ->).
    apply snapshot_item_Some in Hk' as (node' & _ & _ & [= -> _ _]). done.
Qed.

Lemma purge_all now m :
  purge now (elements (dom m)) m =
  filter (λ kn, AsyncLRUCache._is_expired now kn.2 = false) m.
Proof.
  apply map_eq. intros k. rewrite purge_lookup, map_lookup_filter.
  destruct (m !! k) as [node|] eqn:Hk; simpl; [|done].
  rewrite bool_decide_eq_true_2 by (apply elem_of_elements, elem_of_dom; eauto).
  simpl. case_guard as Hg; simpl in Hg; simpl; rewrite ?Hg; [done|].
  by destruct (AsyncLRUCache._is_expired now node).
Qed.

(** C5, as stated, fails for an entry with less than one whole second left:
    half a second before its expiry the entry is live ([get] answers its
    value) and compaction writes no record for it. *)
Lemma compaction_drops_live_entry :
  ∃ w st',
    run [OpSet "k" "v" (Some 1) None; Tick (1 # 2)] (fresh 3 0) = Done w ∧
    AsyncKeyValueStore.compact_log (clock w) (store w) = Done st' ∧
    AsyncKeyValueStore.log_file st' = Some [] ∧
    is_Some (entries st' !! "k") ∧
    answer (AsyncKeyValueStore.get (clock w) "k" None st') = Done (Some "v").
Proof.
  eexists _, _. split; [vm_compute; reflexivity|].
  split; [vm_compute; reflexivity|].
  split; [reflexivity|]. split; [by eexists | reflexivity].
Qed.

(** C5 also fails for a full key that starts with a colon: its record
    carries the empty namespace, which recovery takes for no namespace, so
    that the record names the key without the colon.  With [":k"] and ["k"]
    stored, the compacted log holds two records for ["k"] and none for
    [":k"], and recovery restores one entry. *)
Example compaction_misnames_leading_colon :
  ∃ w st' st_r,
    run [OpSet ":k" "1" None None; OpSet "k" "2" None None] (fresh 3 0) = Done w ∧
    AsyncKeyValueStore.compact_log (clock w) (store w) = Done st' ∧
    size (entries st') = 2%nat ∧
    omap logged_key (wal st') = ["k"; "k"] ∧
    restart 1 3 st' = Done st_r ∧
    size (entries st_r) = 1%nat ∧
    entries st_r !! ":k" = None.
Proof.
  eexists _, _, _. split; [vm_compute; reflexivity|].
  split; [vm_compute; reflexivity|]. split; [vm_compute; reflexivity|].
  split; [vm_compute; reflexivity|]. split; [vm_compute; reflexivity|].
  split; vm_compute; reflexivity.
Qed.

Lemma prefix_colon_split (s : string) :
  String.prefix ":" s =
  match split_colon s with
  | Some (EmptyString, _) => true
  | _ => false
  end.
Proof.
  destruct s as [|c s]; [done|]. cbn [String.prefix split_colon].
  destruct (Ascii.eqb_spec c ":"%char) as [->|Hc].
  - destruct (ascii_dec ":" ":"); [by destruct s | congruence].
  - destruct (ascii_dec ":" c) as [<-|]; [congruence|].
    by destruct (split_colon s) as [[]|].
Qed.

Lemma make_parse_id (full_key : string) :
  String.prefix ":" full_key = false →
  AsyncKeyValueStore._make_namespaced_key
    (AsyncKeyValueStore._parse_namespaced_key full_key).1
    (AsyncKeyValueStore._parse_namespaced_key full_key).2 = full_key.
Proof.
  rewrite prefix_colon_split.
  unfold AsyncKeyValueStore._parse_namespaced_key.
  destruct (split_colon full_key) as [[[|c a] b]|] eqn:E; [done| |done].
  intros _. apply split_colon_Some in E.
  unfold AsyncKeyValueStore._make_namespaced_key. cbn [fst snd truthy_str].
  by rewrite E.
Qed.

Lemma records_record_of now k node :
  String.prefix ":" k = false → records now (record_of now k node) k node.
Proof.
  intros Hk. apply make_parse_id in Hk. unfold record_of.
  destruct (AsyncKeyValueStore._parse_namespaced_key k) as [ns key].
  simpl in *. done.
Qed.

Lemma compacted_records now m (ks : list string) :
  (∀ k, k ∈ ks → String.prefix ":" k = false) →
  Forall2 (λ e kn, records now e kn.1 kn.2)
    (omap (AsyncKeyValueStore.compacted_entry now) (omap (snapshot_item now m) ks))
    (omap (kept_item now m) ks).
Proof.
  induction ks as [|k ks IH]; intros Hks; [constructor|].
  assert (Forall2 (λ e kn, records now e kn.1 kn.2)
            (omap (AsyncKeyValueStore.compacted_entry now)
                  (omap (snapshot_item now m) ks))
            (omap (kept_item now m) ks)) as IH'.
  { apply IH. intros k' Hk'. apply Hks. by right. }
  change (omap (snapshot_item now m) (k :: ks))
    with (match snapshot_item now m k with
          | Some item => item :: omap (snapshot_item now m) ks
          | None => omap (snapshot_item now m) ks
          end).
  change (omap (kept_item now m) (k :: ks))
    with (match kept_item now m k with
          | Some kn => kn :: omap (kept_item now m) ks
          | None => omap (kept_item now m) ks
          end).
  unfold snapshot_item at 1, kept_item at 1.
  destruct (m !! k) as [node|]; [|done].
  destruct (AsyncLRUCache._is_expired now node); [done|].
  change (omap (AsyncKeyValueStore.compacted_entry now)
            ((k, (value node, expires_at node)) :: omap (snapshot_item now m) ks))
    with (match AsyncKeyValueStore.compacted_entry now
                  (k, (value node, expires_at node)) with
          | Some e => e :: omap (AsyncKeyValueStore.compacted_entry now)
                             (omap (snapshot_item now m) ks)
          | None => omap (AsyncKeyValueStore.compacted_entry now)
                      (omap (snapshot_item now m) ks)
          end).
  rewrite compacted_entry_record.
  destruct (lasts now node); [|done].
  constructor; [|done]. apply records_record_of, Hks. by left.
Qed.

Lemma kept_items_perm now m :
  omap (kept_item now m) (elements (dom m)) ≡ₚ
  map_to_list
    (filter (λ kn, lasts now kn.2 = true)
       (filter (λ kn, AsyncLRUCache._is_expired now kn.2 = false) m)).
Proof.
  apply NoDup_Permutation.
  - apply NoDup_omap_inj; [|apply NoDup_elements].
    intros k k' [k0 node] _ _ Hk Hk'. unfold kept_item in Hk, Hk'.
    destruct (m !! k) as [n|]; [|done].
    destruct (AsyncLRUCache._is_expired now n); [done|].
    destruct (lasts now n); [|done]. injection Hk as <- <-.
    destruct (m !! k') as [n'|]; [|done].
    destruct (AsyncLRUCache._is_expired now n'); [done|].
    destruct (lasts now n'); [|done]. by injection Hk' as <- _.
  - apply NoDup_map_to_list.
  - intros [k node]. rewrite list_elem_of_omap, elem_of_map_to_list,
      !map_lookup_filter_Some. simpl. split.
    + intros (k' & _ & Hk'). unfold kept_item in Hk'.
      destruct (m !! k') as [n|] eqn:Hm; [|done].
      destruct (AsyncLRUCache._is_expired now n) eqn:Hexp; [done|].
      destruct (lasts now n) eqn:Hl; [|done]. by injection Hk' as <- <-.
    + intros [[Hm Hexp] Hl]. exists k. split.
      * apply elem_of_elements, elem_of_dom. eauto.
      * unfold kept_item. by rewrite Hm, Hexp, Hl.
Qed.

(** C5 (amended).  [compact()] on a quiescent store whose log file exists
    and none of whose full keys starts with a colon returns; it removes the
    expired entries from the cache, and immediately afterwards the log holds
    exactly one [SET] record for each entry of the cache that has no expiry
    or at least one whole second left before it, and nothing else: the
    records pair off with these entries, each record naming the full key of
    its entry, with the value of the entry and the whole seconds it has left
    as TTL; no two records are alike, none is a [DEL] record, and [log_size]
    is their number. *)
Theorem compaction_postcondition (now : Q) (st : AsyncKeyValueStore.t) :
  quiescent st →
  is_Some (AsyncKeyValueStore.log_file st) →
  map_Forall (λ k _, String.prefix ":" k = false) (entries st) →
  ∃ st',
    AsyncKeyValueStore.compact_log now st = Done st' ∧
    quiescent st' ∧
    entries st' = filter (λ kn, AsyncLRUCache._is_expired now kn.2 = false) (entries st) ∧
    is_Some (AsyncKeyValueStore.log_file st') ∧
    (∃ kept,
       kept ≡ₚ map_to_list (filter (λ kn, lasts now kn.2 = true) (entries st')) ∧
       Forall2 (λ e kn, records now e kn.1 kn.2) (wal st') kept) ∧
    NoDup (wal st') ∧
    Forall (λ e, is_SET e = true ∧ is_DEL e = false) (wal st') ∧
    log_size (AsyncKeyValueStore.stats st') = Z.of_nat (length (wal st')).
Proof.
  intros Hq [log0 Hlog] Hcolon. open_store st Hq. simpl in Hlog. subst log.
  unfold AsyncKeyValueStore.compact_log. simpl.
  unfold AsyncLRUCache.release. simpl.
  destruct (snapshot_free now (elements (dom m)) cap m l) as (l' & ->). simpl.
  eexists. split; [reflexivity|]. unfold entries, wal in *. simpl in *.
  fold (compacted now m). rewrite purge_all.
  split; [apply quiescent_store_of|]. split; [done|]. split; [by eexists|].
  split; [|split; [apply NoDup_compacted|split; [|done]]].
  - exists (omap (kept_item now m) (elements (dom m))).
    split; [apply kept_items_perm|].
    apply compacted_records. intros k Hk.
    apply elem_of_elements, elem_of_dom in Hk as [node Hk].
    by apply (Hcolon k node).
  - apply Forall_forall. intros e He.
    apply elem_of_compacted in He as (k & node & _ & _ & _ & ->).
    unfold record_of. by destruct (AsyncKeyValueStore._parse_namespaced_key k).
Qed.

Lemma compaction_postcondition_witness :
  ∃ w st',
    run [OpSet "a" "1" None None; OpSet "b" "2" (Some 5) (Some "app");
         OpSet "c" "3" (Some 1) None; OpDelete "a" None; Tick (1 # 2)]
        (fresh 3 0) = Done w ∧
    quiescent (store w) ∧
    is_Some (AsyncKeyValueStore.log_file (store w)) ∧
    map_Forall (λ k _, String.prefix ":" k = false) (entries (store w)) ∧
    AsyncKeyValueStore.compact_log (clock w) (store w) = Done st' ∧
    wal st' = [SET (1 # 2) "b" "2" (Some 4) (Some "app")] ∧
    size (entries st') = 2%nat.
Proof.
  eexists _, _.
  match goal with
  | |- run ?ops ?w0 = Done ?w ∧ _ =>
      assert (run ops w0 = Done w) as Hrun by (vm_compute; reflexivity)
  end.
  match type of Hrun with _ = Done ?W => set (w := W) in * end.
  assert (map_Forall (λ k _, String.prefix ":" k = false) (entries (store w)))
    as Hcolon.
  { apply (bool_decide_unpack _). vm_compute. exact I. }
  split; [exact Hrun|]. split; [repeat split|]. split; [by eexists|].
  split; [exact Hcolon|].
  destruct (compaction_postcondition (clock w) (store w) ltac:(repeat split)
              ltac:(by eexists) Hcolon) as (st1 & Hc & _).
  split; [vm_compute; reflexivity|]. split; reflexivity.
Defined.

(** ** Recovery *)

Lemma replay_free now entry cap m l :
  AsyncKeyValueStore.replay now entry (cache_of cap m l) =
  '(m', l') ← replay_result now entry cap m l; Done (cache_of cap m' l').
Proof.
  destruct entry as [ts key v ttl ns|ts key ns]; simpl.
  - destruct ttl as [t|]; [|apply lru_put_result].
    destruct (truthy_int (Some t)); [|apply lru_put_result].
    destruct (Qle_bool _ 0); [reflexivity | apply lru_put_result].
  - rewrite lru_delete_free. by destruct (m !! _).
Qed.

Lemma replay_all_free now entries cap m l :
  AsyncKeyValueStore.replay_all now entries (cache_of cap m l) =
  '(m', l') ← replay_all_result now entries cap m l; Done (cache_of cap m' l').
Proof.
  revert m l. induction entries as [|e es IH]; intros m l; simpl; [done|].
  rewrite replay_free.
  destruct (replay_result now e cap m l) as [[m1 l1]| |]; simpl; [apply IH | done..].
Qed.

Lemma replay_all_result_app now es1 es2 cap m l :
  replay_all_result now (es1 ++ es2) cap m l =
  '(m', l') ← replay_all_result now es1 cap m l;
  replay_all_result now es2 cap m' l'.
Proof.
  revert m l. induction es1 as [|e es IH]; intros m l; simpl; [done|].
  destruct (replay_result now e cap m l) as [[m1 l1]| |]; simpl; [apply IH | done..].
Qed.

Lemma restart_free now cap st :
  restart now cap st =
  '(m, l) ← replay_all_result now (wal st) cap ∅ [];
  Done (store_of (cache_of cap m l) (AsyncKeyValueStore.log_file st)
          {| cache_hits := 0; cache_misses := 0; evictions := 0; log_size := 0;
             last_compaction := None; start_time := now |} ∅).
Proof.
  unfold restart, AsyncKeyValueStore.initialize, AsyncKeyValueStore._recover, wal.
  simpl. destruct (AsyncKeyValueStore.log_file st) as [es|]; simpl; [|done].
  unfold AsyncLRUCache.init, AsyncDoublyLinkedList.init.
  rewrite replay_all_free.
  by destruct (replay_all_result now es cap ∅ []) as [[m l]| |].
Qed.

(** *** What recovery preserves *)

Lemma restores_empty tr mr : restores tr ∅ mr.
Proof. intros k node H. by rewrite lookup_empty in H. Qed.

Lemma restores_insert tr m mr k node node' :
  restores tr m mr →
  value node' = value node →
  same_expiry (expires_at node') (expires_at node) →
  restores tr (<[k := node]> m) (<[k := node']> mr).
Proof.
  intros H Hv He k0 n0. rewrite !lookup_insert. case_decide.
  - intros [= <-] _. eauto.
  - apply H.
Qed.

Lemma restores_insert_dead tr m mr k node :
  restores tr m mr → ¬ time_left tr node → restores tr (<[k := node]> m) mr.
Proof.
  intros H Hdead k0 n0. rewrite lookup_insert. case_decide.
  - intros [= <-] ?. done.
  - apply H.
Qed.

Lemma restores_delete tr m mr k :
  restores tr m mr → restores tr (base.delete k m) (base.delete k mr).
Proof.
  intros H k0 n0. rewrite !lookup_delete. case_decide; [done | apply H].
Qed.

Lemma restores_delete_l tr m mr k :
  restores tr m mr → restores tr (base.delete k m) mr.
Proof.
  intros H k0 n0. rewrite lookup_delete. case_decide; [done | apply H].
Qed.

Lemma put_result_insert now k v ttl cap m l m' l' :
  put_result now k v ttl cap m l = Done (m', l') →
  m' = <[k := AsyncNode_init now v ttl]> m.
Proof.
  unfold put_result. intros H. destruct (m !! k).
  - by injection H as <- _.
  - destruct (bool_decide _); [destruct l; [|done]|]; by injection H as <- _.
Qed.

Lemma truthy_positive (q : Q) : (0 < q)%Q → truthy (Some q) = true.
Proof.
  intros Hq. unfold truthy. apply negb_true_iff, Qeq_bool_false.
  intros Heq. rewrite Heq in Hq. by apply Qlt_irrefl in Hq.
Qed.

(** Replaying the record of a [set] re-establishes the entry, with the
    expiry the original entry has, unless no time is left. *)
Lemma restores_set tr now key v ttl namespace cap cap' m l m' l' mr lr mr' lr' :
  restores tr m mr →
  put_result now (AsyncKeyValueStore._make_namespaced_key namespace key) v
    (inject_Z <$> ttl) cap m l = Done (m', l') →
  replay_result tr (SET now key v ttl namespace) cap' mr lr = Done (mr', lr') →
  restores tr m' mr'.
Proof.
  intros Hres Hput Hrep.
  apply put_result_insert in Hput as ->. simpl in Hrep.
  destruct ttl as [t|]; simpl in *.
  - destruct (Z.eqb_spec t 0) as [->|Ht]; simpl in Hrep.
    + apply put_result_insert in Hrep as ->. by apply restores_insert.
    + destruct (Qle_bool _ 0) eqn:Hskip.
      * injection Hrep as <- <-. apply restores_insert_dead; [done|].
        unfold time_left, AsyncNode_init. cbn [expires_at].
        rewrite expiry_inject_Z by done.
        apply Qle_bool_iff in Hskip. intros Hlt. lra.
      * apply put_result_insert in Hrep as ->. apply restores_insert; [done..|].
        unfold AsyncNode_init. cbn [expires_at]. rewrite expiry_inject_Z by done.
        assert (0 < inject_Z t - (tr - now))%Q as Hpos.
        { apply Qnot_le_lt. intros Hle. apply Qle_bool_iff in Hle. congruence. }
        unfold expiry. rewrite (truthy_positive _ Hpos). simpl. lra.
  - apply put_result_insert in Hrep as ->. by apply restores_insert.
Qed.

Lemma Qltb_proper (a b c : Q) : (a == b)%Q → Qltb a c = Qltb b c.
Proof.
  intros Hab. destruct (Qltb b c) eqn:E.
  - apply Qltb_lt. apply Qltb_lt in E. lra.
  - apply Qltb_ge. apply Qltb_ge in E. lra.
Qed.

Lemma wal_appended st e :
  default [] (appended (AsyncKeyValueStore.log_file st) e) = wal st ++ [e].
Proof. reflexivity. Qed.

Lemma replay_snoc_inv tr es e cap m l m' l' :
  replay_all_result tr (es ++ [e]) cap m l = Done (m', l') →
  ∃ m1 l1, replay_all_result tr es cap m l = Done (m1, l1) ∧
           replay_result tr e cap m1 l1 = Done (m', l').
Proof.
  rewrite replay_all_result_app. intros H.
  apply bind_Done_inv in H as ([m1 l1] & H1 & H2). simpl in H2.
  exists m1, l1. split; [done|].
  by destruct (replay_result tr e cap m1 l1) as [[m2 l2]| |].
Qed.

Lemma step_replay_restores tr cap' o w w' :
  step o w = Done w' →
  quiescent (store w) ∧ replay_restores tr cap' (store w) →
  quiescent (store w') ∧ replay_restores tr cap' (store w').
Proof.
  destruct w as [now st]. simpl. intros Hstep [Hq Hres]. open_store st Hq.
  unfold replay_restores, entries, wal in *. simpl in *.
  destruct o as [key v ttl ns|key ns|key ns|d|]; simpl in Hstep.
  - rewrite store_set_free in Hstep. set_returns Hstep.
    destruct (put_result _ _ _ _ _ _ _) as [[m' l']| |] eqn:Hput; [|done..].
    injection Hstep as <-. simpl. split; [apply quiescent_store_of|].
    intros mr' lr' Hrep.
    apply replay_snoc_inv in Hrep as (mr & lr & Hrep & Hlast).
    eapply restores_set; eauto.
  - rewrite store_get_free in Hstep.
    destruct (get_result _ _ _ _) as [[r m'] l'] eqn:Hget.
    injection Hstep as <-. simpl. split; [apply quiescent_store_of|].
    intros mr lr Hrep k node' Hk Hleft.
    destruct (get_result_lookup _ _ _ _ _ _ _ _ _ Hget Hk) as (node & Hn & Hv & He).
    destruct (Hres mr lr Hrep k node Hn) as (node'' & Hr & Hv' & He').
    { unfold time_left in *. by rewrite <- He. }
    exists node''. rewrite Hv, He. eauto.
  - rewrite store_delete_free in Hstep. simpl in Hstep.
    destruct (m !! AsyncKeyValueStore._make_namespaced_key ns key) eqn:Hk;
      injection Hstep as <-; simpl;
      (split; [apply quiescent_store_of|]); [|done].
    intros mr' lr' Hrep.
    apply replay_snoc_inv in Hrep as (mr & lr & Hrep & Hlast).
    simpl in Hlast.
    destruct (mr !! AsyncKeyValueStore._make_namespaced_key ns key);
      injection Hlast as <- <-.
    + apply restores_delete; eauto.
    + apply restores_delete_l; eauto.
  - injection Hstep as <-. by split; [apply quiescent_store_of|].
  - destruct (remove_expired_items_free now cap m l) as (m' & l' & Hc' & Hsub & _).
    rewrite Hc' in Hstep. simpl in Hstep. injection Hstep as <-. simpl.
    split; [apply quiescent_store_of|].
    intros mr lr Hrep k node Hk. apply (Hres mr lr Hrep). by eapply lookup_weaken.
Qed.

Lemma run_replay_restores tr cap' ops w w' :
  run ops w = Done w' →
  quiescent (store w) ∧ replay_restores tr cap' (store w) →
  quiescent (store w') ∧ replay_restores tr cap' (store w').
Proof.
  revert w. induction ops as [|o ops IH]; intros w Hrun Hinv; simpl in Hrun.
  - by injection Hrun as <-.
  - apply bind_Done_inv in Hrun as (w1 & Hstep & Hrun).
    eauto using step_replay_restores.
Qed.

(** Round trip, whenever the run and the recovery complete: a [get] issued
    strictly after the recovery instant that the store before shutdown would
    answer with a value is answered with that value after recovery. *)
Lemma round_trip_when_complete cap cap' now ops w tr st_r :
  run ops (fresh cap now) = Done w →
  restart tr cap' (store w) = Done st_r →
  quiescent st_r ∧
  ∀ key namespace tg v,
    (tr < tg)%Q →
    answer (AsyncKeyValueStore.get tg key namespace (store w)) = Done (Some v) →
    answer (AsyncKeyValueStore.get tg key namespace st_r) = Done (Some v).
Proof.
  intros Hrun Hrestart.
  destruct (run_replay_restores tr cap' ops _ _ Hrun) as [Hq Hres].
  { split; [repeat split|]. intros mr lr _. apply restores_empty. }
  rewrite restart_free in Hrestart.
  destruct (replay_all_result _ _ _ _ _) as [[mr lr]| |] eqn:Hrep; [|done..].
  injection Hrestart as <-. split; [apply quiescent_store_of|].
  intros key namespace tg v Htg.
  specialize (Hres mr lr Hrep).
  destruct w as [t st]. simpl in *. open_store st Hq.
  rewrite !store_get_answer. unfold entries in Hres. simpl in Hres.
  destruct (m !! _) as [node|] eqn:Hk; [|done].
  destruct (AsyncLRUCache._is_expired tg node) eqn:Hexp; [done|].
  intros [= <-].
  destruct (Hres _ node Hk) as (node' & -> & -> & He).
  { unfold time_left. unfold AsyncLRUCache._is_expired in Hexp.
    destruct (expires_at node) as [e|]; [|done].
    apply Qltb_ge in Hexp. lra. }
  unfold AsyncLRUCache._is_expired in *. unfold same_expiry in He.
  destruct (expires_at node') as [e'|], (expires_at node) as [e|]; try done.
  by rewrite (Qltb_proper e' e tg He), Hexp.
Qed.

(** *** Runs that never need to evict *)

Lemma put_result_within (K : gset string) now k v ttl cap m l :
  k ∈ K → dom m ⊆ K → Z.of_nat (size K) ≤ cap →
  ∃ m' l', put_result now k v ttl cap m l = Done (m', l') ∧ dom m' ⊆ K.
Proof.
  intros Hk Hdom Hcap. unfold put_result.
  destruct (m !! k) eqn:Hmk.
  - eexists _, _. split; [done|]. rewrite dom_insert. set_solver.
  - rewrite bool_decide_eq_false_2.
    + eexists _, _. split; [done|]. rewrite dom_insert. set_solver.
    + assert (size (dom m) < size K)%nat as Hlt.
      { apply subset_size. split; [done|].
        intros Hsub. apply not_elem_of_dom in Hmk. set_solver. }
      rewrite size_dom in Hlt. lia.
Qed.

Lemma logged_keys_snoc es e :
  logged_keys (es ++ [e]) = logged_keys es ∪ logged_keys [e].
Proof.
  unfold logged_keys. rewrite omap_app, list_to_set_app_L. done.
Qed.

Lemma step_within K cap o w :
  Z.of_nat (size K) ≤ cap →
  ttl_converts o = true →
  set_keys [o] ⊆ K →
  within K cap (store w) →
  ∃ w', step o w = Done w' ∧ within K cap (store w').
Proof.
  destruct w as [now st]. simpl. intros Hcap Hconv Ho (Hq & Hc & Hdom & Hlog).
  open_store st Hq. unfold within, entries, wal in *. simpl in *. subst cap0.
  destruct o as [key v ttl ns|key ns|key ns|d|]; simpl.
  - rewrite store_set_free. unfold set_result. simpl in Hconv. rewrite Hconv.
    destruct (put_result_within K now
                (AsyncKeyValueStore._make_namespaced_key ns key) v
                (inject_Z <$> ttl) cap m l) as (m' & l' & -> & Hdom'); try done.
    { unfold set_keys in Ho. simpl in Ho. set_solver. }
    simpl. eexists. split; [reflexivity|]. simpl.
    split; [apply quiescent_store_of|]. split; [done|]. split; [done|].
    rewrite logged_keys_snoc. unfold set_keys in Ho. unfold logged_keys at 2.
    simpl in *. set_solver.
  - rewrite store_get_free.
    destruct (get_result _ _ _ _) as [[r m'] l'] eqn:Hget. simpl.
    eexists. split; [reflexivity|]. simpl.
    split; [apply quiescent_store_of|]. split; [done|]. split; [|done].
    intros k Hk. apply Hdom. apply elem_of_dom in Hk as [node' Hk].
    destruct (get_result_lookup _ _ _ _ _ _ _ _ _ Hget Hk) as (node & Hn & _).
    apply elem_of_dom. eauto.
  - rewrite store_delete_free. simpl.
    destruct (m !! AsyncKeyValueStore._make_namespaced_key ns key) eqn:Hk; simpl.
    + eexists. split; [reflexivity|]. simpl.
      split; [apply quiescent_store_of|]. split; [done|].
      split; [rewrite dom_delete; set_solver|].
      rewrite logged_keys_snoc. unfold logged_keys at 2. simpl. set_solver.
    + eexists. split; [reflexivity|]. simpl.
      by split; [apply quiescent_store_of|].
  - eexists. split; [reflexivity|]. simpl.
    by split; [apply quiescent_store_of|].
  - destruct (remove_expired_items_free now cap m l) as (m' & l' & -> & Hsub & _).
    simpl. eexists. split; [reflexivity|]. simpl.
    split; [apply quiescent_store_of|]. split; [done|]. split; [|done].
    apply subseteq_dom in Hsub. set_solver.
Qed.

Lemma set_keys_cons o ops : set_keys (o :: ops) = set_keys [o] ∪ set_keys ops.
Proof.
  unfold set_keys. change (o :: ops) with ([o] ++ ops).
  by rewrite omap_app, list_to_set_app_L.
Qed.

Lemma run_within K cap ops w :
  Z.of_nat (size K) ≤ cap →
  forallb ttl_converts ops = true →
  set_keys ops ⊆ K →
  within K cap (store w) →
  ∃ w', run ops w = Done w' ∧ within K cap (store w').
Proof.
  intros Hcap. revert w.
  induction ops as [|o ops IH]; intros w Hconv Hops Hw; simpl.
  - eauto.
  - rewrite set_keys_cons in Hops. simpl in Hconv.
    apply andb_true_iff in Hconv as [Ho Hconv].
    destruct (step_within K cap o w Hcap Ho) as (w1 & -> & Hw1);
      [set_solver | done |].
    simpl. apply IH; [done | set_solver | done].
Qed.

Lemma replay_result_within (K : gset string) tr e cap m l :
  Z.of_nat (size K) ≤ cap →
  logged_keys [e] ⊆ K → dom m ⊆ K →
  ∃ m' l', replay_result tr e cap m l = Done (m', l') ∧ dom m' ⊆ K.
Proof.
  intros Hcap He Hdom. destruct e as [ts key v ttl ns|ts key ns]; simpl.
  - assert (AsyncKeyValueStore._make_namespaced_key ns key ∈ K) as Hk.
    { unfold logged_keys in He. simpl in He. set_solver. }
    destruct ttl as [t|]; [|by apply put_result_within].
    destruct (truthy_int (Some t)); [|by apply put_result_within].
    destruct (Qle_bool _ 0); [eauto | by apply put_result_within].
  - destruct (m !! _); eexists _, _; (split; [done|]); [|done].
    rewrite dom_delete. set_solver.
Qed.

Lemma logged_keys_cons e es : logged_keys (e :: es) = logged_keys [e] ∪ logged_keys es.
Proof.
  unfold logged_keys. change (e :: es) with ([e] ++ es).
  by rewrite omap_app, list_to_set_app_L.
Qed.

Lemma replay_all_result_within (K : gset string) tr es cap m l :
  Z.of_nat (size K) ≤ cap →
  logged_keys es ⊆ K → dom m ⊆ K →
  ∃ m' l', replay_all_result tr es cap m l = Done (m', l') ∧ dom m' ⊆ K.
Proof.
  intros Hcap. revert m l. induction es as [|e es IH]; intros m l Hes Hdom; simpl.
  - eauto.
  - rewrite logged_keys_cons in Hes.
    destruct (replay_result_within K tr e cap m l Hcap) as (m1 & l1 & -> & Hdom1);
      [set_solver | done |].
    simpl. apply IH; [set_solver | done].
Qed.

(** C1, as stated, fails at the instant of expiry: an entry whose TTL runs
    out at the very instant recovery reads the clock is not expired for
    [get] (the test is [now > expires_at]) and is skipped by recovery (the
    test is [remaining_ttl <= 0]). *)
Lemma round_trip_fails_at_expiry_instant :
  ∃ w st_r,
    run [OpSet "k" "v" (Some 1) None; Tick 1] (fresh 1 0) = Done w ∧
    (clock w == 1)%Q ∧
    answer (AsyncKeyValueStore.get 1 "k" None (store w)) = Done (Some "v") ∧
    restart 1 1 (store w) = Done st_r ∧
    answer (AsyncKeyValueStore.get 1 "k" None st_r) = Done None.
Proof.
  eexists _, _. split; [vm_compute; reflexivity|].
  split; [reflexivity|]. split; [vm_compute; reflexivity|].
  split; vm_compute; reflexivity.
Qed.

(** A [set] whose TTL is an integer that converts to no float raises
    [OverflowError]; it is left out of C1 as amended.  In the source the
    exception leaves the value of a key that was in the cache overwritten,
    with no record in the log. *)
Example run_raises_on_overflow :
  run [OpSet "k" "v1" None None; OpSet "k" "v2" (Some (2 ^ 1024)) None] (fresh 1 0) =
  Raised OverflowError.
Proof. vm_compute. reflexivity. Qed.

(** C1 (amended).  For every sequence of [set], [get] and [delete]
    operations (with any passage of time between them) whose TTLs convert
    to a float and that sets at most [capacity] distinct full keys, run
    against a fresh store: the run completes; shutting down and running
    recovery, at any instant, on the log it produced completes and yields a
    quiescent store; and every [get] issued strictly after the recovery
    instant that the store before shutdown would answer with a value, the
    key being live and not expired, is answered with that same, last-set,
    value by the recovered store. *)
Theorem round_trip (cap : Z) (now : Q) (ops : list op) (tr : Q) :
  forallb ttl_converts ops = true →
  Z.of_nat (size (set_keys ops)) ≤ cap →
  ∃ w st_r,
    run ops (fresh cap now) = Done w ∧
    restart tr cap (store w) = Done st_r ∧
    quiescent st_r ∧
    ∀ key namespace tg v,
      (tr < tg)%Q →
      answer (AsyncKeyValueStore.get tg key namespace (store w)) = Done (Some v) →
      answer (AsyncKeyValueStore.get tg key namespace st_r) = Done (Some v).
Proof.
  intros Hconv Hcap.
  destruct (run_within (set_keys ops) cap ops (fresh cap now) Hcap Hconv)
    as (w & Hrun & Hq & Hc & Hdom & Hlog); [done | |].
  { split; [repeat split|]. split; [done|].
    unfold entries, wal. simpl. rewrite dom_empty_L. set_solver. }
  destruct (replay_all_result_within (set_keys ops) tr (wal (store w)) cap ∅ [] Hcap)
    as (mr & lr & Hrep & _); [done | by rewrite dom_empty_L |].
  assert (∃ st_r, restart tr cap (store w) = Done st_r) as [st_r Hrestart].
  { rewrite restart_free, Hrep. simpl. eauto. }
  exists w, st_r. split; [done|]. split; [done|].
  by apply (round_trip_when_complete cap cap now ops w tr st_r).
Qed.

Lemma round_trip_witness :
  forallb ttl_converts round_trip_ops = true ∧
  Z.of_nat (size (set_keys round_trip_ops)) ≤ 4 ∧
  ∃ w st_r,
    run round_trip_ops (fresh 4 0) = Done w ∧
    restart 5 4 (store w) = Done st_r ∧
    answer (AsyncKeyValueStore.get 6 "a" None st_r) = Done (Some "4") ∧
    answer (AsyncKeyValueStore.get 6 "c" (Some "app") st_r) = Done (Some "3").
Proof.
  assert (Z.of_nat (size (set_keys round_trip_ops)) ≤ 4) as Hcap.
  { vm_compute. intros H. discriminate H. }
  split; [reflexivity|]. split; [exact Hcap|].
  destruct (round_trip 4 0 round_trip_ops 5 eq_refl Hcap)
    as (w & st_r & Hrun & Hrestart & _ & Hget).
  exists w, st_r. split; [exact Hrun|]. split; [exact Hrestart|].
  vm_compute in Hrun. injection Hrun as <-.
  split; (apply Hget; [reflexivity | vm_compute; reflexivity]).
Defined.

(** Outside that bound recovery itself may not complete, for a run that did
    complete: replay skips the expired [SET] of a key and so keeps the stale
    entry of an earlier [SET] of that key, which the run had dropped; the
    cache is then full when the next key is replayed, and [put] must evict
    (see C3). *)
Example recovery_deadlocks :
  ∃ w,
    run [OpSet "k" "v1" None None; Tick 1; OpSet "k" "v2" (Some 1) None; Tick 2;
         OpGet "k" None; OpSet "j" "w" None None] (fresh 1 0) = Done w ∧
    answer (AsyncKeyValueStore.get 3 "j" None (store w)) = Done (Some "w") ∧
    restart 5 1 (store w) = Deadlock.
Proof.
  eexists. split; [vm_compute; reflexivity|]. split; vm_compute; reflexivity.
Qed.

(** ** The end-to-end scenarios of the specification *)

(** S2: an entry with a TTL of one second is gone after 1.1 seconds. *)
Example s2_expired_entry_is_removed :
  ∃ w st',
    run [OpSet "k" "v" (Some 1) None; Tick (11 # 10)] (fresh 100 0) = Done w ∧
    AsyncKeyValueStore.get (clock w) "k" None (store w) = Done (None, st') ∧
    AsyncKeyValueStore.size None st' = Done (0%nat, st').
Proof.
  eexists _, _. split; [vm_compute; reflexivity|].
  split; vm_compute; reflexivity.
Qed.

(** S3: one key in two namespaces. *)
Example s3_two_namespaces :
  ∃ w,
    run [OpSet "u" "alice" None (Some "app1"); OpSet "u" "bob" None (Some "app2")]
        (fresh 100 0) = Done w ∧
    answer (AsyncKeyValueStore.get 0 "u" (Some "app1") (store w)) = Done (Some "alice") ∧
    answer (AsyncKeyValueStore.get 0 "u" (Some "app2") (store w)) = Done (Some "bob") ∧
    AsyncKeyValueStore.list_namespaces (store w) = Done (["app1"; "app2"], store w).
Proof.
  eexists. split; [vm_compute; reflexivity|].
  repeat split; vm_compute; reflexivity.
Qed.

(** S4: what was written before shutdown is read back after recovery. *)
Example s4_reopen :
  ∃ w st_r,
    run [OpSet "a" "1" None None; OpSet "b" "2" None None; OpSet "c" "3" None None;
         OpSet "a" "4" None None] (fresh 100 0) = Done w ∧
    restart 1 100 (store w) = Done st_r ∧
    answer (AsyncKeyValueStore.get 1 "a" None st_r) = Done (Some "4") ∧
    answer (AsyncKeyValueStore.get 1 "b" None st_r) = Done (Some "2") ∧
    answer (AsyncKeyValueStore.get 1 "c" None st_r) = Done (Some "3") ∧
    AsyncKeyValueStore.size None st_r = Done (3%nat, st_r).
Proof.
  eexists _, _. split; [vm_compute; reflexivity|].
  split; [vm_compute; reflexivity|].
  repeat split; vm_compute; reflexivity.
Qed.

(** S5: with capacity 3 the fourth distinct key is never stored, so the run
    does not reach the compaction. *)
Example s5_deadlocks :
  run [OpSet "a" "1" None None; OpSet "b" "2" None None; OpSet "c" "3" None None;
       OpSet "d" "4" None None; OpSet "e" "5" None None] (fresh 3 0) = Deadlock.
Proof. vm_compute. reflexivity. Qed.

(** S6: delete twice, then recover. *)
Example s6_delete_twice :
  ∃ st1 st2 st3 st_r,
    AsyncKeyValueStore.set 0 "k" "v" None None (AsyncKeyValueStore.init 0 100 None)
      = Done st1 ∧
    AsyncKeyValueStore.delete 0 "k" None st1 = Done (true, st2) ∧
    AsyncKeyValueStore.delete 0 "k" None st2 = Done (false, st3) ∧
    wal st3 = [SET 0 "k" "v" None None; DEL 0 "k" None] ∧
    restart 1 100 st3 = Done st_r ∧
    answer (AsyncKeyValueStore.get 1 "k" None st_r) = Done None.
Proof.
  eexists _, _, _, _. split; [vm_compute; reflexivity|].
  split; [vm_compute; reflexivity|]. split; [vm_compute; reflexivity|].
  repeat split; vm_compute; reflexivity.
Qed.

(** * Further properties of the code *)

(** ** What every completed run keeps *)

(** X1.  After every completed run on a fresh store the dictionary and the
    linked list hold the same keys, each key once in the list, so that the
    list is as long as the dictionary is large, and no lock is held. *)
Theorem run_keeps_index_and_order_in_step (cap : Z) (now : Q) (ops : list op)
    (w : world) :
  run ops (fresh cap now) = Done w →
  quiescent (store w) ∧
  NoDup (lru_order (store w)) ∧
  (∀ k, k ∈ lru_order (store w) ↔ is_Some (entries (store w) !! k)) ∧
  length (lru_order (store w)) = size (entries (store w)).
Proof.
  intros Hrun.
  destruct (invariant_run cap ops _ _ Hrun (invariant_fresh cap now))
    as [Hq _ Hc _].
  split; [done|]. split; [apply Hc|]. split; [apply Hc|].
  by apply consistent_length.
Qed.

Lemma run_keeps_index_and_order_in_step_witness :
  ∃ w, run sample_ops (fresh 2 0) = Done w ∧
       lru_order (store w) = ["app:c"; "a"] ∧
       length (lru_order (store w)) = size (entries (store w)).
Proof.
  eexists. split; [vm_compute; reflexivity|]. split; [reflexivity|].
  apply (run_keeps_index_and_order_in_step 2 0 sample_ops).
  vm_compute; reflexivity.
Defined.

(** X2.  A [set], [get] or [delete] that returns changes the entry of no
    other full key: in particular a [set] that returns has evicted
    nothing. *)
Theorem operation_touches_only_its_key (o : op) (w w' : world) (full_key k : string) :
  quiescent (store w) →
  step o w = Done w' →
  op_key o = Some full_key →
  k ≠ full_key →
  entries (store w') !! k = entries (store w) !! k.
Proof.
  destruct w as [now st]. simpl. intros Hq Hstep Hkey Hne. open_store st Hq.
  unfold entries. simpl.
  destruct o as [key v ttl ns|key ns|key ns|d|]; simpl in Hstep, Hkey;
    try discriminate; injection Hkey as <-.
  - rewrite store_set_free in Hstep. set_returns Hstep.
    destruct (put_result _ _ _ _ _ _ _) as [[m' l']| |] eqn:Hput; [|done..].
    injection Hstep as <-. simpl. by eapply put_result_lookup_ne.
  - rewrite store_get_free in Hstep. unfold get_result in Hstep.
    destruct (m !! AsyncKeyValueStore._make_namespaced_key ns key) as [node|];
      [destruct (AsyncLRUCache._is_expired now node)|];
      injection Hstep as <-; simpl;
      [by rewrite lookup_delete_ne | by rewrite lookup_insert_ne | done].
  - rewrite store_delete_free in Hstep. simpl in Hstep.
    destruct (m !! AsyncKeyValueStore._make_namespaced_key ns key);
      injection Hstep as <-; simpl; [by rewrite lookup_delete_ne | done].
Qed.

Lemma operation_touches_only_its_key_witness :
  ∃ w w',
    run s1_prefix (fresh 3 0) = Done w ∧
    step (OpSet "c" "3" None None) w = Done w' ∧
    entries (store w') !! "b" = entries (store w) !! "b".
Proof.
  eexists _, _. split; [vm_compute; reflexivity|].
  split; [vm_compute; reflexivity|].
  eapply (operation_touches_only_its_key (OpSet "c" "3" None None) _ _ "c" "b").
  - repeat split.
  - vm_compute; reflexivity.
  - reflexivity.
  - discriminate.
Defined.

(** X3.  A [get] changes the answer of no [get] at the same instant, neither
    its own nor that of any other key: removing an expired entry and moving
    a live one to the head are not observable through [get]. *)
Theorem get_preserves_answers (now : Q) (key key' : string)
    (namespace namespace' : option string) (st st' : AsyncKeyValueStore.t)
    (r : option string) :
  quiescent st →
  AsyncKeyValueStore.get now key namespace st = Done (r, st') →
  answer (AsyncKeyValueStore.get now key namespace st') = Done r ∧
  answer (AsyncKeyValueStore.get now key' namespace' st') =
    answer (AsyncKeyValueStore.get now key' namespace' st).
Proof.
  intros Hq Hget. open_store st Hq.
  rewrite store_get_free in Hget. unfold get_result in Hget.
  remember (AsyncKeyValueStore._make_namespaced_key namespace key) as fk.
  remember (AsyncKeyValueStore._make_namespaced_key namespace' key') as fk'.
  destruct (m !! fk) as [node|] eqn:Hm;
    [destruct (AsyncLRUCache._is_expired now node) eqn:Hexp|];
    injection Hget as <- <-; rewrite !store_get_answer; rewrite <- ?Heqfk, <- ?Heqfk'.
  - rewrite lookup_delete_eq. split; [done|].
    rewrite lookup_delete. case_decide as Hd; [|done]. rewrite <- Hd.
    by rewrite Hm, Hexp.
  - rewrite lookup_insert_eq. unfold touched at 1 2. simpl.
    unfold AsyncLRUCache._is_expired in *. simpl. rewrite Hexp.
    split; [done|]. rewrite lookup_insert. case_decide as Hd; [|done]. rewrite <- Hd.
    rewrite Hm. simpl. by rewrite Hexp.
  - by rewrite Hm.
Qed.

Lemma get_preserves_answers_witness :
  quiescent sample_store ∧
  ∃ st', AsyncKeyValueStore.get 1 "a" None sample_store = Done (Some "1", st') ∧
         answer (AsyncKeyValueStore.get 1 "a" None st') = Done (Some "1").
Proof.
  assert (Hq : quiescent sample_store) by (repeat split).
  split; [exact Hq|].
  eexists. split; [vm_compute; reflexivity|].
  eapply (get_preserves_answers 1 "a" "a" None None sample_store _ (Some "1") Hq).
  vm_compute; reflexivity.
Defined.

(** X4.  After any completed run on a fresh store, what a [set] does is
    decided by its TTL and by the room in the cache.  When its full key is
    not in the cache and the cache holds at least [capacity] entries and is
    not empty, it never returns, whatever the TTL.  In every other case it
    returns if the TTL converts to a float and raises [OverflowError] if it
    does not.  So a [set] returns exactly when its TTL converts and its full
    key is already in the cache, or the cache holds fewer entries than its
    capacity, or the cache is empty. *)
Theorem set_returns_iff (cap : Z) (now : Q) (ops : list op) (w : world)
    (key v : string) (ttl : option Z) (namespace : option string) :
  run ops (fresh cap now) = Done w →
  ((∃ w', step (OpSet key v ttl namespace) w = Done w') ↔
   converts ttl = true ∧
   has_room (AsyncKeyValueStore._make_namespaced_key namespace key) cap (store w)) ∧
  (step (OpSet key v ttl namespace) w = Raised OverflowError ↔
   converts ttl = false ∧
   has_room (AsyncKeyValueStore._make_namespaced_key namespace key) cap (store w)) ∧
  (step (OpSet key v ttl namespace) w = Deadlock ↔
   ¬ has_room (AsyncKeyValueStore._make_namespaced_key namespace key) cap (store w)).
Proof.
  intros Hrun.
  destruct (invariant_run cap ops _ _ Hrun (invariant_fresh cap now))
    as [Hq Hcap Hc _].
  destruct w as [t st]. simpl in *. open_store st Hq.
  unfold has_room, entries, lru_order in *. simpl in *. subst cap0.
  set (fk := AsyncKeyValueStore._make_namespaced_key namespace key).
  rewrite store_set_free. fold fk.
  unfold set_result, put_result, overflow_result.
  destruct (m !! fk) as [node|] eqn:Hk.
  { assert (is_Some (Some node) ∨ Z.of_nat (size m) < cap ∨ size m = 0%nat)
      as Hroom by eauto.
    destruct (converts ttl); simpl; naive_solver. }
  destruct (bool_decide_reflect (cap ≤ Z.of_nat (size m))) as [Hfull|Hnot].
  - destruct l as [|x l].
    + assert (is_Some (@None AsyncNode) ∨ Z.of_nat (size m) < cap ∨ size m = 0%nat)
        as Hroom by (right; right; by apply consistent_nil).
      destruct (converts ttl); simpl; naive_solver.
    + assert (¬ (is_Some (@None AsyncNode) ∨ Z.of_nat (size m) < cap ∨
                 size m = 0%nat)) as Hroom.
      { intros [[? ?]|[?|Hz]]; [done | lia |].
        rewrite <- (consistent_length m (x :: l) Hc) in Hz. done. }
      destruct (converts ttl); simpl; naive_solver.
  - assert (is_Some (@None AsyncNode) ∨ Z.of_nat (size m) < cap ∨ size m = 0%nat)
      as Hroom by (right; left; lia).
    destruct (converts ttl); simpl; naive_solver.
Qed.

Lemma set_returns_iff_witness :
  ∃ w, run s1_prefix (fresh 2 0) = Done w ∧
       (∃ w', step (OpSet "a" "9" None None) w = Done w') ∧
       step (OpSet "a" "9" (Some (2 ^ 1024)) None) w = Raised OverflowError ∧
       step (OpSet "c" "3" None None) w = Deadlock.
Proof.
  eexists.
  match goal with
  | |- run ?ops ?w0 = Done ?w ∧ _ =>
      assert (run ops w0 = Done w) as Hrun by (vm_compute; reflexivity)
  end.
  match type of Hrun with _ = Done ?W => set (w := W) in * end.
  assert (has_room "a" 2 (store w)) as Ha.
  { left. vm_compute. by eexists. }
  assert (¬ has_room "c" 2 (store w)) as Hc.
  { intros [[x Hx]|[Hlt|Hz]]; [by vm_compute in Hx | by vm_compute in Hlt |
                               by vm_compute in Hz]. }
  split; [exact Hrun|]. split; [|split].
  - apply (set_returns_iff 2 0 s1_prefix w "a" "9" None None Hrun).
    split; [reflexivity | exact Ha].
  - apply (set_returns_iff 2 0 s1_prefix w "a" "9" (Some (2 ^ 1024)) None Hrun).
    split; [vm_compute; reflexivity | exact Ha].
  - apply (set_returns_iff 2 0 s1_prefix w "c" "3" None None Hrun). exact Hc.
Defined.

(** ** The sweep of expired entries *)

Lemma filter_all {A : Type} (P : A → Prop) `{!∀ x, Decision (P x)} (l : list A) :
  (∀ x, P x) → filter P l = l.
Proof.
  intros HP. induction l as [|x l IH]; [done|].
  by rewrite filter_cons_True, IH.
Qed.

Lemma delete_each_exact ks cap m l :
  AsyncLRUCache.delete_each ks (cache_of cap m l) =
  Done (cache_of cap (filter (λ kn, kn.1 ∉ ks) m)
          (filter (λ x, ¬ (x ∈ ks ∧ is_Some (m !! x))) l)).
Proof.
  revert m l. induction ks as [|k ks IH]; intros m l; simpl.
  - do 2 f_equal.
    + f_equal. symmetry. apply map_filter_id. intros i x _. apply not_elem_of_nil.
    + f_equal. symmetry. apply filter_all. intros x [Hx _].
      by apply elem_of_nil in Hx.
  - rewrite lru_delete_free. destruct (m !! k) as [node|] eqn:Hk; simpl.
    + rewrite IH. do 2 f_equal.
      * f_equal. apply map_eq. intros i. apply option_eq. intros x.
        rewrite !map_lookup_filter_Some, lookup_delete_Some, not_elem_of_cons.
        simpl. naive_solver.
      * f_equal. rewrite list_filter_filter. apply list_filter_iff. intros x.
        rewrite elem_of_cons, lookup_delete. case_decide; subst.
        -- split; [tauto|]. intros H. exfalso. apply H. eauto.
        -- naive_solver.
    + rewrite IH. do 2 f_equal.
      * f_equal. apply map_eq. intros i. apply option_eq. intros x.
        rewrite !map_lookup_filter_Some, not_elem_of_cons. simpl.
        split; [|tauto]. intros [Hi Hn]. repeat split; [done| |done].
        intros ->. congruence.
      * f_equal. apply list_filter_iff. intros x. rewrite elem_of_cons.
        split; [|tauto]. intros H [[->|Hx] Hs]; [|tauto].
        rewrite Hk in Hs. by destruct Hs.
Qed.

Lemma filter_ext_in {A : Type} (P Q : A → Prop) `{!∀ x, Decision (P x)}
    `{!∀ x, Decision (Q x)} (l : list A) :
  (∀ x, x ∈ l → P x ↔ Q x) → filter P l = filter Q l.
Proof.
  induction l as [|a l IH]; intros Hext; [done|].
  rewrite !filter_cons, IH by (intros x Hx; apply Hext; by right).
  apply decide_ext, Hext. by left.
Qed.

Lemma remove_expired_items_exact now cap m l :
  consistent m l →
  AsyncLRUCache._remove_expired_items now (cache_of cap m l) =
  Done (cache_of cap
          (filter (λ kn, AsyncLRUCache.sweepable now kn.2 = false) m)
          (filter (λ k, is_Some
                         (filter (λ kn, AsyncLRUCache.sweepable now kn.2 = false) m !! k))
                  l)).
Proof.
  intros [_ Hin].
  set (ks := (filter (λ kn : string * AsyncNode,
                        AsyncLRUCache.sweepable now kn.2 = true) (map_to_list m)).*1).
  etrans; [exact (delete_each_exact ks cap m l)|].
  assert (∀ k node, m !! k = Some node →
            k ∈ ks ↔ AsyncLRUCache.sweepable now node = true) as Hks.
  { intros k node Hk. unfold ks. rewrite list_elem_of_fmap. split.
    - intros ([k' node'] & -> & H). apply list_elem_of_filter in H as [Hs H].
      apply elem_of_map_to_list in H. simpl in *. congruence.
    - intros Hs. exists (k, node). split; [done|].
      apply list_elem_of_filter. split; [done|]. by apply elem_of_map_to_list. }
  assert (filter (λ kn : string * AsyncNode, kn.1 ∉ ks) m =
          filter (λ kn, AsyncLRUCache.sweepable now kn.2 = false) m) as Hm.
  { apply map_filter_ext. intros k node Hk. simpl.
    rewrite (Hks k node Hk). by destruct (AsyncLRUCache.sweepable now node). }
  rewrite Hm. do 3 f_equal.
  apply filter_ext_in. intros k Hkl. rewrite <- Hm, map_lookup_filter.
  apply Hin in Hkl as [node Hk]. rewrite Hk. simpl.
  case_guard as Hg; simpl in Hg; simpl.
  - split; [eauto|]. tauto.
  - split; [|by intros [? ?]]. intros H. exfalso. apply H. split; [|eauto].
    by destruct (decide (k ∈ ks)).
Qed.

(** X5.  After any completed run on a fresh store, a sweep of the cleanup
    task returns; it removes from the cache exactly the entries that have an
    expiry in the past, keeps the others in their LRU order, and writes
    neither the log nor any statistic, so the [total_keys] gauges are left
    as they were. *)
Theorem sweep_removes_exactly_the_expired (cap : Z) (now : Q) (ops : list op)
    (w : world) :
  run ops (fresh cap now) = Done w →
  ∃ w',
    step Cleanup w = Done w' ∧
    clock w' = clock w ∧
    entries (store w') =
      filter (λ kn, AsyncLRUCache.sweepable (clock w) kn.2 = false) (entries (store w)) ∧
    lru_order (store w') =
      filter (λ k, is_Some (entries (store w') !! k)) (lru_order (store w)) ∧
    AsyncKeyValueStore.log_file (store w') = AsyncKeyValueStore.log_file (store w) ∧
    AsyncKeyValueStore.stats (store w') = AsyncKeyValueStore.stats (store w) ∧
    AsyncKeyValueStore.namespace_stats (store w') =
      AsyncKeyValueStore.namespace_stats (store w).
Proof.
  intros Hrun.
  destruct (invariant_run cap ops _ _ Hrun (invariant_fresh cap now))
    as [Hq _ Hc _].
  destruct w as [t st]. simpl in *. open_store st Hq.
  unfold entries, lru_order in *. simpl in *.
  rewrite (remove_expired_items_exact t cap0 m l Hc). simpl.
  eexists. split; [reflexivity|]. simpl. repeat split.
Qed.

Lemma sweep_removes_exactly_the_expired_witness :
  ∃ w w',
    run [OpSet "a" "1" None None; OpSet "b" "2" (Some 1) None; Tick 2] (fresh 2 0)
      = Done w ∧
    step Cleanup w = Done w' ∧
    lru_order (store w) = ["b"; "a"] ∧
    lru_order (store w') = ["a"].
Proof.
  eexists _, _. split; [vm_compute; reflexivity|].
  destruct (sweep_removes_exactly_the_expired 2 0
              [OpSet "a" "1" None None; OpSet "b" "2" (Some 1) None; Tick 2] _
              ltac:(vm_compute; reflexivity)) as (w' & Hstep & _).
  split; [vm_compute; reflexivity|]. split; reflexivity.
Defined.

(** ** Reading back what was set *)

Lemma get_result_keeps now k m l r m' l' fk node :
  get_result now k m l = (r, m', l') →
  m !! fk = Some node →
  (∃ node', m' !! fk = Some node' ∧ value node' = value node ∧
            expires_at node' = expires_at node) ∨
  (m' !! fk = None ∧ AsyncLRUCache._is_expired now node = true).
Proof.
  unfold get_result. intros H Hfk.
  destruct (m !! k) as [n|] eqn:Hk;
    [destruct (AsyncLRUCache._is_expired now n) eqn:Hexp|];
    injection H as <- <- <-.
  - rewrite lookup_delete. case_decide as Hd; [|eauto].
    right. split; [done|]. subst. congruence.
  - left. rewrite lookup_insert. case_decide as Hd; [|eauto].
    subst. assert (n = node) as -> by congruence. eauto.
  - eauto.
Qed.

Lemma step_kept_or_past cap fk v ex o w w' :
  writes_key fk o = false →
  forward o = true →
  step o w = Done w' →
  invariant cap (store w) ∧ kept_or_past fk v ex w →
  invariant cap (store w') ∧ kept_or_past fk v ex w'.
Proof.
  intros Hw Hf Hstep [Hinv Hk]. split; [by eapply invariant_step|].
  destruct Hinv as [Hq _ Hc _].
  destruct w as [now st]. simpl in *. open_store st Hq.
  unfold kept_or_past, entries, lru_order in *. simpl in *.
  destruct o as [key v0 ttl ns|key ns|key ns|d|]; simpl in Hstep.
  - rewrite store_set_free in Hstep. set_returns Hstep.
    destruct (put_result _ _ _ _ _ _ _) as [[m' l']| |] eqn:Hput; [|done..].
    injection Hstep as <-. simpl.
    apply bool_decide_eq_false in Hw.
    rewrite (put_result_lookup_ne _ _ _ _ _ _ _ _ _ _ Hput); [done | congruence].
  - rewrite store_get_free in Hstep.
    destruct (get_result _ _ _ _) as [[r m'] l'] eqn:Hget.
    injection Hstep as <-. simpl.
    destruct Hk as [(node & Hn & Hv & He)|Hpast]; [|by right].
    destruct (get_result_keeps _ _ _ _ _ _ _ _ _ Hget Hn)
      as [(node' & Hn' & Hv' & He')|[_ Hexp]].
    + left. exists node'. split; [done|]. split; congruence.
    + right. unfold AsyncLRUCache._is_expired in Hexp. rewrite He in Hexp.
      destruct ex as [e|]; [|done]. exists e. split; [done|]. by apply Qltb_lt.
  - rewrite store_delete_free in Hstep. simpl in Hstep.
    apply bool_decide_eq_false in Hw.
    destruct (m !! AsyncKeyValueStore._make_namespaced_key ns key) eqn:Hd;
      injection Hstep as <-; simpl; [|done].
    by rewrite lookup_delete_ne.
  - injection Hstep as <-. simpl.
    destruct Hk as [?|(e & -> & He)]; [by left|]. right. exists e. split; [done|].
    apply Qle_bool_iff in Hf. lra.
  - rewrite (remove_expired_items_exact now cap0 m l Hc) in Hstep. simpl in Hstep.
    injection Hstep as <-. simpl.
    destruct Hk as [(node & Hn & Hv & He)|Hpast]; [|by right].
    destruct (AsyncLRUCache.sweepable now node) eqn:Hs.
    + right. unfold AsyncLRUCache.sweepable in Hs. rewrite He in Hs.
      destruct ex as [e|]; [|done]. exists e. split; [done|].
      apply andb_true_iff in Hs as [_ Hs]. by apply Qltb_lt.
    + left. exists node. split; [|done]. by apply map_lookup_filter_Some.
Qed.

Lemma run_kept_or_past cap fk v ex ops w w' :
  forallb (λ o, negb (writes_key fk o) && forward o) ops = true →
  run ops w = Done w' →
  invariant cap (store w) ∧ kept_or_past fk v ex w →
  invariant cap (store w') ∧ kept_or_past fk v ex w'.
Proof.
  revert w. induction ops as [|o ops IH]; intros w Hops Hrun Hinv; simpl in *.
  - by injection Hrun as <-.
  - apply andb_prop in Hops as [Ho Hops]. apply andb_prop in Ho as [Hw Hf].
    apply negb_true_iff in Hw.
    apply bind_Done_inv in Hrun as (w1 & Hstep & Hrun).
    eauto using step_kept_or_past.
Qed.

Arguments expiry : simpl never.

(** X6.  Read your writes: once a [set] has returned, and as long as the
    key is neither set again nor deleted and the clock does not run
    backwards, every [get] of the key issued no later than [t] seconds after
    the [set] answers the value set, whatever gets, sweeps and operations on
    other keys ran in between; with no TTL, or a TTL of 0, every later [get]
    does. *)
Theorem get_returns_what_was_set (cap : Z) (now : Q) (before ops : list op)
    (w w1 w2 : world) (key v : string) (ttl : option Z) (namespace : option string) :
  run before (fresh cap now) = Done w →
  step (OpSet key v ttl namespace) w = Done w1 →
  forallb (λ o, negb (writes_key
                        (AsyncKeyValueStore._make_namespaced_key namespace key) o)
                && forward o) ops = true →
  run ops w1 = Done w2 →
  match ttl with
  | Some t => t = 0 ∨ (clock w2 <= clock w + inject_Z t)%Q
  | None => True
  end →
  answer (AsyncKeyValueStore.get (clock w2) key namespace (store w2)) = Done (Some v).
Proof.
  intros Hbefore Hset Hops Hrun Hfresh.
  set (full_key := AsyncKeyValueStore._make_namespaced_key namespace key) in *.
  pose proof (invariant_run cap before _ _ Hbefore (invariant_fresh cap now)) as Hinv.
  pose proof (invariant_step cap _ _ _ Hset Hinv) as Hinv1.
  assert (kept_or_past full_key v (expiry (clock w) (inject_Z <$> ttl)) w1) as Hk.
  { left. destruct Hinv as [Hq _ _ _].
    destruct w as [t st]. simpl in *. open_store st Hq.
    rewrite store_set_free in Hset. set_returns Hset. fold full_key in Hset.
    destruct (put_result _ _ _ _ _ _ _) as [[m' l']| |] eqn:Hput; [|done..].
    injection Hset as <-. unfold entries. simpl.
    rewrite (put_result_lookup _ _ _ _ _ _ _ _ _ Hput). eauto. }
  destruct (run_kept_or_past cap _ _ _ _ _ _ Hops Hrun (conj Hinv1 Hk))
    as [[Hq2 _ _ _] Hk2].
  destruct w2 as [now2 st2]. simpl in *. open_store st2 Hq2.
  rewrite store_get_answer. fold full_key.
  unfold kept_or_past, entries in Hk2. simpl in Hk2.
  destruct ttl as [t|]; simpl in *.
  - destruct (Z.eq_dec t 0) as [->|Ht].
    + rewrite expiry_zero in Hk2.
      destruct Hk2 as [(node & -> & <- & He)|(e & He & _)]; [|done].
      unfold AsyncLRUCache._is_expired. by rewrite He.
    + rewrite expiry_inject_Z in Hk2 by done.
      destruct Hfresh as [?|Hle]; [done|].
      destruct Hk2 as [(node & -> & <- & He)|(e & [= <-] & Hlt)]; [|lra].
      unfold AsyncLRUCache._is_expired. rewrite He.
      assert (Qltb (clock w + inject_Z t) now2 = false) as ->; [|done].
      by apply Qltb_ge.
  - change (expiry (clock w) None) with (@None Q) in Hk2.
    destruct Hk2 as [(node & -> & <- & He)|(e & He & _)]; [|done].
    unfold AsyncLRUCache._is_expired. by rewrite He.
Qed.

Lemma get_returns_what_was_set_witness :
  ∃ w w1 w2,
    run [OpSet "a" "1" None None] (fresh 3 0) = Done w ∧
    step (OpSet "k" "v" (Some 5) (Some "app")) w = Done w1 ∧
    run [OpGet "k" (Some "app"); Tick 5; Cleanup; OpSet "b" "2" None None] w1 = Done w2 ∧
    (clock w2 <= clock w + inject_Z 5)%Q ∧
    answer (AsyncKeyValueStore.get (clock w2) "k" (Some "app") (store w2))
      = Done (Some "v").
Proof.
  eexists _, _, _. split; [vm_compute; reflexivity|].
  split; [vm_compute; reflexivity|]. split; [vm_compute; reflexivity|].
  split; [vm_compute; discriminate|].
  eapply (get_returns_what_was_set 3 0 [OpSet "a" "1" None None]
            [OpGet "k" (Some "app"); Tick 5; Cleanup; OpSet "b" "2" None None]
            _ _ _ "k" "v" (Some 5) (Some "app")).
  - vm_compute; reflexivity.
  - vm_compute; reflexivity.
  - vm_compute; reflexivity.
  - vm_compute; reflexivity.
  - right. vm_compute. discriminate.
Defined.

(** ** The log and the counters along a run *)

Lemma count_ops_cons P o ops :
  count_ops P (o :: ops) = ((if P o then 1 else 0) + count_ops P ops)%nat.
Proof.
  unfold count_ops. rewrite filter_cons.
  destruct (P o); [by rewrite decide_True | by rewrite decide_False].
Qed.

Lemma step_appends o w w' :
  quiescent (store w) →
  step o w = Done w' →
  quiescent (store w') ∧
  ∃ suffix,
    wal (store w') = wal (store w) ++ suffix ∧
    log_size (AsyncKeyValueStore.stats (store w')) =
      log_size (AsyncKeyValueStore.stats (store w)) + Z.of_nat (length suffix) ∧
    ((if is_OpSet o then 1 else 0) ≤ length suffix ≤
     (if is_OpSet o then 1 else 0) + (if is_OpDelete o then 1 else 0))%nat.
Proof.
  destruct w as [now st]. simpl. intros Hq Hstep. open_store st Hq.
  unfold wal. simpl.
  destruct o as [key v ttl ns|key ns|key ns|d|]; simpl in Hstep.
  - rewrite store_set_free in Hstep. set_returns Hstep.
    destruct (put_result _ _ _ _ _ _ _) as [[m' l']| |]; [|done..].
    injection Hstep as <-. simpl. split; [apply quiescent_store_of|].
    eexists [_]. simpl. split; [done|]. split; lia.
  - rewrite store_get_free in Hstep.
    destruct (get_result _ _ _ _) as [[r m'] l'].
    injection Hstep as <-. simpl. split; [apply quiescent_store_of|].
    exists []. rewrite app_nil_r. simpl.
    split; [done|]. split; [by destruct (bool_decide _); simpl; lia | lia].
  - rewrite store_delete_free in Hstep. simpl in Hstep.
    destruct (m !! AsyncKeyValueStore._make_namespaced_key ns key);
      injection Hstep as <-; simpl; (split; [apply quiescent_store_of|]).
    + eexists [_]. simpl. split; [done|]. split; lia.
    + exists []. rewrite app_nil_r. simpl. split; [done|]. split; lia.
  - injection Hstep as <-. simpl. split; [apply quiescent_store_of|].
    exists []. rewrite app_nil_r. simpl. split; [done|]. split; lia.
  - destruct (remove_expired_items_free now cap m l) as (m' & l' & Hc' & _).
    rewrite Hc' in Hstep. simpl in Hstep. injection Hstep as <-. simpl.
    split; [apply quiescent_store_of|].
    exists []. rewrite app_nil_r. simpl. split; [done|]. split; lia.
Qed.

(** X7.  The log is append-only along a run: whatever operations run, the
    records that were in the log stay where they were; every [set] that
    returns appends one record, a [delete] at most one, and a [get], a sweep
    or the passing of time none; and [log_size] grows by the number of
    records appended. *)
Theorem log_is_append_only (ops : list op) (w w' : world) :
  quiescent (store w) →
  run ops w = Done w' →
  ∃ suffix,
    wal (store w') = wal (store w) ++ suffix ∧
    log_size (AsyncKeyValueStore.stats (store w')) =
      log_size (AsyncKeyValueStore.stats (store w)) + Z.of_nat (length suffix) ∧
    (count_ops is_OpSet ops ≤ length suffix ≤
     count_ops is_OpSet ops + count_ops is_OpDelete ops)%nat.
Proof.
  revert w. induction ops as [|o ops IH]; intros w Hq Hrun; simpl in Hrun.
  - injection Hrun as <-. exists []. rewrite app_nil_r. simpl.
    split; [done|]. split; [lia|]. unfold count_ops. simpl. lia.
  - apply bind_Done_inv in Hrun as (w1 & Hstep & Hrun).
    destruct (step_appends o w w1 Hq Hstep) as (Hq1 & s1 & Hw1 & Hs1 & Hn1).
    destruct (IH w1 Hq1 Hrun) as (s2 & Hw2 & Hs2 & Hn2).
    exists (s1 ++ s2). rewrite Hw2, Hw1, Hs2, Hs1, length_app, !count_ops_cons.
    split; [by rewrite app_assoc|]. split; lia.
Qed.

Lemma log_is_append_only_witness :
  quiescent sample_store ∧
  ∃ w',
    run [OpGet "a" None; OpSet "b" "2" None None; OpDelete "zz" None; OpDelete "a" None]
        {| clock := 1; store := sample_store |} = Done w' ∧
    wal (store w') =
      wal sample_store ++ [SET 1 "b" "2" None None; DEL 1 "a" None].
Proof.
  assert (Hq : quiescent sample_store) by (repeat split).
  split; [exact Hq|].
  eexists. split; [vm_compute; reflexivity|].
  destruct (log_is_append_only
              [OpGet "a" None; OpSet "b" "2" None None; OpDelete "zz" None;
               OpDelete "a" None]
              {| clock := 1; store := sample_store |} _ Hq
              ltac:(vm_compute; reflexivity)) as (suffix & Hwal & _).
  reflexivity.
Defined.

(** X8.  [log_size] counts the records this process appended, not the
    records in the log: after a completed run on a fresh store it is the
    number of records in the log, and after a restart it is 0, as are the
    hit and miss counters, while recovery has left the log file as it was. *)
Theorem log_size_counts_this_process (cap cap' : Z) (now tr : Q) (ops : list op)
    (w : world) (st_r : AsyncKeyValueStore.t) :
  run ops (fresh cap now) = Done w →
  restart tr cap' (store w) = Done st_r →
  log_size (AsyncKeyValueStore.stats (store w)) = Z.of_nat (length (wal (store w))) ∧
  AsyncKeyValueStore.log_file st_r = AsyncKeyValueStore.log_file (store w) ∧
  log_size (AsyncKeyValueStore.stats st_r) = 0 ∧
  hits st_r = 0 ∧ misses st_r = 0.
Proof.
  intros Hrun Hrestart. split.
  - destruct (log_is_append_only ops _ _
                (inv_quiescent _ _ (invariant_fresh cap now)) Hrun)
      as (suffix & Hwal & Hsize & _).
    rewrite Hwal, Hsize. reflexivity.
  - rewrite restart_free in Hrestart.
    destruct (replay_all_result _ _ _ _ _) as [[mr lr]| |]; [|done..].
    by injection Hrestart as <-.
Qed.

Lemma log_size_counts_this_process_witness :
  ∃ w st_r,
    run round_trip_ops (fresh 4 0) = Done w ∧
    restart 5 4 (store w) = Done st_r ∧
    log_size (AsyncKeyValueStore.stats (store w)) = 6 ∧
    log_size (AsyncKeyValueStore.stats st_r) = 0 ∧
    length (wal st_r) = 6%nat.
Proof.
  eexists _, _. split; [vm_compute; reflexivity|].
  split; [vm_compute; reflexivity|].
  destruct (log_size_counts_this_process 4 4 0 5 round_trip_ops _ _
              ltac:(vm_compute; reflexivity) ltac:(vm_compute; reflexivity))
    as (H1 & _ & H2 & _).
  split; [reflexivity|]. split; reflexivity.
Defined.

Lemma bucket_after_total_keys (f : NamespaceStats → Z) n lbl label
    (nss : gmap string NamespaceStats) :
  (∀ s, f (AsyncKeyValueStore.set_total_keys n s) = f s) →
  f zero_ns = 0 →
  from_option f 0 (alter (AsyncKeyValueStore.set_total_keys n) lbl (init_ns lbl nss) !! label)
  = from_option f 0 (nss !! label).
Proof.
  intros Hf H0. rewrite lookup_alter. case_decide as Hl.
  - subst. rewrite init_ns_lookup. simpl. rewrite Hf.
    by destruct (nss !! label).
  - by rewrite init_ns_lookup_ne.
Qed.

Lemma step_counts label o w w' :
  quiescent (store w) →
  step o w = Done w' →
  quiescent (store w') ∧
  hits (store w') + misses (store w') =
    hits (store w) + misses (store w) + (if is_OpGet o then 1 else 0) ∧
  ns_hits label (store w') + ns_misses label (store w') =
    ns_hits label (store w) + ns_misses label (store w) +
    (if is_OpGet_under label o then 1 else 0).
Proof.
  destruct w as [now st]. simpl. intros Hq Hstep. open_store st Hq.
  unfold hits, misses, ns_hits, ns_misses. simpl.
  destruct o as [key v ttl ns|key ns|key ns|d|]; simpl in Hstep.
  - rewrite store_set_free in Hstep. set_returns Hstep.
    destruct (put_result _ _ _ _ _ _ _) as [[m' l']| |]; [|done..].
    injection Hstep as <-. simpl. split; [apply quiescent_store_of|].
    rewrite !bucket_after_total_keys by done. lia.
  - rewrite store_get_free in Hstep.
    destruct (get_result _ _ _ _) as [[r m'] l'].
    injection Hstep as <-. simpl. split; [apply quiescent_store_of|].
    split; [destruct (bool_decide (is_Some r)); simpl; lia|].
    rewrite lookup_alter.
    destruct (decide (AsyncKeyValueStore.ns_label ns = label)) as [Hl|Hl].
    + rewrite (bool_decide_eq_true_2 (AsyncKeyValueStore.ns_label ns = label)) by done.
      subst label. rewrite init_ns_lookup. simpl.
      destruct (bool_decide (is_Some r)), (nss !! _); simpl; lia.
    + rewrite (bool_decide_eq_false_2 (AsyncKeyValueStore.ns_label ns = label)) by done.
      rewrite init_ns_lookup_ne by done. lia.
  - rewrite store_delete_free in Hstep. simpl in Hstep.
    destruct (m !! AsyncKeyValueStore._make_namespaced_key ns key);
      injection Hstep as <-; simpl; (split; [apply quiescent_store_of|]).
    + rewrite !bucket_after_total_keys by done. lia.
    + lia.
  - injection Hstep as <-. simpl. split; [apply quiescent_store_of|]. lia.
  - destruct (remove_expired_items_free now cap m l) as (m' & l' & Hc' & _).
    rewrite Hc' in Hstep. simpl in Hstep. injection Hstep as <-. simpl.
    split; [apply quiescent_store_of|]. lia.
Qed.

(** X9.  Every [get] is counted once: after a completed run on a fresh
    store the global hit and miss counters add up to the number of [get]
    operations of the run, and, for every label, the hit and miss counters
    of that bucket add up to the number of [get] operations whose namespace
    is bucketed under the label; no other operation counts. *)
Theorem hits_and_misses_count_the_gets (cap : Z) (now : Q) (ops : list op)
    (w : world) (label : string) :
  run ops (fresh cap now) = Done w →
  hits (store w) + misses (store w) = Z.of_nat (count_ops is_OpGet ops) ∧
  ns_hits label (store w) + ns_misses label (store w) =
    Z.of_nat (count_ops (is_OpGet_under label) ops).
Proof.
  intros Hrun.
  enough (∀ w0, quiescent (store w0) → run ops w0 = Done w →
            hits (store w) + misses (store w) =
              hits (store w0) + misses (store w0) + Z.of_nat (count_ops is_OpGet ops) ∧
            ns_hits label (store w) + ns_misses label (store w) =
              ns_hits label (store w0) + ns_misses label (store w0) +
              Z.of_nat (count_ops (is_OpGet_under label) ops)) as H.
  { destruct (H _ (inv_quiescent _ _ (invariant_fresh cap now)) Hrun) as [H1 H2].
    rewrite H1, H2. split; reflexivity. }
  clear Hrun. induction ops as [|o ops IH]; intros w0 Hq Hrun; simpl in Hrun.
  - injection Hrun as <-. unfold count_ops. simpl. lia.
  - apply bind_Done_inv in Hrun as (w1 & Hstep & Hrun).
    destruct (step_counts label o w0 w1 Hq Hstep) as (Hq1 & Hg & Hn).
    destruct (IH w1 Hq1 Hrun) as [IH1 IH2].
    rewrite !count_ops_cons, IH1, IH2, Hg, Hn.
    destruct (is_OpGet o), (is_OpGet_under label o); simpl; lia.
Qed.

Lemma hits_and_misses_count_the_gets_witness :
  ∃ w,
    run [OpSet "a" "1" None None; OpGet "a" None; OpGet "b" (Some ""); OpGet "a" (Some "app");
         OpDelete "a" None; OpGet "a" None] (fresh 2 0) = Done w ∧
    hits (store w) = 1 ∧ misses (store w) = 3 ∧
    ns_hits "default" (store w) + ns_misses "default" (store w) = 3.
Proof.
  eexists. split; [vm_compute; reflexivity|].
  split; [reflexivity|]. split; [reflexivity|].
  apply (hits_and_misses_count_the_gets 2 0
           [OpSet "a" "1" None None; OpGet "a" None; OpGet "b" (Some "");
            OpGet "a" (Some "app"); OpDelete "a" None; OpGet "a" None] _ "default").
  vm_compute; reflexivity.
Defined.

(** ** Full keys: flattening and parsing *)

Lemma split_colon_app (a b : string) :
  split_colon a = None → split_colon (a +:+ ":" +:+ b) = Some (a, b).
Proof.
  induction a as [|c a IH]; simpl; [done|].
  destruct (Ascii.eqb c ":"%char); [done|].
  destruct (split_colon a) as [[x y]|]; [done|].
  intros _. by rewrite IH.
Qed.

Lemma split_colon_prefix (s a b : string) :
  split_colon s = Some (a, b) → split_colon a = None.
Proof.
  revert a. induction s as [|c s IH]; intros a H; simpl in H; [done|].
  destruct (Ascii.eqb c ":"%char) eqn:Hc.
  - by injection H as <- <-.
  - destruct (split_colon s) as [[a' b']|]; [|done].
    injection H as <- <-. simpl. by rewrite Hc, (IH a' eq_refl).
Qed.

Lemma string_app_assoc (a b c : string) : (a +:+ b) +:+ c = a +:+ (b +:+ c).
Proof.
  induction a as [|x a IH]; [done|].
  change (String x ((a +:+ b) +:+ c) = String x (a +:+ (b +:+ c))).
  by rewrite IH.
Qed.

Lemma string_app_ne_self (a c : string) : c ≠ "" → a +:+ c ≠ a.
Proof.
  intros Hc H. apply (f_equal String.length) in H.
  rewrite string_length_app in H. destruct c; [done|]. simpl in H. lia.
Qed.

(** X10.  Parsing undoes flattening exactly for the namespaces that are
    not empty and hold no colon: for every other namespace argument
    [_parse_namespaced_key] does not give back the namespace and the key that
    [_make_namespaced_key] was given. *)
Theorem parse_inverts_make_iff (ns key : string) :
  AsyncKeyValueStore._parse_namespaced_key
    (AsyncKeyValueStore._make_namespaced_key (Some ns) key) = (Some ns, key)
  ↔ ns ≠ "" ∧ split_colon ns = None.
Proof.
  unfold AsyncKeyValueStore._parse_namespaced_key.
  split.
  - destruct ns as [|c ns].
    + unfold AsyncKeyValueStore._make_namespaced_key. simpl.
      destruct (split_colon key) as [[a b]|] eqn:E; [|done].
      intros [= -> ->]. apply split_colon_Some in E.
      apply (f_equal String.length) in E.
      rewrite (string_length_app "" (":" +:+ key)), (string_length_app ":" key) in E.
      simpl in E. lia.
    + intros H. split; [done|].
      destruct (split_colon (String c ns)) as [[a b]|] eqn:E; [|done].
      exfalso. pose proof (split_colon_prefix _ _ _ E) as Ha.
      apply split_colon_Some in E.
      assert (AsyncKeyValueStore._make_namespaced_key (Some (String c ns)) key =
              String c ns +:+ ":" +:+ key) as Hmk by reflexivity.
      rewrite Hmk, E, !string_app_assoc, (split_colon_app _ _ Ha) in H.
      injection H as H1 H2. symmetry in H1. revert H1.
      by apply string_app_ne_self.
  - intros [Hne Hns]. destruct ns as [|c ns]; [done|].
    unfold AsyncKeyValueStore._make_namespaced_key. cbn [truthy_str].
    by rewrite (split_colon_app _ _ Hns).
Qed.

(** X11.  Flattening undoes parsing exactly for the full keys that do not
    start with a colon: such a key parses to an empty namespace, which
    [_make_namespaced_key] takes for no namespace at all. *)
Theorem make_inverts_parse_iff (full_key : string) :
  AsyncKeyValueStore._make_namespaced_key
    (AsyncKeyValueStore._parse_namespaced_key full_key).1
    (AsyncKeyValueStore._parse_namespaced_key full_key).2 = full_key
  ↔ String.prefix ":" full_key = false.
Proof.
  rewrite prefix_colon_split.
  unfold AsyncKeyValueStore._parse_namespaced_key.
  destruct (split_colon full_key) as [[[|c a] b]|] eqn:E;
    [apply split_colon_Some in E..|];
    unfold AsyncKeyValueStore._make_namespaced_key; cbn [fst snd truthy_str].
  - split; [|done]. intros H. exfalso. rewrite <- H in E.
    apply (f_equal String.length) in E.
    rewrite (string_length_app "" (":" +:+ b)), (string_length_app ":" b) in E.
    simpl in E. lia.
  - by rewrite E.
  - done.
Qed.

(** ** The namespaces listed *)

Lemma insert_sorted_perm (s : string) (l : list string) :
  insert_sorted s l ≡ₚ s :: l.
Proof.
  induction l as [|x l IH]; simpl; [done|].
  destruct (String.leb s x); [done|].
  rewrite IH. apply Permutation_swap.
Qed.

Lemma sorted_perm (l : list string) : sorted l ≡ₚ l.
Proof.
  induction l as [|x l IH]; simpl; [done|].
  fold (sorted l). by rewrite insert_sorted_perm, IH.
Qed.

Lemma insert_sorted_ascending (s : string) (l : list string) :
  ascending l = true → ascending (insert_sorted s l) = true.
Proof.
  induction l as [|x l IH]; [done|].
  intros Hl. cbn [insert_sorted].
  destruct (String.leb s x) eqn:Hsx.
  - cbn [ascending]. by rewrite Hsx.
  - assert (String.leb x s = true) as Hxs.
    { destruct (String.leb_total s x) as [H|H]; congruence. }
    destruct l as [|y l]; [cbn; by rewrite Hxs|].
    cbn [ascending] in Hl. apply andb_true_iff in Hl as [Hxy Hl].
    specialize (IH Hl). cbn [insert_sorted] in IH |- *.
    destruct (String.leb s y) eqn:Hsy.
    + cbn [ascending] in IH |- *. by rewrite Hxs.
    + cbn [ascending]. cbn [ascending] in IH. by rewrite Hxy.
Qed.

Lemma sorted_ascending (l : list string) : ascending (sorted l) = true.
Proof.
  induction l as [|x l IH]; [done|].
  simpl. fold (sorted l). by apply insert_sorted_ascending.
Qed.

Lemma elem_of_foldl_add_namespace (keys : list string) (acc : gset string)
    (ns : string) :
  ns ∈ foldl AsyncKeyValueStore.add_namespace acc keys ↔
  ns ∈ acc ∨ (ns ≠ "" ∧ ∃ k key, k ∈ keys ∧ split_colon k = Some (ns, key)).
Proof.
  revert acc. induction keys as [|k keys IH]; intros acc; simpl.
  - split; [by left|]. intros [?|(_ & k & key & Hk & _)]; [done|].
    by apply elem_of_nil in Hk.
  - rewrite IH. unfold AsyncKeyValueStore.add_namespace,
      AsyncKeyValueStore._parse_namespaced_key.
    destruct (split_colon k) as [[a b]|] eqn:E.
    + destruct a as [|c a]; cbn [truthy_str].
      * split.
        -- intros [?|(Hne & k' & key & Hk' & Hs)]; [by left|].
           right. split; [done|]. exists k', key. split; [by right | done].
        -- intros [?|(Hne & k' & key & Hk' & Hs)]; [by left|].
           apply elem_of_cons in Hk' as [->|Hk'].
           ++ rewrite E in Hs. by injection Hs as <- _.
           ++ right. split; [done|]. by exists k', key.
      * rewrite elem_of_union, elem_of_singleton. split.
        -- intros [[->|?]|(Hne & k' & key & Hk' & Hs)].
           ++ right. split; [done|]. exists k, b. split; [by left | done].
           ++ by left.
           ++ right. split; [done|]. exists k', key. split; [by right | done].
        -- intros [?|(Hne & k' & key & Hk' & Hs)]; [left; by right|].
           apply elem_of_cons in Hk' as [->|Hk'].
           ++ rewrite E in Hs. injection Hs as <- _. left. by left.
           ++ right. split; [done|]. by exists k', key.
    + split.
      * intros [?|(Hne & k' & key & Hk' & Hs)]; [by left|].
        right. split; [done|]. exists k', key. split; [by right | done].
      * intros [?|(Hne & k' & key & Hk' & Hs)]; [by left|].
        apply elem_of_cons in Hk' as [->|Hk']; [congruence|].
        right. split; [done|]. by exists k', key.
Qed.

Lemma split_colon_iff (s a b : string) :
  split_colon s = Some (a, b) ↔ s = a +:+ ":" +:+ b ∧ split_colon a = None.
Proof.
  split.
  - intros H. split; [by apply split_colon_Some | by eapply split_colon_prefix].
  - intros [-> Ha]. by apply split_colon_app.
Qed.

Lemma list_namespaces_spec (st : AsyncKeyValueStore.t) :
  quiescent st →
  ∃ l, AsyncKeyValueStore.list_namespaces st = Done (l, st) ∧
       ascending l = true ∧ NoDup l ∧
       ∀ ns, ns ∈ l ↔
             ns ≠ "" ∧ split_colon ns = None ∧
             ∃ key, is_Some (entries st !! (ns +:+ ":" +:+ key)).
Proof.
  intros Hq. open_store st Hq.
  unfold AsyncKeyValueStore.list_namespaces. cbn [AsyncKeyValueStore.cache].
  rewrite lru_get_all_keys_free. simpl.
  eexists. split; [reflexivity|]. split; [apply sorted_ascending|].
  split; [rewrite sorted_perm; apply NoDup_elements|].
  intros ns. rewrite elem_of_sorted, elem_of_elements, elem_of_foldl_add_namespace.
  unfold entries. simpl. split.
  - intros [H|(Hne & k & key & Hk & Hs)]; [set_solver|].
    apply split_colon_iff in Hs as [-> Hns].
    split; [done|]. split; [done|]. exists key.
    by apply elem_of_elements, elem_of_dom in Hk.
  - intros (Hne & Hns & key & Hk). right. split; [done|].
    exists (ns +:+ ":" +:+ key), key. split.
    + by apply elem_of_elements, elem_of_dom.
    + by apply split_colon_app.
Qed.

(** X12.  [list_namespaces] on a store whose locks are free returns and
    leaves the store as it is.  Its list is in ascending order without
    repetition, and it holds exactly the strings that are not empty, hold no
    colon, and are followed by a colon at the start of some stored full key:
    a namespace that holds a colon is never listed, and a key stored under no
    namespace is listed under what precedes its first colon. *)
Theorem list_namespaces_lists_the_prefixes (st : AsyncKeyValueStore.t) :
  quiescent st →
  ∃ l, AsyncKeyValueStore.list_namespaces st = Done (l, st) ∧
       ascending l = true ∧ NoDup l ∧
       ∀ ns, ns ∈ l ↔
             ns ≠ "" ∧ split_colon ns = None ∧
             ∃ key, is_Some (entries st !! (ns +:+ ":" +:+ key)).
Proof. apply list_namespaces_spec. Qed.

Lemma list_namespaces_lists_the_prefixes_witness :
  ∃ w l,
    run namespaced_ops (fresh 5 0) = Done w ∧
    AsyncKeyValueStore.list_namespaces (store w) = Done (l, store w) ∧
    ascending l = true ∧
    ("app" ∈ l ↔ "app" ≠ "" ∧ split_colon "app" = None ∧
                 ∃ key, is_Some (entries (store w) !! ("app" +:+ ":" +:+ key))).
Proof.
  eexists.
  match goal with
  | |- ∃ l, run ?ops ?w0 = Done ?w ∧ _ =>
      assert (run ops w0 = Done w) as Hrun by (vm_compute; reflexivity)
  end.
  match type of Hrun with _ = Done ?W => set (w := W) in * end.
  destruct (list_namespaces_lists_the_prefixes (store w) ltac:(repeat split))
    as (l & Hl & Ha & _ & Hin).
  exists l. split; [exact Hrun|]. split; [exact Hl|]. split; [exact Ha|].
  apply Hin.
Defined.

(** ** Clearing a namespace *)

Lemma clear_keys_spec now ns ks :
  ∀ n cap m l log s nss lk,
  let del := filter (λ k, String.prefix (ns +:+ ":") k = true) ks in
  ∃ st',
    AsyncKeyValueStore.clear_keys now ns ks n
      (AsyncKeyValueStore.mk (cache_of cap m l) log s nss lk) =
      Done ((n + length del)%nat, st') ∧
    AsyncLRUCache.delete_each del (cache_of cap m l) =
      Done (AsyncKeyValueStore.cache st') ∧
    wal st' = default [] log ++ (clear_record now ns <$> del) ∧
    (is_Some log → is_Some (AsyncKeyValueStore.log_file st')) ∧
    log_size (AsyncKeyValueStore.stats st') = log_size s + Z.of_nat (length del) ∧
    cache_hits (AsyncKeyValueStore.stats st') = cache_hits s ∧
    cache_misses (AsyncKeyValueStore.stats st') = cache_misses s ∧
    evictions (AsyncKeyValueStore.stats st') = evictions s ∧
    AsyncKeyValueStore.namespace_stats st' = nss ∧
    AsyncKeyValueStore.lock st' = lk.
Proof.
  induction ks as [|k ks IH]; intros n cap m l log s nss lk del.
  - eexists. simpl. split; [by rewrite Nat.add_0_r|]. split; [done|].
    unfold wal. simpl. rewrite app_nil_r. repeat split; [done | lia].
  - subst del. simpl.
    destruct (String.prefix (ns +:+ ":") k) eqn:Hp.
    + rewrite filter_cons_True by done.
      cbn [AsyncKeyValueStore.cache]. rewrite lru_delete_free.
      set (m1 := match m !! k with Some _ => base.delete k m | None => m end).
      set (l1 := match m !! k with Some _ => filter (λ x, x ≠ k) l | None => l end).
      assert (AsyncLRUCache.delete k (cache_of cap m l) ≫= (λ '(_, c), Done c) =
              Done (cache_of cap m1 l1)) as Hdel.
      { rewrite lru_delete_free. subst m1 l1. by destruct (m !! k). }
      destruct (IH (S n) cap m1 l1
                  (Some (default [] log ++ [clear_record now ns k]))
                  (logged s) nss lk)
        as (st' & Hck & Hde & Hwal & Hlog & Hls & Hh & Hm & He & Hns & Hlk).
      exists st'. split.
      { subst m1 l1. unfold clear_record in Hck.
        destruct (AsyncKeyValueStore._parse_namespaced_key k) as [a b].
        destruct (m !! k); simpl; (etrans; [exact Hck|]); do 2 f_equal; lia. }
      split.
      { cbn [AsyncLRUCache.delete_each]. rewrite lru_delete_free.
        subst m1 l1. by destruct (m !! k). }
      split; [rewrite Hwal; simpl; by rewrite <- app_assoc|].
      split; [intros _; apply Hlog; by eexists|].
      split; [rewrite Hls; cbn [logged log_size length]; lia|].
      done.
    + rewrite filter_cons_False by (rewrite Hp; done).
      apply IH.
Qed.

Lemma prefix_app_iff (p s : string) :
  String.prefix p s = true ↔ ∃ rest, s = p +:+ rest.
Proof.
  revert s. induction p as [|c p IH]; intros s.
  - split; [intros _; by exists s | intros _; by destruct s].
  - destruct s as [|d s]; simpl.
    + split; [done | by intros [rest ?]].
    + destruct (ascii_dec c d) as [->|Hcd].
      * rewrite IH. split; intros [rest H]; exists rest.
        -- by rewrite H.
        -- by injection H.
      * split; [done|]. intros [rest H]. injection H as H _. done.
Qed.

Lemma filter_none {A : Type} (P : A → Prop) `{!∀ x, Decision (P x)} (l : list A) :
  (∀ x, x ∈ l → ¬ P x) → filter P l = [].
Proof.
  induction l as [|a l IH]; intros HP; [done|].
  rewrite filter_cons_False by (apply HP; by left).
  apply IH. intros x Hx. apply HP. by right.
Qed.

Lemma clear_namespace_spec (cap : Z) (now : Q) (ops : list op)
    (w : world) (ns : string) :
  run ops (fresh cap now) = Done w →
  ∃ st',
    AsyncKeyValueStore.clear_namespace (clock w) ns (store w) =
      Done (key_count (Some ns) (entries (store w)), st') ∧
    AsyncKeyValueStore.size (Some ns) (store w) =
      Done (key_count (Some ns) (entries (store w)), store w) ∧
    quiescent st' ∧
    entries st' =
      filter (λ kn, String.prefix (ns +:+ ":") kn.1 = false) (entries (store w)) ∧
    lru_order st' =
      filter (λ k, String.prefix (ns +:+ ":") k = false) (lru_order (store w)) ∧
    AsyncKeyValueStore.size (Some ns) st' = Done (0%nat, st') ∧
    AsyncKeyValueStore.namespace_stats st' =
      alter (AsyncKeyValueStore.set_total_keys 0) ns
        (AsyncKeyValueStore.namespace_stats (store w)) ∧
    hits st' = hits (store w) ∧ misses st' = misses (store w).
Proof.
  intros Hrun.
  destruct (invariant_run cap ops _ _ Hrun (invariant_fresh cap now))
    as [Hq _ Hc _].
  destruct w as [t st]. simpl in *. open_store st Hq.
  unfold entries, lru_order, hits, misses in *. simpl in *.
  unfold AsyncKeyValueStore.clear_namespace. cbn [AsyncKeyValueStore.cache].
  rewrite lru_get_all_keys_free. simpl.
  destruct (clear_keys_spec t ns (elements (dom m)) 0 cap0 m l log s nss false)
    as (st' & Hck & Hde & _ & _ & _ & Hh & Hm & _ & Hns & Hlk).
  unfold AsyncKeyValueStore.with_cache. simpl. rewrite Hck. simpl.
  rewrite delete_each_exact in Hde. injection Hde as Hde.
  destruct st' as [c' log' s' nss' lk']. simpl in *. subst c' nss' lk'.
  set (m' := filter (λ kn : string * AsyncNode, _) m).
  set (l' := filter _ l).
  assert (m' = filter (λ kn, String.prefix (ns +:+ ":") kn.1 = false) m) as Hm'.
  { apply map_filter_ext. intros k node Hk. simpl.
    rewrite list_elem_of_filter, elem_of_elements, elem_of_dom.
    destruct (String.prefix (ns +:+ ":") k); [|naive_solver].
    split; [|done]. intros H. exfalso. apply H. eauto. }
  assert (l' = filter (λ k, String.prefix (ns +:+ ":") k = false) l) as Hl'.
  { apply filter_ext_in. intros k Hk. apply Hc in Hk.
    rewrite list_elem_of_filter, elem_of_elements, elem_of_dom.
    destruct (String.prefix (ns +:+ ":") k); naive_solver. }
  assert (key_count (Some ns) m' = 0%nat) as Hz.
  { unfold key_count. apply length_zero_iff_nil, filter_none.
    intros k Hk Hp.
    apply elem_of_elements, elem_of_dom in Hk as [node Hk].
    rewrite Hm' in Hk. apply map_lookup_filter_Some in Hk as [_ Hf].
    simpl in Hf. congruence. }
  exists (store_of (cache_of cap0 m' l') log' s'
            (alter (AsyncKeyValueStore.set_total_keys 0) ns nss)).
  split.
  { destruct (nss !! ns) eqn:Hb; simpl.
    - unfold AsyncKeyValueStore.with_namespace_stats. simpl. done.
    - do 3 f_equal. apply map_eq. intros i.
      destruct (decide (i = ns)) as [->|Hi].
      + by rewrite lookup_alter_eq, Hb.
      + by rewrite lookup_alter_ne. }
  split; [apply store_size_free|].
  split; [apply quiescent_store_of|]. simpl.
  split; [done|]. split; [done|].
  split; [by rewrite store_size_free, Hz|]. done.
Qed.

(** X13.  After any completed run, [clear_namespace] returns; the number
    it returns is the number of stored full keys that start with the
    namespace and a colon, which is what [size] answered for the namespace;
    exactly those entries are gone from the dictionary and from the LRU
    list, all others are as they were, in their order; [size] of the
    namespace is 0 afterwards and its [total_keys] gauge, if it has a bucket,
    is 0, the other buckets and the hit and miss counters being untouched. *)
Theorem clear_namespace_removes_its_keys (cap : Z) (now : Q) (ops : list op)
    (w : world) (ns : string) :
  run ops (fresh cap now) = Done w →
  ∃ st',
    AsyncKeyValueStore.clear_namespace (clock w) ns (store w) =
      Done (key_count (Some ns) (entries (store w)), st') ∧
    AsyncKeyValueStore.size (Some ns) (store w) =
      Done (key_count (Some ns) (entries (store w)), store w) ∧
    quiescent st' ∧
    entries st' =
      filter (λ kn, String.prefix (ns +:+ ":") kn.1 = false) (entries (store w)) ∧
    lru_order st' =
      filter (λ k, String.prefix (ns +:+ ":") k = false) (lru_order (store w)) ∧
    AsyncKeyValueStore.size (Some ns) st' = Done (0%nat, st') ∧
    AsyncKeyValueStore.namespace_stats st' =
      alter (AsyncKeyValueStore.set_total_keys 0) ns
        (AsyncKeyValueStore.namespace_stats (store w)) ∧
    hits st' = hits (store w) ∧ misses st' = misses (store w).
Proof. apply clear_namespace_spec. Qed.

Lemma clear_namespace_removes_its_keys_witness :
  ∃ w st',
    run namespaced_ops (fresh 5 0) = Done w ∧
    AsyncKeyValueStore.clear_namespace (clock w) "app" (store w) = Done (2%nat, st') ∧
    lru_order st' = ["plain"; "db:x"].
Proof.
  eexists.
  match goal with
  | |- ∃ st', run ?ops ?w0 = Done ?w ∧ _ =>
      assert (run ops w0 = Done w) as Hrun by (vm_compute; reflexivity)
  end.
  match type of Hrun with _ = Done ?W => set (w := W) in * end.
  assert (key_count (Some "app") (entries (store w)) = 2%nat) as Hn
    by (vm_compute; reflexivity).
  assert (filter (λ k, String.prefix ("app" +:+ ":") k = false) (lru_order (store w)) =
          ["plain"; "db:x"]) as Hf by (vm_compute; reflexivity).
  destruct (clear_namespace_removes_its_keys 5 0 _ w "app" Hrun)
    as (st' & Hclear & _ & _ & _ & Hl & _).
  rewrite Hn in Hclear. rewrite Hf in Hl.
  exists st'. split; [exact Hrun|]. split; [exact Hclear|]. exact Hl.
Defined.

Lemma cleared_key_parses (ns fk : string) :
  ns ≠ "" → split_colon ns = None →
  String.prefix (ns +:+ ":") fk = true →
  AsyncKeyValueStore._make_namespaced_key (Some ns)
    (AsyncKeyValueStore._parse_namespaced_key fk).2 = fk.
Proof.
  intros Hne Hns Hp. apply prefix_app_iff in Hp as [rest ->].
  rewrite string_app_assoc.
  unfold AsyncKeyValueStore._parse_namespaced_key.
  rewrite (split_colon_app _ _ Hns). simpl.
  by destruct ns.
Qed.

Lemma clear_namespace_inv now ns st n st' :
  quiescent st →
  AsyncKeyValueStore.clear_namespace now ns st = Done (n, st') →
  n = length (cleared ns (entries st)) ∧
  wal st' = wal st ++ (clear_record now ns <$> cleared ns (entries st)) ∧
  (is_Some (AsyncKeyValueStore.log_file st) →
   is_Some (AsyncKeyValueStore.log_file st')) ∧
  log_size (AsyncKeyValueStore.stats st') =
    log_size (AsyncKeyValueStore.stats st) + Z.of_nat n.
Proof.
  intros Hq. open_store st Hq. unfold entries, cleared. simpl.
  unfold AsyncKeyValueStore.clear_namespace. cbn [AsyncKeyValueStore.cache].
  rewrite lru_get_all_keys_free. simpl.
  destruct (clear_keys_spec now ns (elements (dom m)) 0 cap m l log s nss false)
    as (st1 & Hck & _ & Hwal & Hlog & Hls & _).
  unfold AsyncKeyValueStore.with_cache. simpl. rewrite Hck. simpl.
  intros H.
  assert (n = length (filter (λ k, String.prefix (ns +:+ ":") k = true)
                        (elements (dom m))) ∧
          wal st' = wal st1 ∧
          (is_Some (AsyncKeyValueStore.log_file st1) →
           is_Some (AsyncKeyValueStore.log_file st')) ∧
          AsyncKeyValueStore.stats st' = AsyncKeyValueStore.stats st1)
    as (-> & -> & Hlog' & ->).
  { destruct (AsyncKeyValueStore.namespace_stats st1 !! ns);
      injection H as <- <-; done. }
  split; [done|]. split; [done|]. split; [tauto|]. done.
Qed.

Lemma omap_deleted_key_clear_record now ns (ks : list string) :
  (∀ fk, fk ∈ ks →
     AsyncKeyValueStore._make_namespaced_key (Some ns)
       (AsyncKeyValueStore._parse_namespaced_key fk).2 = fk) →
  omap deleted_key (clear_record now ns <$> ks) = ks.
Proof.
  induction ks as [|k ks IH]; intros Hks; [done|].
  rewrite fmap_cons.
  change (omap deleted_key (clear_record now ns k :: (clear_record now ns <$> ks)))
    with (AsyncKeyValueStore._make_namespaced_key (Some ns)
            (AsyncKeyValueStore._parse_namespaced_key k).2
          :: omap deleted_key (clear_record now ns <$> ks)).
  rewrite (Hks k) by (by left). f_equal.
  apply IH. intros fk Hfk. apply Hks. by right.
Qed.

(** X14.  [clear_namespace] appends to the log one [DEL] record for each
    entry it deletes and nothing else, and [log_size] grows by the number it
    returns.  For a namespace that is not empty and holds no colon the
    records name exactly the full keys deleted, so that replaying them
    deletes these keys again. *)
Theorem clear_namespace_logs_a_DEL_per_key (now : Q) (ns : string)
    (st st' : AsyncKeyValueStore.t) (n : nat) :
  quiescent st →
  AsyncKeyValueStore.clear_namespace now ns st = Done (n, st') →
  ∃ dels,
    wal st' = wal st ++ dels ∧
    length dels = n ∧
    Forall (λ e, is_DEL e = true) dels ∧
    log_size (AsyncKeyValueStore.stats st') =
      log_size (AsyncKeyValueStore.stats st) + Z.of_nat n ∧
    (ns ≠ "" → split_colon ns = None →
     omap deleted_key dels = cleared ns (entries st)).
Proof.
  intros Hq Hclear.
  destruct (clear_namespace_inv _ _ _ _ _ Hq Hclear) as (-> & Hwal & _ & Hls).
  eexists. split; [exact Hwal|]. split; [by rewrite length_fmap|].
  split; [by apply Forall_fmap, Forall_true|]. split; [done|].
  intros Hne Hns. apply omap_deleted_key_clear_record.
  intros fk Hfk. apply list_elem_of_filter in Hfk as [Hp _].
  by apply cleared_key_parses.
Qed.

Lemma clear_namespace_logs_a_DEL_per_key_witness :
  ∃ w st',
    run namespaced_ops (fresh 5 0) = Done w ∧
    AsyncKeyValueStore.clear_namespace (clock w) "app" (store w) = Done (2%nat, st') ∧
    log_size (AsyncKeyValueStore.stats st') =
      log_size (AsyncKeyValueStore.stats (store w)) + 2 ∧
    ∃ dels, wal st' = wal (store w) ++ dels ∧ length dels = 2%nat.
Proof.
  eexists _, _.
  match goal with
  | |- run ?ops ?w0 = Done ?w ∧ _ =>
      assert (run ops w0 = Done w) as Hrun by (vm_compute; reflexivity)
  end.
  match type of Hrun with _ = Done ?W => set (w := W) in * end.
  match goal with
  | |- _ ∧ ?c = Done (_, ?st') ∧ _ =>
      assert (c = Done (2%nat, st')) as Hclear by (vm_compute; reflexivity)
  end.
  match type of Hclear with _ = Done (_, ?S) => set (st' := S) in * end.
  destruct (clear_namespace_logs_a_DEL_per_key (clock w) "app" (store w) st' 2
              ltac:(repeat split) Hclear)
    as (dels & Hwal & Hlen & _ & Hls & _).
  split; [exact Hrun|]. split; [exact Hclear|].
  split; [exact Hls|]. exists dels. split; [exact Hwal | exact Hlen].
Defined.

Lemma replay_all_dels tr t ns ks c :
  (∀ fk, fk ∈ ks →
     AsyncKeyValueStore._make_namespaced_key (Some ns)
       (AsyncKeyValueStore._parse_namespaced_key fk).2 = fk) →
  AsyncKeyValueStore.replay_all tr (clear_record t ns <$> ks) c =
  AsyncLRUCache.delete_each ks c.
Proof.
  revert c. induction ks as [|k ks IH]; intros c Hks; [done|].
  rewrite fmap_cons. cbn [AsyncKeyValueStore.replay_all AsyncLRUCache.delete_each
    AsyncKeyValueStore.replay clear_record].
  rewrite (Hks k) by (by left).
  destruct (AsyncLRUCache.delete k c) as [[b c']| |]; simpl; [|done..].
  apply IH. intros fk Hfk. apply Hks. by right.
Qed.

(** X15.  Clearing a namespace that is not empty and holds no colon is
    durable: if recovery from the log before the clearing completes, then
    recovery from the log after it completes too, at the same instant and
    capacity, and yields the same entries except those under the full keys
    that were cleared, which are absent. *)
Theorem clear_namespace_is_durable (now tr : Q) (cap' : Z) (ns : string)
    (st st' st_r : AsyncKeyValueStore.t) (n : nat) :
  quiescent st →
  ns ≠ "" → split_colon ns = None →
  AsyncKeyValueStore.clear_namespace now ns st = Done (n, st') →
  restart tr cap' st = Done st_r →
  ∃ st_r',
    restart tr cap' st' = Done st_r' ∧
    quiescent st_r' ∧
    entries st_r' = filter (λ kn, kn.1 ∉ cleared ns (entries st)) (entries st_r) ∧
    ∀ k, k ∈ cleared ns (entries st) → entries st_r' !! k = None.
Proof.
  intros Hq Hne Hns Hclear Hrestart.
  destruct (clear_namespace_inv _ _ _ _ _ Hq Hclear) as (_ & Hwal & _ & _).
  rewrite restart_free in Hrestart.
  destruct (replay_all_result tr (wal st) cap' ∅ []) as [[mr lr]| |] eqn:Hrep;
    [|done..].
  injection Hrestart as <-.
  rewrite restart_free, Hwal, replay_all_result_app, Hrep. simpl.
  pose proof (replay_all_free tr (clear_record now ns <$> cleared ns (entries st))
                cap' mr lr) as Hfree.
  rewrite replay_all_dels, delete_each_exact in Hfree.
  2:{ intros fk Hfk. apply list_elem_of_filter in Hfk as [Hp _].
      by apply cleared_key_parses. }
  destruct (replay_all_result tr _ cap' mr lr) as [[m' l']| |]; [|done..].
  injection Hfree as <- <-. simpl.
  eexists. split; [reflexivity|]. split; [apply quiescent_store_of|].
  unfold entries at 1 3. simpl. split; [done|].
  intros k Hk. apply map_lookup_filter_None. right. intros node _. simpl. tauto.
Qed.

Lemma clear_namespace_is_durable_witness :
  ∃ w st' st_r st_r',
    run namespaced_ops (fresh 5 0) = Done w ∧
    AsyncKeyValueStore.clear_namespace (clock w) "app" (store w) = Done (2%nat, st') ∧
    restart 1 5 (store w) = Done st_r ∧
    restart 1 5 st' = Done st_r' ∧
    entries st_r' !! "app:y" = None.
Proof.
  eexists _, _, _.
  match goal with
  | |- ∃ st_r', run ?ops ?w0 = Done ?w ∧ _ =>
      assert (run ops w0 = Done w) as Hrun by (vm_compute; reflexivity)
  end.
  match type of Hrun with _ = Done ?W => set (w := W) in * end.
  match goal with
  | |- ∃ st_r', _ ∧ ?c = Done (_, ?st') ∧ _ =>
      assert (c = Done (2%nat, st')) as Hclear by (vm_compute; reflexivity)
  end.
  match type of Hclear with _ = Done (_, ?S) => set (st' := S) in * end.
  match goal with
  | |- ∃ st_r', _ ∧ _ ∧ ?r = Done ?st_r ∧ _ =>
      assert (r = Done st_r) as Hrestart by (vm_compute; reflexivity)
  end.
  match type of Hrestart with _ = Done ?S => set (st_r := S) in * end.
  assert ("app:y" ∈ cleared "app" (entries (store w))) as Hin.
  { apply (bool_decide_unpack _). vm_compute. exact I. }
  destruct (clear_namespace_is_durable (clock w) 1 5 "app" (store w) st' st_r 2
              ltac:(repeat split) ltac:(done) ltac:(reflexivity)
              Hclear Hrestart)
    as (st_r' & Hr' & _ & _ & Hgone).
  exists st_r'. split; [exact Hrun|]. split; [exact Hclear|].
  split; [exact Hrestart|]. split; [exact Hr'|].
  apply Hgone, Hin.
Defined.

(** For a namespace whose name holds a colon the clearing is not durable:
    the record logged for a full key names the key after the first colon of
    the full key, under the whole namespace, which is another full key; the
    cleared entry is back after recovery. *)
Example clear_namespace_is_undone_by_recovery :
  ∃ w st' st_r,
    run nested_ops (fresh 5 0) = Done w ∧
    AsyncKeyValueStore.clear_namespace (clock w) "a:b" (store w) = Done (1%nat, st') ∧
    answer (AsyncKeyValueStore.get 1 "k" (Some "a:b") st') = Done None ∧
    wal st' = wal (store w) ++ [DEL 0 "b:k" (Some "a:b")] ∧
    restart 1 5 st' = Done st_r ∧
    answer (AsyncKeyValueStore.get 1 "k" (Some "a:b") st_r) = Done (Some "1").
Proof.
  eexists _, _, _.
  match goal with
  | |- run ?ops ?w0 = Done ?w ∧ _ =>
      assert (run ops w0 = Done w) as Hrun by (vm_compute; reflexivity)
  end.
  match type of Hrun with _ = Done ?W => set (w := W) in * end.
  match goal with
  | |- _ ∧ ?c = Done (_, ?st') ∧ _ =>
      assert (c = Done (1%nat, st')) as Hclear by (vm_compute; reflexivity)
  end.
  match type of Hclear with _ = Done (_, ?S) => set (st' := S) in * end.
  match goal with
  | |- _ ∧ _ ∧ _ ∧ _ ∧ ?r = Done ?st_r ∧ _ =>
      assert (r = Done st_r) as Hrestart by (vm_compute; reflexivity)
  end.
  match type of Hrestart with _ = Done ?S => set (st_r := S) in * end.
  split; [exact Hrun|]. split; [exact Hclear|].
  split; [vm_compute; reflexivity|]. split; [vm_compute; reflexivity|].
  split; [exact Hrestart|]. vm_compute; reflexivity.
Qed.

(** ** Compaction followed by recovery *)

Lemma compact_log_free now cap m l log0 s nss :
  ∃ l',
    AsyncKeyValueStore.compact_log now
      (store_of (cache_of cap m l) (Some log0) s nss) =
    Done (store_of
            (cache_of cap
               (filter (λ kn, AsyncLRUCache._is_expired now kn.2 = false) m) l')
            (Some (compacted now m))
            {| cache_hits := cache_hits s; cache_misses := cache_misses s;
               evictions := evictions s;
               log_size := Z.of_nat (length (compacted now m));
               last_compaction := Some now; start_time := start_time s |}
            nss).
Proof.
  unfold AsyncKeyValueStore.compact_log. simpl.
  unfold AsyncLRUCache.release. simpl.
  destruct (snapshot_free now (elements (dom m)) cap m l) as (l' & ->). simpl.
  exists l'. fold (compacted now m). by rewrite purge_all.
Qed.


Lemma replay_result_recovered tr e cap m l m' l' :
  is_SET e = true →
  replay_result tr e cap m l = Done (m', l') → m' = add_recovered tr m e.
Proof.
  unfold add_recovered.
  destruct e as [ts key v ttl ns|ts key ns]; simpl; [|done]. intros _.
  destruct ttl as [t|]; [|apply put_result_insert].
  destruct (truthy_int (Some t)); [|apply put_result_insert].
  destruct (Qle_bool _ 0); [by intros [= <- _] | apply put_result_insert].
Qed.















(** ** The linked list and the cache on their own *)

Lemma remove_from_end_Done (d d' : AsyncDoublyLinkedList.t) (r : option string) :
  AsyncDoublyLinkedList.remove_from_end d = Done (r, d') →
  r = None ∧ AsyncDoublyLinkedList.nodes d = [] ∧ d' = d.
Proof.
  destruct d as [l lk]. unfold AsyncDoublyLinkedList.remove_from_end,
    AsyncDoublyLinkedList.acquire. simpl.
  destruct lk; [done|]. simpl.
  destruct (last l) as [lru|] eqn:Hlast; simpl; [done|].
  intros [= <- <-]. apply last_None in Hlast. by subst l.
Qed.

(** X17.  [remove_from_end] never returns a node: whenever it returns, the
    list is empty, the answer is [None] and the list is as it was.  On a
    list that holds a node it awaits [remove_node] while it holds the list's
    lock, which [remove_node] waits for. *)
Theorem remove_from_end_never_returns_a_node (d d' : AsyncDoublyLinkedList.t)
    (r : option string) :
  AsyncDoublyLinkedList.remove_from_end d = Done (r, d') →
  r = None ∧ AsyncDoublyLinkedList.nodes d = [] ∧ d' = d.
Proof. apply remove_from_end_Done. Qed.

Lemma remove_from_end_never_returns_a_node_witness :
  AsyncDoublyLinkedList.remove_from_end AsyncDoublyLinkedList.init =
    Done (None, AsyncDoublyLinkedList.init) ∧
  AsyncDoublyLinkedList.nodes AsyncDoublyLinkedList.init = [].
Proof.
  assert (AsyncDoublyLinkedList.remove_from_end AsyncDoublyLinkedList.init =
          Done (None, AsyncDoublyLinkedList.init)) as H by reflexivity.
  split; [exact H|].
  exact (proj1 (proj2 (remove_from_end_never_returns_a_node _ _ _ H))).
Defined.

(** X18.  [put] never evicts: whenever it returns, on a cache in any state
    of its locks, the dictionary is the one it was with the new entry put
    under the key, so that every entry under another key is still there, and
    the capacity is what it was. *)
Theorem put_never_evicts (now : Q) (k v : string) (ttl : option Q)
    (c c' : AsyncLRUCache.t) :
  AsyncLRUCache.put now k v ttl c = Done c' →
  AsyncLRUCache.cache c' = <[k := AsyncNode_init now v ttl]> (AsyncLRUCache.cache c) ∧
  AsyncLRUCache.capacity c' = AsyncLRUCache.capacity c.
Proof.
  destruct c as [cap m d lk]. unfold AsyncLRUCache.put, AsyncLRUCache.acquire.
  simpl. destruct lk; [done|]. simpl.
  destruct (m !! k) as [node|] eqn:Hk; simpl.
  - destruct (AsyncDoublyLinkedList.move_to_front k d) as [d1| |]; simpl; [|done..].
    by intros [= <-].
  - destruct (bool_decide _); simpl.
    + destruct (AsyncDoublyLinkedList.remove_from_end d) as [[r d1]| |] eqn:Hr;
        simpl; [|done..].
      apply remove_from_end_Done in Hr as (-> & _ & ->). simpl.
      destruct (AsyncDoublyLinkedList.add_to_front k d) as [d2| |]; simpl; [|done..].
      by intros [= <-].
    + destruct (AsyncDoublyLinkedList.add_to_front k d) as [d2| |]; simpl; [|done..].
      by intros [= <-].
Qed.

Lemma put_never_evicts_witness :
  ∃ c c',
    AsyncLRUCache.put 0 "a" "1" None (AsyncLRUCache.init 0) = Done c ∧
    AsyncLRUCache.put 1 "a" "2" None c = Done c' ∧
    AsyncLRUCache.cache c' = <[ "a" := AsyncNode_init 1 "2" None ]> (AsyncLRUCache.cache c).
Proof.
  eexists _, _. split; [reflexivity|].
  match goal with
  | |- ?p = Done ?c' ∧ _ =>
      assert (p = Done c') as H by (vm_compute; reflexivity);
      split; [exact H | exact (proj1 (put_never_evicts _ _ _ _ _ _ H))]
  end.
Defined.

(** X19.  [clear] on a cache whose lock is free returns whatever the state
    of the list's lock; afterwards the cache is empty, with the capacity it
    had, and no lock is held, so that [size] answers 0, every [get] answers
    absent and leaves the cache empty, and a [put] of any key returns,
    whatever the capacity, and leaves that key alone in the cache. *)
Theorem clear_empties_and_unlocks (c : AsyncLRUCache.t) :
  AsyncLRUCache.lock c = false →
  AsyncLRUCache.clear c = Done (cache_of (AsyncLRUCache.capacity c) ∅ []) ∧
  AsyncLRUCache.size (cache_of (AsyncLRUCache.capacity c) ∅ []) =
    Done (0%nat, cache_of (AsyncLRUCache.capacity c) ∅ []) ∧
  (∀ now k,
     AsyncLRUCache.get now k (cache_of (AsyncLRUCache.capacity c) ∅ []) =
       Done (None, cache_of (AsyncLRUCache.capacity c) ∅ [])) ∧
  (∀ now k v ttl,
     AsyncLRUCache.put now k v ttl (cache_of (AsyncLRUCache.capacity c) ∅ []) =
       Done (cache_of (AsyncLRUCache.capacity c)
               {[ k := AsyncNode_init now v ttl ]} [k])).
Proof.
  destruct c as [cap m d lk]. simpl. intros ->.
  split; [reflexivity|]. split; [reflexivity|]. split.
  - intros now k. rewrite lru_get_free. by rewrite lookup_empty.
  - intros now k v ttl. rewrite lru_put_result. unfold put_result.
    rewrite lookup_empty, map_size_empty. simpl.
    by destruct (bool_decide _).
Qed.

Lemma clear_empties_and_unlocks_witness :
  ∃ c c',
    AsyncLRUCache.put 0 "a" "1" None (AsyncLRUCache.init 1) = Done c ∧
    AsyncLRUCache.put 0 "b" "2" None c = Deadlock ∧
    AsyncLRUCache.clear c = Done c' ∧
    AsyncLRUCache.put 0 "b" "2" None c' =
      Done (cache_of 1 {[ "b" := AsyncNode_init 0 "2" None ]} ["b"]).
Proof.
  eexists _, _. split; [reflexivity|]. split; [vm_compute; reflexivity|].
  match goal with
  | |- AsyncLRUCache.clear ?c = _ ∧ _ =>
      destruct (clear_empties_and_unlocks c eq_refl) as (Hclear & _ & _ & Hput)
  end.
  split; [exact Hclear|]. apply Hput.
Defined.

(** X20.  [get_raw] answers like [get]: on a cache whose locks are free it
    returns a value exactly when [get] does, and the same one, with the
    expiry of the entry; on a miss both leave the same cache behind, an
    expired entry being removed by either; on a hit [get_raw] leaves the
    cache as it was, order and access times included. *)
Theorem get_raw_answers_like_get (now : Q) (k : string) (cap : Z)
    (m : gmap string AsyncNode) (l : list string) :
  ∃ r c_raw v c_get,
    AsyncLRUCache.get_raw now k (cache_of cap m l) = Done (r, c_raw) ∧
    AsyncLRUCache.get now k (cache_of cap m l) = Done (v, c_get) ∧
    v = fst <$> r ∧
    (r = None → c_raw = c_get) ∧
    (∀ x e, r = Some (x, e) →
            c_raw = cache_of cap m l ∧
            ∃ node, m !! k = Some node ∧ value node = x ∧ expires_at node = e).
Proof.
  rewrite lru_get_raw_free, lru_get_free.
  destruct (m !! k) as [node|] eqn:Hk; simpl.
  - destruct (AsyncLRUCache._is_expired now node); simpl.
    + eexists _, _, _, _. split; [reflexivity|]. split; [reflexivity|].
      split; [done|]. split; [done|]. by intros x e.
    + eexists _, _, _, _. split; [reflexivity|]. split; [reflexivity|].
      split; [done|]. split; [done|]. intros x e [= <- <-]. eauto.
  - eexists _, _, _, _. split; [reflexivity|]. split; [reflexivity|].
    split; [done|]. split; [done|]. by intros x e.
Qed.

(** ** The statistics report *)

(** X21.  [get_stats] on a store whose locks are free returns, and changes
    neither the cache, nor the log, nor the global statistics.  Without a
    namespace, or with the empty one, it reports the size of the whole cache
    and the table of all buckets, and changes nothing.  With a namespace it
    reports what [size] answers for it, the number of stored full keys that
    start with the namespace and a colon, and the namespace's bucket, which
    it creates, at zero, when there is none. *)
Theorem get_stats_reports (now : Q) (namespace : option string)
    (st : AsyncKeyValueStore.t) :
  quiescent st →
  ∃ r st',
    AsyncKeyValueStore.get_stats now namespace st = Done (r, st') ∧
    AsyncKeyValueStore.cache st' = AsyncKeyValueStore.cache st ∧
    AsyncKeyValueStore.log_file st' = AsyncKeyValueStore.log_file st ∧
    AsyncKeyValueStore.stats st' = AsyncKeyValueStore.stats st ∧
    quiescent st' ∧
    report_cache_hits r = hits st ∧ report_cache_misses r = misses st ∧
    report_log_size r = log_size (AsyncKeyValueStore.stats st) ∧
    report_total_keys r = key_count (denoted namespace) (entries st) ∧
    AsyncKeyValueStore.size (denoted namespace) st = Done (report_total_keys r, st) ∧
    match denoted namespace with
    | Some ns =>
        AsyncKeyValueStore.namespace_stats st' =
          init_ns ns (AsyncKeyValueStore.namespace_stats st) ∧
        report_namespace r = Some ns ∧
        report_namespace_stats r =
          Some (default zero_ns (AsyncKeyValueStore.namespace_stats st !! ns)) ∧
        report_namespaces r = None
    | None =>
        st' = st ∧
        report_namespace r = None ∧ report_namespace_stats r = None ∧
        report_namespaces r = Some (AsyncKeyValueStore.namespace_stats st)
    end.
Proof.
  intros Hq. open_store st Hq.
  unfold AsyncKeyValueStore.get_stats, hits, misses, entries. simpl.
  destruct namespace as [[|c ns]|]; simpl.
  - eexists _, _. split; [reflexivity|]. repeat split.
  - unfold AsyncKeyValueStore._init_namespace_stats. simpl.
    change (AsyncKeyValueStore.ns_label (Some (String c ns))) with (String c ns).
    destruct (nss !! String c ns) as [b|] eqn:Hb; simpl.
    + eexists _, _. split; [reflexivity|]. simpl.
      unfold init_ns. rewrite Hb. repeat split.
    + eexists _, _. split; [reflexivity|]. simpl.
      unfold init_ns. rewrite Hb, lookup_insert_eq. repeat split.
  - eexists _, _. split; [reflexivity|]. repeat split.
Qed.

Lemma get_stats_reports_witness :
  ∃ r st',
    AsyncKeyValueStore.get_stats 5 (Some "app") sample_store = Done (r, st') ∧
    report_total_keys r = 0%nat ∧
    report_namespace_stats r = Some zero_ns ∧
    AsyncKeyValueStore.namespace_stats st' !! "app" = Some zero_ns.
Proof.
  destruct (get_stats_reports 5 (Some "app") sample_store ltac:(repeat split))
    as (r & st' & Hget & _ & _ & _ & _ & _ & _ & _ & Hn & _ & Hns & _ & Hb & _).
  exists r, st'. split; [exact Hget|]. split; [exact Hn|]. split; [exact Hb|].
  simpl in Hns. rewrite Hns. vm_compute. reflexivity.
Defined.

(** ** How the operations on the whole store compose *)

(** X22.  Compaction is not observable through [get]: on a store whose
    locks are free [compact_log] returns, whether or not a log file exists,
    and every [get] issued at the instant of the compaction or later is
    answered by the store it leaves as the store before it would have
    answered it; the hit and miss counters and the buckets are as they
    were. *)
Theorem compaction_preserves_answers (now : Q) (st : AsyncKeyValueStore.t) :
  quiescent st →
  ∃ st',
    AsyncKeyValueStore.compact_log now st = Done st' ∧
    quiescent st' ∧
    (∀ tg key namespace,
       (now <= tg)%Q →
       answer (AsyncKeyValueStore.get tg key namespace st') =
       answer (AsyncKeyValueStore.get tg key namespace st)) ∧
    hits st' = hits st ∧ misses st' = misses st ∧
    AsyncKeyValueStore.namespace_stats st' = AsyncKeyValueStore.namespace_stats st.
Proof.
  intros Hq. open_store st Hq. destruct log as [log0|].
  - destruct (compact_log_free now cap m l log0 s nss) as (l' & ->).
    eexists. split; [reflexivity|]. split; [apply quiescent_store_of|].
    split; [|done].
    intros tg key namespace Htg. rewrite !store_get_answer. f_equal.
    rewrite map_lookup_filter.
    destruct (m !! AsyncKeyValueStore._make_namespaced_key namespace key)
      as [node|]; simpl; [|done].
    case_guard as Hg; simpl in Hg; simpl; [done|].
    unfold AsyncLRUCache._is_expired in *.
    destruct (expires_at node) as [e|]; [|done].
    destruct (Qltb e now) eqn:He; [|done].
    apply Qltb_lt in He.
    assert (Qltb e tg = true) as ->; [|done].
    apply Qltb_lt. lra.
  - exists (store_of (cache_of cap m l) None s nss).
    split; [reflexivity|]. split; [apply quiescent_store_of|]. done.
Qed.

Lemma compaction_preserves_answers_witness :
  ∃ st',
    AsyncKeyValueStore.compact_log 5 sample_store = Done st' ∧
    answer (AsyncKeyValueStore.get 6 "a" None st') = Done (Some "1") ∧
    answer (AsyncKeyValueStore.get 11 "a" None st') = Done None.
Proof.
  destruct (compaction_preserves_answers 5 sample_store ltac:(repeat split))
    as (st' & Hc & _ & Hget & _).
  exists st'. split; [exact Hc|].
  rewrite !Hget by (vm_compute; discriminate).
  split; vm_compute; reflexivity.
Defined.

(** X23.  After any completed run, once [clear_namespace] has returned
    the namespace is not among those that [list_namespaces] lists, and no
    namespace is listed that was not listed before; when the name of the
    cleared namespace holds no colon, every other namespace that was listed
    is listed still. *)
Theorem cleared_namespace_is_not_listed (cap : Z) (now : Q) (ops : list op)
    (w : world) (ns : string) (n : nat) (st' : AsyncKeyValueStore.t) :
  run ops (fresh cap now) = Done w →
  AsyncKeyValueStore.clear_namespace (clock w) ns (store w) = Done (n, st') →
  ∃ before after,
    AsyncKeyValueStore.list_namespaces (store w) = Done (before, store w) ∧
    AsyncKeyValueStore.list_namespaces st' = Done (after, st') ∧
    ns ∉ after ∧
    (∀ ns', ns' ∈ after → ns' ∈ before) ∧
    (split_colon ns = None →
     ∀ ns', ns' ≠ ns → ns' ∈ before → ns' ∈ after).
Proof.
  intros Hrun Hclear.
  destruct (clear_namespace_spec cap now ops w ns Hrun)
    as (st1 & Hclear1 & _ & Hq' & Hm' & _).
  rewrite Hclear in Hclear1. injection Hclear1 as _ <-.
  destruct (invariant_run cap ops _ _ Hrun (invariant_fresh cap now))
    as [Hq _ _ _].
  destruct (list_namespaces_spec (store w) Hq) as (before & Hb & _ & _ & Hbin).
  destruct (list_namespaces_spec st' Hq') as (after & Ha & _ & _ & Hain).
  exists before, after. split; [done|]. split; [done|].
  assert (∀ a key, String.prefix (a +:+ ":") (a +:+ ":" +:+ key) = true) as Hpre.
  { intros a key. apply prefix_app_iff. exists key. by rewrite string_app_assoc. }
  split; [|split].
  - intros Hin. apply Hain in Hin as (_ & _ & key & [node Hk]).
    rewrite Hm' in Hk. apply map_lookup_filter_Some in Hk as [_ Hf].
    simpl in Hf. rewrite Hpre in Hf. done.
  - intros ns' Hin. apply Hain in Hin as (Hne & Hc & key & [node Hk]).
    apply Hbin. split; [done|]. split; [done|]. exists key.
    rewrite Hm' in Hk. apply map_lookup_filter_Some in Hk as [Hk _]. eauto.
  - intros Hns ns' Hne' Hin. apply Hbin in Hin as (Hne & Hc & key & [node Hk]).
    apply Hain. split; [done|]. split; [done|]. exists key.
    rewrite Hm'. exists node. apply map_lookup_filter_Some. split; [done|].
    simpl. destruct (String.prefix (ns +:+ ":") (ns' +:+ ":" +:+ key)) eqn:Hp;
      [|done].
    exfalso. apply prefix_app_iff in Hp as [rest Hp].
    rewrite string_app_assoc in Hp.
    apply (f_equal split_colon) in Hp.
    rewrite !split_colon_app in Hp by done. congruence.
Qed.

Lemma cleared_namespace_is_not_listed_witness :
  ∃ w st' before after,
    run namespaced_ops (fresh 5 0) = Done w ∧
    AsyncKeyValueStore.clear_namespace (clock w) "app" (store w) = Done (2%nat, st') ∧
    AsyncKeyValueStore.list_namespaces (store w) = Done (before, store w) ∧
    AsyncKeyValueStore.list_namespaces st' = Done (after, st') ∧
    "app" ∉ after.
Proof.
  eexists _, _.
  match goal with
  | |- ∃ before after, run ?ops ?w0 = Done ?w ∧ _ =>
      assert (run ops w0 = Done w) as Hrun by (vm_compute; reflexivity)
  end.
  match type of Hrun with _ = Done ?W => set (w := W) in * end.
  match goal with
  | |- ∃ before after, _ ∧ ?c = Done (_, ?st') ∧ _ =>
      assert (c = Done (2%nat, st')) as Hclear by (vm_compute; reflexivity)
  end.
  match type of Hclear with _ = Done (_, ?S) => set (st' := S) in * end.
  destruct (cleared_namespace_is_not_listed 5 0 _ w "app" 2 st' Hrun Hclear)
    as (before & after & Hb & Ha & Hnot & _).
  exists before, after. split; [exact Hrun|]. split; [exact Hclear|].
  split; [exact Hb|]. split; [exact Ha | exact Hnot].
Defined.

(** X25.  The sweep is not observable through [get] either: after any
    completed run a sweep of the cleanup task returns, and every [get] issued
    at the instant of the sweep or later is answered by the store it leaves as
    the store before it would have answered it. *)
Theorem sweep_preserves_answers (cap : Z) (now : Q) (ops : list op) (w : world) :
  run ops (fresh cap now) = Done w →
  ∃ w',
    step Cleanup w = Done w' ∧
    ∀ tg key namespace,
      (clock w <= tg)%Q →
      answer (AsyncKeyValueStore.get tg key namespace (store w')) =
      answer (AsyncKeyValueStore.get tg key namespace (store w)).
Proof.
  intros Hrun.
  destruct (invariant_run cap ops _ _ Hrun (invariant_fresh cap now))
    as [Hq _ Hc _].
  destruct w as [t st]. simpl in *. open_store st Hq.
  unfold entries, lru_order in *. simpl in *.
  rewrite (remove_expired_items_exact t cap0 m l Hc). simpl.
  eexists. split; [reflexivity|]. simpl.
  intros tg key namespace Htg.
  unfold AsyncKeyValueStore.with_cache. simpl.
  rewrite !store_get_answer. f_equal. rewrite map_lookup_filter.
  destruct (m !! AsyncKeyValueStore._make_namespaced_key namespace key)
    as [node|]; simpl; [|done].
  case_guard as Hg; simpl in Hg; simpl; [done|].
  unfold AsyncLRUCache.sweepable, AsyncLRUCache._is_expired in *.
  destruct (expires_at node) as [e|]; [|done].
  destruct (truthy (Some e)); simpl in Hg; [|done].
  destruct (Qltb e t) eqn:He; [|done].
  apply Qltb_lt in He.
  assert (Qltb e tg = true) as ->; [|done].
  apply Qltb_lt. lra.
Qed.

Lemma sweep_preserves_answers_witness :
  ∃ w w',
    run sample_ops (fresh 3 0) = Done w ∧
    step Cleanup w = Done w' ∧
    answer (AsyncKeyValueStore.get 3 "c" (Some "app") (store w')) = Done (Some "3").
Proof.
  eexists.
  match goal with
  | |- ∃ w', run ?ops ?w0 = Done ?w ∧ _ =>
      assert (run ops w0 = Done w) as Hrun by (vm_compute; reflexivity)
  end.
  match type of Hrun with _ = Done ?W => set (w := W) in * end.
  destruct (sweep_preserves_answers 3 0 _ w Hrun) as (w' & Hstep & Hget).
  exists w'. split; [exact Hrun|]. split; [exact Hstep|].
  rewrite Hget by (vm_compute; discriminate).
  vm_compute. reflexivity.
Defined.

(** X26.  What [get] answers after a namespace has been cleared: after any
    completed run, once [clear_namespace] has returned, a [get] is answered
    absent when its full key starts with the namespace and a colon, and as it
    would have been answered before the clearing otherwise.  So every key of
    a cleared namespace that is not empty is absent, and so is a key stored
    under no namespace whose name starts with the namespace and a colon. *)
Theorem get_after_clear_namespace (cap : Z) (now : Q) (ops : list op)
    (w : world) (ns : string) (n : nat) (st' : AsyncKeyValueStore.t) :
  run ops (fresh cap now) = Done w →
  AsyncKeyValueStore.clear_namespace (clock w) ns (store w) = Done (n, st') →
  (∀ tg key namespace,
     answer (AsyncKeyValueStore.get tg key namespace st') =
     if String.prefix (ns +:+ ":")
          (AsyncKeyValueStore._make_namespaced_key namespace key)
     then Done None
     else answer (AsyncKeyValueStore.get tg key namespace (store w))) ∧
  (ns ≠ "" →
   ∀ tg key, answer (AsyncKeyValueStore.get tg key (Some ns) st') = Done None) ∧
  (∀ tg rest,
     answer (AsyncKeyValueStore.get tg (ns +:+ ":" +:+ rest) None st') = Done None).
Proof.
  intros Hrun Hclear.
  destruct (clear_namespace_spec cap now ops w ns Hrun)
    as (st1 & Hclear1 & _ & Hq' & Hm' & _).
  rewrite Hclear in Hclear1. injection Hclear1 as _ <-.
  destruct (invariant_run cap ops _ _ Hrun (invariant_fresh cap now))
    as [Hq _ _ _].
  assert (∀ tg key namespace,
            answer (AsyncKeyValueStore.get tg key namespace st') =
            if String.prefix (ns +:+ ":")
                 (AsyncKeyValueStore._make_namespaced_key namespace key)
            then Done None
            else answer (AsyncKeyValueStore.get tg key namespace (store w))) as Hall.
  { intros tg key namespace.
    destruct w as [t st]. simpl in *.
    open_store st Hq. open_store st' Hq'.
    unfold entries in Hm'. simpl in Hm'. subst m0.
    rewrite !store_get_answer, map_lookup_filter.
    destruct (String.prefix (ns +:+ ":")
                (AsyncKeyValueStore._make_namespaced_key namespace key)) eqn:Hp.
    - destruct (m !! _) as [node|]; simpl; [|done].
      case_guard as Hg; simpl in Hg; [congruence | done].
    - destruct (m !! _) as [node|]; simpl; [|done].
      case_guard as Hg; simpl in Hg; [done | congruence]. }
  assert (∀ a key, String.prefix (a +:+ ":") (a +:+ ":" +:+ key) = true) as Hpre.
  { intros a key. apply prefix_app_iff. exists key. by rewrite string_app_assoc. }
  split; [exact Hall|]. split.
  - intros Hne tg key. rewrite Hall.
    assert (AsyncKeyValueStore._make_namespaced_key (Some ns) key =
            ns +:+ ":" +:+ key) as -> by (by destruct ns).
    by rewrite Hpre.
  - intros tg rest. rewrite Hall.
    change (AsyncKeyValueStore._make_namespaced_key None (ns +:+ ":" +:+ rest))
      with (ns +:+ ":" +:+ rest).
    by rewrite Hpre.
Qed.

Lemma get_after_clear_namespace_witness :
  ∃ w st',
    run namespaced_ops (fresh 5 0) = Done w ∧
    AsyncKeyValueStore.clear_namespace (clock w) "app" (store w) = Done (2%nat, st') ∧
    answer (AsyncKeyValueStore.get 1 "y" (Some "app") st') = Done None ∧
    answer (AsyncKeyValueStore.get 1 "x" (Some "db") st') = Done (Some "1").
Proof.
  eexists _, _.
  match goal with
  | |- run ?ops ?w0 = Done ?w ∧ _ =>
      assert (run ops w0 = Done w) as Hrun by (vm_compute; reflexivity)
  end.
  match type of Hrun with _ = Done ?W => set (w := W) in * end.
  match goal with
  | |- _ ∧ ?c = Done (_, ?st') ∧ _ =>
      assert (c = Done (2%nat, st')) as Hclear by (vm_compute; reflexivity)
  end.
  match type of Hclear with _ = Done (_, ?S) => set (st' := S) in * end.
  destruct (get_after_clear_namespace 5 0 _ w "app" 2 st' Hrun Hclear)
    as (Hall & Hns & _).
  split; [exact Hrun|]. split; [exact Hclear|]. split.
  - apply Hns. discriminate.
  - rewrite Hall. vm_compute. reflexivity.
Defined.

(** ** The performance monitor *)

Lemma record_operation_free now op d ok msg max ms oc ec t0 :
  PerformanceMonitor.record_operation now op d ok msg
    (PerformanceMonitor.mk max ms oc ec t0 false) =
  Done (PerformanceMonitor.mk max
          (deque_append max ms
             (metric_of (mkRecording now op d ok msg)))
          (increment op oc)
          (if negb ok then increment op ec else ec) t0 false).
Proof. reflexivity. Qed.

Lemma deque_append_drop {A : Type} (max : nat) (d : list A) (x : A) :
  (length d ≤ max)%nat →
  deque_append max d x = drop (length d + 1 - max) (d ++ [x]) ∧
  (length (deque_append max d x) ≤ max)%nat.
Proof.
  intros Hd. unfold deque_append. rewrite length_app. simpl.
  destruct (Nat.ltb_spec max (length d + 1)) as [Hlt|Hge].
  - replace (length d + 1 - max)%nat with 1%nat by lia.
    split; [done|]. rewrite length_drop, length_app. simpl. lia.
  - replace (length d + 1 - max)%nat with 0%nat by lia.
    split; [done|]. rewrite length_app. simpl. lia.
Qed.

Lemma increment_lookup (op op' : string) (counts : gmap string Z) :
  default 0 (increment op counts !! op') =
  default 0 (counts !! op') + (if bool_decide (op = op') then 1 else 0).
Proof.
  unfold increment. case_bool_decide as H.
  - subst. by rewrite lookup_insert_eq.
  - rewrite lookup_insert_ne by done. lia.
Qed.

Lemma record_all_spec (calls : list recording) :
  ∀ max ms oc ec t0,
  (length ms ≤ max)%nat →
  ∃ p,
    record_all calls (PerformanceMonitor.mk max ms oc ec t0 false) = Done p ∧
    PerformanceMonitor.lock p = false ∧
    PerformanceMonitor.max_history p = max ∧
    PerformanceMonitor.metrics p =
      drop (length ms + length calls - max) (ms ++ (metric_of <$> calls)) ∧
    (∀ op, default 0 (PerformanceMonitor.operation_counts p !! op) =
           default 0 (oc !! op) + Z.of_nat (calls_of op calls)) ∧
    (∀ op, default 0 (PerformanceMonitor.error_counts p !! op) =
           default 0 (ec !! op) + Z.of_nat (failures_of op calls)).
Proof.
  induction calls as [|c calls IH]; intros max ms oc ec t0 Hms.
  - eexists. split; [reflexivity|]. simpl.
    split; [done|]. split; [done|]. split.
    + rewrite app_nil_r. replace (length ms + 0 - max)%nat with 0%nat by lia. done.
    + unfold calls_of, failures_of. simpl. split; intros op; lia.
  - destruct c as [now op d ok msg].
    cbn [record_all at_instant of_type took succeeded message].
    rewrite record_operation_free. simpl.
    set (x := metric_of (mkRecording now op d ok msg)).
    destruct (deque_append_drop max ms x Hms) as [Hdq Hlen].
    destruct (IH max (deque_append max ms x) (increment op oc)
                (if negb ok then increment op ec else ec) t0 Hlen)
      as (p & Hp & Hlk & Hmax & Hmet & Hoc & Hec).
    exists p. split; [done|]. split; [done|]. split; [done|]. split; [|split].
    + rewrite Hmet.
      change (ms ++ x :: list_fmap _ _ metric_of calls)
        with (ms ++ x :: (metric_of <$> calls)).
      assert (length (deque_append max ms x) =
              (length ms + 1 - (length ms + 1 - max))%nat) as Hl.
      { rewrite Hdq, length_drop, length_app. simpl. lia. }
      rewrite Hl, Hdq.
      rewrite <- drop_app_le by (rewrite length_app; simpl; lia).
      rewrite drop_drop, <- app_assoc. simpl. f_equal. lia.
    + intros op'. rewrite Hoc, increment_lookup. unfold calls_of.
      rewrite filter_cons. simpl.
      case_bool_decide; case_decide; try done; simpl; lia.
    + intros op'. rewrite Hec. unfold failures_of. rewrite filter_cons. simpl.
      destruct ok; simpl.
      * case_decide as H; [by destruct H|]. lia.
      * rewrite increment_lookup.
        case_bool_decide as Ho; case_decide as Hd; simpl; try lia.
        -- exfalso. apply Hd. done.
        -- by destruct Hd.
Qed.

(** X24.  The monitor keeps the last [max_history] metrics and counts every
    call: after any sequence of calls of [record_operation] on a new monitor,
    each of which returns, the deque holds the metrics of the last
    [max_history] calls, oldest first, and never more than [max_history]
    of them, while for every operation type [operation_counts] is the number
    of all the calls of that type and [error_counts] the number of its calls
    that failed, an absent entry of either table counting as 0. *)
Theorem monitor_keeps_the_last_and_counts_all (now : Q) (max_history : nat)
    (calls : list recording) :
  ∃ p,
    record_all calls (PerformanceMonitor.init now max_history) = Done p ∧
    PerformanceMonitor.lock p = false ∧
    PerformanceMonitor.metrics p =
      drop (length calls - max_history) (metric_of <$> calls) ∧
    (length (PerformanceMonitor.metrics p) ≤ max_history)%nat ∧
    (∀ op, default 0 (PerformanceMonitor.operation_counts p !! op) =
           Z.of_nat (calls_of op calls)) ∧
    (∀ op, default 0 (PerformanceMonitor.error_counts p !! op) =
           Z.of_nat (failures_of op calls)).
Proof.
  destruct (record_all_spec calls max_history [] ∅ ∅ now ltac:(simpl; lia))
    as (p & Hp & Hlk & Hmax & Hmet & Hoc & Hec).
  exists p. split; [exact Hp|]. split; [done|]. simpl in Hmet.
  split; [done|]. split.
  { rewrite Hmet, length_drop, length_fmap. lia. }
  split; [intros op; by rewrite Hoc, lookup_empty|].
  intros op. by rewrite Hec, lookup_empty.
Qed.

(** Six calls on a monitor that keeps two metrics: the deque holds the last
    two, the tables count all six, and the failure whose message is empty is
    counted like the other. *)
Example monitor_sample :
  ∃ p,
    record_all sample_calls (PerformanceMonitor.init 0 2) = Done p ∧
    OperationMetrics.operation_type <$> PerformanceMonitor.metrics p =
      ["delete"; "get"] ∧
    PerformanceMonitor.operation_counts p !! "get" = Some 3 ∧
    PerformanceMonitor.error_counts p !! "get" = Some 1 ∧
    PerformanceMonitor.error_counts p !! "delete" = Some 1 ∧
    PerformanceMonitor.error_counts p !! "set" = None.
Proof.
  eexists. split; [vm_compute; reflexivity|].
  repeat split; vm_compute; reflexivity.
Qed.
